(** * communes-francaises: the fetch / enrich / collect / sort pipeline

    A shallow embedding of [main.go] and of the parts of the Go standard
    library its behaviour depends on ([strings.TrimLeft],
    [strconv.ParseInt], [sort.SliceStable]), followed by the properties
    of the enrichment worker, of the collector loop and of the final
    ordering. *)

From Stdlib Require Import ZArith Ascii String PrimFloat.

From stdpp Require Import list strings.

Set Warnings "-register-all,-inexact-float".

Local Open Scope string_scope.
Local Open Scope list_scope.
Local Open Scope Z_scope.

(** ** Data model (the struct declarations of [main.go]) *)

(** Go's [float64] is IEEE 754 binary64, as are Rocq's primitive floats. *)
Definition float64 : Type := PrimFloat.float.

(** A Go slice is modelled by a list; the [nil] slice and the empty slice
    both have length [0] and are both the empty list.  The worker never
    builds an empty non-nil slice. *)

Record Location : Type := mkLocation {
  loc_Type : string;
  loc_Coordinates : list float64
}.

Record Commune : Type := mkCommune {
  c_Nom : string;
  c_Departement : string;
  c_Region : string;
  c_CodesPostaux : list string;
  c_Location : Location
}.

Record Departement : Type := mkDepartement {
  dep_Nom : string;
  dep_Code : string
}.

Record Region : Type := mkRegion {
  reg_Nom : string;
  reg_Code : string
}.

Record Insee : Type := mkInsee {
  insee_Code : string
}.

Record Properties : Type := mkProperties {
  p_Nom : string;
  p_Code : string;
  p_CodesPostaux : list string;
  p_CodeDepartement : string;
  p_CodeRegion : string;
  p_Population : Z
}.

Record Geometry : Type := mkGeometry {
  g_Type : string;
  g_Coordinates : list float64
}.

Record CommuneResponse : Type := mkCommuneResponse {
  cs_Type : string;
  cs_Properties : Properties;
  cs_Geometry : Geometry
}.

(** The zero values [Commune{}] and [CommuneResponse{}]. *)
Definition Location_zero : Location := mkLocation "" [].
Definition Commune_zero : Commune := mkCommune "" "" "" [] Location_zero.
Definition CommuneResponse_zero : CommuneResponse :=
  mkCommuneResponse "" (mkProperties "" "" [] "" "" 0) (mkGeometry "" []).

(** ** The standard-library string functions used by the comparator *)

Module GoStrings.

(** [strings.TrimLeft s cutset]: [s] without its leading bytes that occur
    in [cutset].  The program only calls it with the one-byte cutset
    ["0"], where Go trims byte by byte. *)
Fixpoint contains_byte (cutset : string) (c : ascii) : bool :=
  match cutset with
  | EmptyString => false
  | String d cutset' => if Ascii.eqb c d then true else contains_byte cutset' c
  end.

Fixpoint TrimLeft (s cutset : string) : string :=
  match s with
  | EmptyString => EmptyString
  | String c s' => if contains_byte cutset c then TrimLeft s' cutset else s
  end.

End GoStrings.

Module GoStrconv.

Inductive NumError : Type := ErrSyntax | ErrRange.

Definition maxUint64 : Z := 2 ^ 64 - 1.

(** The digit loop of [strconv.ParseUint] for base 10 and bit size 64:
    [n] is the [uint64] accumulator.  A byte that is not a decimal digit
    is a syntax error; [n >= cutoff] means that [n * 10] overflows, and
    [n1 > maxVal] that [n + d] does (the wrapped comparison [n1 < n] of
    the source is this same test on unbounded integers). *)
Definition cutoff10 : Z := maxUint64 / 10 + 1.

Definition digit (c : ascii) : option Z :=
  let v := Z.of_N (N_of_ascii c) in
  if (48 <=? v) && (v <=? 57) then Some (v - 48) else None.

Fixpoint ParseUint_loop (s : string) (n : Z) : Z + NumError :=
  match s with
  | EmptyString => inl n
  | String c s' =>
      match digit c with
      | None => inr ErrSyntax
      | Some d =>
          if cutoff10 <=? n then inr ErrRange
          else
            let n1 := n * 10 + d in
            if maxUint64 <? n1 then inr ErrRange
            else ParseUint_loop s' n1
      end
  end.

Definition ParseUint10 (s : string) : Z + NumError :=
  match s with
  | EmptyString => inr ErrSyntax
  | _ => ParseUint_loop s 0
  end.

(** [strconv.ParseInt s 10 64]: an optional sign, then [ParseUint]; the
    magnitude must fit [int64]. *)
Definition ParseInt10 (s : string) : Z + NumError :=
  match s with
  | EmptyString => inr ErrSyntax
  | String c s' =>
      let '(neg, s1) :=
        if Ascii.eqb c "+"%char then (false, s')
        else if Ascii.eqb c "-"%char then (true, s')
        else (false, s) in
      match ParseUint10 s1 with
      | inr e => inr e
      | inl un =>
          let cutoff := 2 ^ 63 in
          if negb neg && (cutoff <=? un) then inr ErrRange
          else if neg && (cutoff <? un) then inr ErrRange
          else inl (if neg then - un else un)
      end
  end.

End GoStrconv.

(** ** The enrichment worker [geoAPIGouvFr] *)

(** What the worker observes of its one detail lookup: the result of
    [http.Get], then of [ioutil.ReadAll] on the body, then of
    [json.Unmarshal] of the bytes read.  These three calls are external
    collaborators; [StatusCode] is the status of the response. *)
Inductive UnmarshalResult : Type :=
| UnmarshalErr
| UnmarshalOk (cs : CommuneResponse).

Inductive ReadAllResult : Type :=
| ReadAllErr
| ReadAllOk (u : UnmarshalResult).

Inductive GetResult : Type :=
| GetErr
| GetOk (StatusCode : Z) (r : ReadAllResult).

(** The effects of one worker, in program order.  An [error] value is
    modelled by its message. *)
Inductive Event : Type :=
| EvGet (url : string)
| EvSendCommune (c : Commune)
| EvSendError (msg : string)
| EvPanic
| EvDone.

Definition set_Nom (c : Commune) (v : string) : Commune :=
  mkCommune v (c_Departement c) (c_Region c) (c_CodesPostaux c) (c_Location c).
Definition set_Departement (c : Commune) (v : string) : Commune :=
  mkCommune (c_Nom c) v (c_Region c) (c_CodesPostaux c) (c_Location c).
Definition set_Region (c : Commune) (v : string) : Commune :=
  mkCommune (c_Nom c) (c_Departement c) v (c_CodesPostaux c) (c_Location c).
Definition set_CodesPostaux (c : Commune) (v : list string) : Commune :=
  mkCommune (c_Nom c) (c_Departement c) (c_Region c) v (c_Location c).
Definition set_Location (c : Commune) (v : Location) : Commune :=
  mkCommune (c_Nom c) (c_Departement c) (c_Region c) (c_CodesPostaux c) v.

Definition detail_url (codeInsee : string) : string :=
  ("https://geo.api.gouv.fr/communes/" ++ codeInsee ++
   "?fields=nom,code,codesPostaux,codeDepartement,codeRegion,population&format=geojson&geometry=centre")%string.

(** Lines 163-186: the record built from a decoded response.  [None] is
    the run-time panic of an index out of range: the guard of line 182 is
    [len > 0], and line 184 reads index [1]. *)
Definition build_Commune (departements : list Departement) (regions : list Region)
    (cs : CommuneResponse) : option Commune :=
  let c := Commune_zero in
  let c := set_Nom c (p_Nom (cs_Properties cs)) in
  let c :=
    if negb (String.eqb (p_CodeDepartement (cs_Properties cs)) "") then
      foldl (fun c dep =>
               if String.eqb (dep_Code dep) (p_CodeDepartement (cs_Properties cs))
               then set_Departement c (dep_Nom dep) else c)
            c departements
    else c in
  let c :=
    if negb (String.eqb (p_CodeRegion (cs_Properties cs)) "") then
      foldl (fun c reg =>
               if String.eqb (reg_Code reg) (p_CodeRegion (cs_Properties cs))
               then set_Region c (reg_Nom reg) else c)
            c regions
    else c in
  let c :=
    if (0 <? length (p_CodesPostaux (cs_Properties cs)))%nat
    then set_CodesPostaux c (p_CodesPostaux (cs_Properties cs)) else c in
  if (0 <? length (g_Coordinates (cs_Geometry cs)))%nat then
    x1 ← g_Coordinates (cs_Geometry cs) !! 1%nat;
    let c := set_Location c (mkLocation "Point" (loc_Coordinates (c_Location c) ++ [x1])) in
    x0 ← g_Coordinates (cs_Geometry cs) !! 0%nat;
    let c := set_Location c (mkLocation "Point" (loc_Coordinates (c_Location c) ++ [x0])) in
    Some c
  else Some c.

(** [wg] and the two channels are the pipeline's; the worker's part is the
    sequence of its effects.  [wg.Done()] is deferred, so it ends every
    path. *)
Definition geoAPIGouvFr (codeInsee : string) (departements : list Departement)
    (regions : list Region) (w : GetResult) : list Event :=
  EvGet (detail_url codeInsee) ::
  match w with
  | GetErr => [EvSendError codeInsee; EvDone]
  | GetOk StatusCode r =>
      if StatusCode =? 404 then [EvSendError codeInsee; EvDone]
      else
        match r with
        | ReadAllErr => [EvSendError codeInsee; EvDone]
        | ReadAllOk UnmarshalErr => [EvSendError codeInsee; EvDone]
        | ReadAllOk (UnmarshalOk cs) =>
            match build_Commune departements regions cs with
            | None => [EvPanic; EvDone]
            | Some c => [EvSendCommune c; EvDone]
            end
        end
  end.

(** The messages a trace puts on each channel. *)
Definition sent_communes (t : list Event) : list Commune :=
  omap (fun e => match e with EvSendCommune c => Some c | _ => None end) t.
Definition sent_errors (t : list Event) : list string :=
  omap (fun e => match e with EvSendError m => Some m | _ => None end) t.
Definition lookups (t : list Event) : list string :=
  omap (fun e => match e with EvGet u => Some u | _ => None end) t.
Definition panics (t : list Event) : bool :=
  existsb (fun e => match e with EvPanic => true | _ => false end) t.

(** ** Serialization ([encoding/json] on the tags of [Commune] and
    [Location]) *)

Inductive JSON : Type :=
| JNull
| JString (s : string)
| JNumber (f : float64)
| JArray (l : list JSON)
| JObject (fields : list (string * JSON)).

(** A nil slice is encoded as [null]. *)
Definition marshal_slice {A : Type} (f : A -> JSON) (l : list A) : JSON :=
  match l with
  | [] => JNull
  | _ => JArray (map f l)
  end.

(** Both fields of [Location] are always written. *)
Definition marshal_Location (l : Location) : JSON :=
  JObject [("type", JString (loc_Type l));
           ("coordinates", marshal_slice JNumber (loc_Coordinates l))].

(** [omitempty] drops an empty string; [codesPostaux] and [location] carry
    no such option, and [Location] is a struct value, which is never
    empty for the encoder. *)
Definition omitempty (key s : string) : list (string * JSON) :=
  if String.eqb s "" then [] else [(key, JString s)].

Definition marshal_Commune (c : Commune) : JSON :=
  JObject ([("nom", JString (c_Nom c))]
           ++ omitempty "departement" (c_Departement c)
           ++ omitempty "region" (c_Region c)
           ++ [("codesPostaux", marshal_slice JString (c_CodesPostaux c));
               ("location", marshal_Location (c_Location c))]).

Definition keys (j : JSON) : list string :=
  match j with
  | JObject fields => map fst fields
  | _ => []
  end.

Fixpoint assoc (key : string) (fields : list (string * JSON)) : option JSON :=
  match fields with
  | [] => None
  | (k, v) :: fields' => if String.eqb k key then Some v else assoc key fields'
  end.

Definition field (key : string) (j : JSON) : option JSON :=
  match j with
  | JObject fields => assoc key fields
  | _ => None
  end.

(** [writeIntoJSON]: the document handed to [ioutil.WriteFile]. *)
Definition writeIntoJSON (communes : list Commune) : JSON :=
  marshal_slice marshal_Commune communes.

(** ** The comparator of [readCities] (lines 216-229) *)

Definition less (ci cj : Commune) : bool :=
  if (length (c_CodesPostaux ci) =? 0)%nat || (length (c_CodesPostaux cj) =? 0)%nat then true
  else
    match GoStrconv.ParseInt10 (GoStrings.TrimLeft (default "" (c_CodesPostaux ci !! 0%nat)) "0") with
    | inr _ => true
    | inl o =>
        match GoStrconv.ParseInt10 (GoStrings.TrimLeft (default "" (c_CodesPostaux cj !! 0%nat)) "0") with
        | inr _ => true
        | inl k => o <? k
        end
    end.

(** ** [sort.SliceStable] (package [sort]: [stable_func] and its helpers)

    Slice indices are Go [int]s between [0] and the length of the slice;
    they are modelled by [nat].  On the ranges the algorithm uses
    ([a < m < b <= n]) no subtraction below goes under zero, and
    [int(uint(i+j) >> 1)] is [(i + j) / 2].  A loop or recursion that has
    not finished when its fuel is spent yields [None]. *)

Module GoSort.
Section stable.
Context {A : Type} (less : A -> A -> bool).

Local Open Scope nat_scope.

(** [data.Less(i, j)] and [data.Swap(i, j)] of a [lessSwap] over the
    slice: the closure reads the slice as it currently is. *)
Definition Less (data : list A) (i j : nat) : bool :=
  match data !! i, data !! j with
  | Some x, Some y => less x y
  | _, _ => false
  end.

Definition Swap (data : list A) (i j : nat) : list A :=
  match data !! i, data !! j with
  | Some x, Some y => <[i:=y]> (<[j:=x]> data)
  | _, _ => data
  end.

(** [for j := i; j > a && data.Less(j, j-1); j-- { data.Swap(j, j-1) }] *)
Fixpoint insertionSort_inner (data : list A) (a j : nat) : list A :=
  match j with
  | O => data
  | S j' =>
      if (a <? j) && Less data j j'
      then insertionSort_inner (Swap data j j') a j'
      else data
  end.

Definition insertionSort_func (data : list A) (a b : nat) : list A :=
  foldl (fun data i => insertionSort_inner data a i) data (seq (a + 1) (b - (a + 1))).

Definition swapRange_func (data : list A) (a b n : nat) : list A :=
  foldl (fun data i => Swap data (a + i) (b + i)) data (seq 0 n).

(** The loop [for i != j] of [rotate_func] and the final swap. *)
Fixpoint rotate_loop (fuel : nat) (data : list A) (m i j : nat) : option (list A) :=
  if i =? j then Some (swapRange_func data (m - i) m i)
  else
    match fuel with
    | O => None
    | S fuel' =>
        if j <? i
        then rotate_loop fuel' (swapRange_func data (m - i) m j) m (i - j) j
        else rotate_loop fuel' (swapRange_func data (m - i) (m + j - i) i) m i (j - i)
    end.

Definition rotate_func (data : list A) (a m b : nat) : option (list A) :=
  rotate_loop ((m - a) + (b - m)) data m (m - a) (b - m).

(** The three binary searches of [symMerge_func] share one shape:
    [for i < j { h := (i+j)/2; if right h { i = h + 1 } else { j = h } }]. *)
Fixpoint search (fuel : nat) (right : nat -> bool) (i j : nat) : option nat :=
  if i <? j then
    match fuel with
    | O => None
    | S fuel' =>
        let h := (i + j) / 2 in
        if right h then search fuel' right (h + 1) j else search fuel' right i h
    end
  else Some i.

Fixpoint symMerge_func (fuel : nat) (data : list A) (a m b : nat) : option (list A) :=
  match fuel with
  | O => None
  | S fuel' =>
      if m - a =? 1 then
        i ← search (b - m) (fun h => Less data h a) m b;
        Some (foldl (fun data k => Swap data k (k + 1)) data (seq a (i - 1 - a)))
      else if b - m =? 1 then
        i ← search (m - a) (fun h => negb (Less data m h)) a m;
        Some (foldl (fun data k => Swap data k (k - 1)) data (rev (seq (i + 1) (m - i))))
      else
        let mid := (a + b) / 2 in
        let n := mid + m in
        let '(start, r) := if mid <? m then (n - b, mid) else (a, m) in
        let p := n - 1 in
        start ← search (r - start) (fun c => negb (Less data (p - c) c)) start r;
        let end_ := n - start in
        data ← (if (start <? m) && (m <? end_) then rotate_func data start m end_
                else Some data);
        data ← (if (a <? start) && (start <? mid) then symMerge_func fuel' data a start mid
                else Some data);
        if (mid <? end_) && (end_ <? b) then symMerge_func fuel' data mid end_ b
        else Some data
  end.

Definition symMerge (data : list A) (a m b : nat) : option (list A) :=
  symMerge_func (b - a) data a m b.

(** First loop of [stable_func]:
    [for b <= n { insertionSort(a, b); a = b; b += blockSize }], then
    [insertionSort(a, n)]. *)
Fixpoint stable_blocks (fuel : nat) (data : list A) (blockSize a b n : nat) : option (list A) :=
  if b <=? n then
    match fuel with
    | O => None
    | S fuel' =>
        stable_blocks fuel' (insertionSort_func data a b) blockSize b (b + blockSize) n
    end
  else Some (insertionSort_func data a n).

(** Inner loop of the second phase:
    [for b <= n { symMerge(a, a+blockSize, b); a = b; b += 2*blockSize }],
    then [if m := a + blockSize; m < n { symMerge(a, m, n) }]. *)
Fixpoint stable_pass (fuel : nat) (data : list A) (blockSize a b n : nat) : option (list A) :=
  if b <=? n then
    match fuel with
    | O => None
    | S fuel' =>
        data ← symMerge data a (a + blockSize) b;
        stable_pass fuel' data blockSize b (b + 2 * blockSize) n
    end
  else
    let m := a + blockSize in
    if m <? n then symMerge data a m n else Some data.

(** [for blockSize < n { ...; blockSize *= 2 }] *)
Fixpoint stable_merges (fuel : nat) (data : list A) (blockSize n : nat) : option (list A) :=
  if blockSize <? n then
    match fuel with
    | O => None
    | S fuel' =>
        data ← stable_pass n data blockSize 0 (2 * blockSize) n;
        stable_merges fuel' data (blockSize * 2) n
    end
  else Some data.

Definition stable_func (data : list A) (n : nat) : option (list A) :=
  let blockSize := 20 in
  data ← stable_blocks n data blockSize 0 blockSize n;
  stable_merges n data blockSize n.

Definition SliceStable (x : list A) : option (list A) :=
  stable_func x (length x).

End stable.
End GoSort.

(** ** The collector loop and the finalizer of [readCities] *)

(** The case a [select] of the loop takes, and what it receives.  Which
    cases are ready is decided by the channels and the ticker. *)
Inductive Select : Type :=
| RecvCommune (commune : Commune)
| ClosedCommune
| RecvError (err : string)
| ClosedError
| Tick.

(** The variables of [readCities].  [communeCh_live] is [communeCh != nil];
    [log_errors] holds the lines [logErrors] has appended to
    [log-errors.txt], [progress] the counts printed on ticks.  The [int]
    counter is bounded by the number of records and does not wrap. *)
Record Collector : Type := mkCollector {
  communeCh_live : bool;
  errorCh_live : bool;
  communes : list Commune;
  communeCounter : Z;
  log_errors : list string;
  progress : list Z
}.

Definition Collector_init : Collector := mkCollector true true [] 0 [] [].

(** The loop condition [communeCh != nil || errorCh != nil]. *)
Definition looping (st : Collector) : bool := communeCh_live st || errorCh_live st.

(** One iteration of the loop taking case [ev].  [None]: the loop has
    exited, or the case receives from a [nil] channel and is never taken. *)
Definition readCities_step (st : Collector) (ev : Select) : option Collector :=
  if negb (looping st) then None
  else
    match ev with
    | RecvCommune commune =>
        if communeCh_live st then
          Some (mkCollector (communeCh_live st) (errorCh_live st)
                  (communes st ++ [commune]) (communeCounter st + 1)
                  (log_errors st) (progress st))
        else None
    | ClosedCommune =>
        if communeCh_live st then
          Some (mkCollector false (errorCh_live st) (communes st) (communeCounter st)
                  (log_errors st) (progress st))
        else None
    | RecvError err =>
        if errorCh_live st then
          Some (mkCollector (communeCh_live st) (errorCh_live st) (communes st)
                  (communeCounter st) (log_errors st ++ [err]) (progress st))
        else None
    | ClosedError =>
        if errorCh_live st then
          Some (mkCollector (communeCh_live st) false (communes st) (communeCounter st)
                  (log_errors st) (progress st))
        else None
    | Tick =>
        Some (mkCollector (communeCh_live st) (errorCh_live st) (communes st)
                (communeCounter st) (log_errors st) (progress st ++ [communeCounter st]))
    end.

Fixpoint readCities_loop (st : Collector) (evs : list Select) : option Collector :=
  match evs with
  | [] => Some st
  | ev :: evs' => st' ← readCities_step st ev; readCities_loop st' evs'
  end.

(** [readCities] on the sequence of cases its selects take: the loop must
    have exited at the end of the sequence; the accumulated records are
    then sorted. *)
Definition readCities (evs : list Select) : option (list Commune) :=
  st ← readCities_loop Collector_init evs;
  if looping st then None else GoSort.SliceStable less (communes st).

(** The numeric value of a record's first postal code, leading zeros
    stripped, when there is one and it parses. *)
Definition leading_value (c : Commune) : option Z :=
  match c_CodesPostaux c with
  | [] => None
  | s :: _ =>
      match GoStrconv.ParseInt10 (GoStrings.TrimLeft s "0") with
      | inl v => Some v
      | inr _ => None
      end
  end.

(** A string of [n] characters ['0']. *)
Fixpoint zeros (n : nat) : string :=
  match n with
  | O => EmptyString
  | S n' => String "0"%char (zeros n')
  end.

(** What the scan of a reference table leaves in the name field: the name
    of an entry with the requested code, or nothing. *)
Definition resolved {T : Type} (code_of nom_of : T -> string) (table : list T)
    (code v : string) : Prop :=
  (code <> "" /\ exists e, e ∈ table /\ code_of e = code /\ v = nom_of e) \/
  ((code = "" \/ forall e, e ∈ table -> code_of e <> code) /\ v = "").

(** A response with status [StatusCode] whose body is read and decodes
    to [cs]. *)
Definition decoded (StatusCode : Z) (cs : CommuneResponse) : GetResult :=
  GetOk StatusCode (ReadAllOk (UnmarshalOk cs)).

Definition response (nom codeDepartement codeRegion : string) (codesPostaux : list string)
    (coordinates : list float64) : CommuneResponse :=
  mkCommuneResponse "Feature"
    (mkProperties nom "" codesPostaux codeDepartement codeRegion 0)
    (mkGeometry "Point" coordinates).


(** The lookups the worker answers with a Failure: [http.Get] returned an
    error, the status is 404, the body could not be read, or it could not
    be decoded. *)
Inductive failed_lookup : GetResult -> Prop :=
| failed_transport : failed_lookup GetErr
| failed_not_found r : failed_lookup (GetOk 404 r)
| failed_read StatusCode : failed_lookup (GetOk StatusCode ReadAllErr)
| failed_decode StatusCode : failed_lookup (GetOk StatusCode (ReadAllOk UnmarshalErr)).

(** The records and the failures a sequence of select cases delivers. *)
Definition received_communes (evs : list Select) : list Commune :=
  omap (fun ev => match ev with RecvCommune c => Some c | _ => None end) evs.
Definition received_errors (evs : list Select) : list string :=
  omap (fun ev => match ev with RecvError e => Some e | _ => None end) evs.

(** The cases that read the result channel, and those that read the error
    channel. *)
Definition on_communeCh (ev : Select) : bool :=
  match ev with RecvCommune _ | ClosedCommune => true | _ => false end.
Definition on_errorCh (ev : Select) : bool :=
  match ev with RecvError _ | ClosedError => true | _ => false end.

Definition is_ClosedCommune (ev : Select) : bool :=
  match ev with ClosedCommune => true | _ => false end.
Definition is_ClosedError (ev : Select) : bool :=
  match ev with ClosedError => true | _ => false end.

(** A record with the given name and postal codes, and nothing else. *)
Definition commune (nom : string) (codesPostaux : list string) : Commune :=
  mkCommune nom "" "" codesPostaux Location_zero.

(** [A] appears before [B] in [l]. *)
Definition before {T : Type} (l : list T) (A B : T) : Prop :=
  exists i j : nat, (i < j)%nat /\ l !! i = Some A /\ l !! j = Some B.

(** A whole run of [readCities] that receives the records [cs] in this
    order and no failure, then sees both channels closed. *)
Definition receive_all (cs : list Commune) : list Select :=
  map RecvCommune cs ++ [ClosedError; ClosedCommune].

(** ** What a stable sort by a numeric key is *)

Section order_spec.
Context {A : Type} (key : A -> Z).

(** [l] is in non-decreasing order of keys. *)
Definition ksorted (l : list A) : Prop :=
  forall (i j : nat) x y, (i < j)%nat -> l !! i = Some x -> l !! j = Some y -> key x <= key y.

(** The elements of [l] with key [k], in their order in [l]. *)
Definition with_key (k : Z) (l : list A) : list A :=
  filter (fun x => key x = k) l.

(** [out] is [l] sorted by key, elements of equal key in their order in
    [l]. *)
Definition stable_sorted (l out : list A) : Prop :=
  ksorted out /\ out ≡ₚ l /\ forall k, with_key k out = with_key k l.

(** [out] is [l] with each block of [bs] elements sorted stably; the
    last block may be shorter. *)
Inductive blockwise (bs : nat) : list A -> list A -> Prop :=
| blockwise_last l out :
    (length l <= bs)%nat -> stable_sorted l out -> blockwise bs l out
| blockwise_cons l1 out1 l out :
    length l1 = bs -> stable_sorted l1 out1 -> blockwise bs l out ->
    blockwise bs (l1 ++ l) (out1 ++ out).

End order_spec.

(** Twenty records in increasing order of postal code, then a record
    without postal code, then a record with a larger code. *)
Definition sorted_then_malformed : list Commune :=
  [commune "c01" ["01000"]; commune "c02" ["02000"]; commune "c03" ["03000"];
   commune "c04" ["04000"]; commune "c05" ["05000"]; commune "c06" ["06000"];
   commune "c07" ["07000"]; commune "c08" ["08000"]; commune "c09" ["09000"];
   commune "c10" ["10000"]; commune "c11" ["11000"]; commune "c12" ["12000"];
   commune "c13" ["13000"]; commune "c14" ["14000"]; commune "c15" ["15000"];
   commune "c16" ["16000"]; commune "c17" ["17000"]; commune "c18" ["18000"];
   commune "c19" ["19000"]; commune "c20" ["20000"];
   commune "sans" [];
   commune "c22" ["22000"]].

(** ** The whole pipeline: dispatcher, workers, channels, collector

    The goroutines of [communesWorker] and the loop of [readCities] run
    concurrently; a run is an interleaving of their steps.  The reference
    tables and the list of identifiers are fetched before any worker
    starts; [detail] is what the registry answers to the detail lookup of
    an identifier.  The random delay of [sleeping] only spaces the
    launches in time and has no step of its own. *)

Module Pipeline.

(** A buffered channel: the queue of messages sent and not yet received,
    and whether [close] was called. *)
Record Chan (T : Type) : Type := mkChan {
  buf : list T;
  closed : bool
}.
Arguments mkChan {T} _ _.
Arguments buf {T} _.
Arguments closed {T} _.

(** Capacities of [communeCh] and [errorCh] (lines 116-117). *)
Definition communeCh_cap : nat := 10.
Definition errorCh_cap : nat := 2.

(** Where the dispatching goroutine is: in its [range] loop, past
    [wg.Wait()], past [close(errorCh)], past [close(communeCh)]. *)
Inductive Phase : Type := Launching | Waited | ErrorClosed | BothClosed.

(** [launched]: iterations of the [range] loop done; [wg]: the counter of
    the wait group; [workers]: what each launched worker still has to do,
    in launch order. *)
Record State : Type := mkState {
  launched : nat;
  phase : Phase;
  wg : Z;
  workers : list (list Event);
  communeCh : Chan Commune;
  errorCh : Chan string;
  collector : Collector;
  crashed : bool
}.

Definition init : State :=
  mkState 0 Launching 0 [] (mkChan [] false) (mkChan [] false) Collector_init false.

Inductive Label : Type :=
| LLaunch (i : nat)
| LWait
| LCloseError
| LCloseCommune
| LWork (i : nat) (ev : Event)
| LSelect (ev : Select).

(** The number of [wg.Done()] a worker still has to perform. *)
Fixpoint count_done (t : list Event) : nat :=
  match t with
  | [] => 0
  | EvDone :: t' => S (count_done t')
  | _ :: t' => count_done t'
  end.

Section run.
Variables (departements : list Departement) (regions : list Region).
Variables (insees : list Insee) (detail : string -> GetResult).

(** The goroutine launched for [insee] (line 135). *)
Definition worker (insee : Insee) : list Event :=
  geoAPIGouvFr (insee_Code insee) departements regions (detail (insee_Code insee)).

(** One step of one of the goroutines.  A send blocks while the buffer is
    full and panics on a closed channel; a receive takes the oldest
    message, and reports a closed channel once the buffer is empty; a
    panic ends the process: a crashed state has no step. *)
Inductive step : State -> Label -> State -> Prop :=
| step_launch l w ws cc ec col insee :
    insees !! l = Some insee ->
    step (mkState l Launching w ws cc ec col false) (LLaunch l)
         (mkState (S l) Launching (w + 1) (ws ++ [worker insee]) cc ec col false)
| step_wait l ws cc ec col :
    l = length insees ->
    step (mkState l Launching 0 ws cc ec col false) LWait
         (mkState l Waited 0 ws cc ec col false)
| step_close_error l w ws cc b col :
    step (mkState l Waited w ws cc (mkChan b false) col false) LCloseError
         (mkState l ErrorClosed w ws cc (mkChan b true) col false)
| step_close_commune l w ws b ec col :
    step (mkState l ErrorClosed w ws (mkChan b false) ec col false) LCloseCommune
         (mkState l BothClosed w ws (mkChan b true) ec col false)
| step_get l p w ws cc ec col i url t :
    ws !! i = Some (EvGet url :: t) ->
    step (mkState l p w ws cc ec col false) (LWork i (EvGet url))
         (mkState l p w (<[i:=t]> ws) cc ec col false)
| step_send_commune l p w ws b ec col i c t :
    ws !! i = Some (EvSendCommune c :: t) ->
    (length b < communeCh_cap)%nat ->
    step (mkState l p w ws (mkChan b false) ec col false) (LWork i (EvSendCommune c))
         (mkState l p w (<[i:=t]> ws) (mkChan (b ++ [c]) false) ec col false)
| step_send_commune_closed l p w ws b ec col i c t :
    ws !! i = Some (EvSendCommune c :: t) ->
    step (mkState l p w ws (mkChan b true) ec col false) (LWork i EvPanic)
         (mkState l p w ws (mkChan b true) ec col true)
| step_send_error l p w ws cc b col i msg t :
    ws !! i = Some (EvSendError msg :: t) ->
    (length b < errorCh_cap)%nat ->
    step (mkState l p w ws cc (mkChan b false) col false) (LWork i (EvSendError msg))
         (mkState l p w (<[i:=t]> ws) cc (mkChan (b ++ [msg]) false) col false)
| step_send_error_closed l p w ws cc b col i msg t :
    ws !! i = Some (EvSendError msg :: t) ->
    step (mkState l p w ws cc (mkChan b true) col false) (LWork i EvPanic)
         (mkState l p w ws cc (mkChan b true) col true)
| step_panic l p w ws cc ec col i t :
    ws !! i = Some (EvPanic :: t) ->
    step (mkState l p w ws cc ec col false) (LWork i EvPanic)
         (mkState l p w ws cc ec col true)
| step_done l p w ws cc ec col i t :
    ws !! i = Some (EvDone :: t) ->
    step (mkState l p w ws cc ec col false) (LWork i EvDone)
         (mkState l p (w - 1) (<[i:=t]> ws) cc ec col false)
| step_recv_commune l p w ws c b cl ec col col' :
    readCities_step col (RecvCommune c) = Some col' ->
    step (mkState l p w ws (mkChan (c :: b) cl) ec col false) (LSelect (RecvCommune c))
         (mkState l p w ws (mkChan b cl) ec col' false)
| step_closed_commune l p w ws ec col col' :
    readCities_step col ClosedCommune = Some col' ->
    step (mkState l p w ws (mkChan [] true) ec col false) (LSelect ClosedCommune)
         (mkState l p w ws (mkChan [] true) ec col' false)
| step_recv_error l p w ws cc msg b cl col col' :
    readCities_step col (RecvError msg) = Some col' ->
    step (mkState l p w ws cc (mkChan (msg :: b) cl) col false) (LSelect (RecvError msg))
         (mkState l p w ws cc (mkChan b cl) col' false)
| step_closed_error l p w ws cc col col' :
    readCities_step col ClosedError = Some col' ->
    step (mkState l p w ws cc (mkChan [] true) col false) (LSelect ClosedError)
         (mkState l p w ws cc (mkChan [] true) col' false)
| step_tick l p w ws cc ec col col' :
    readCities_step col Tick = Some col' ->
    step (mkState l p w ws cc ec col false) (LSelect Tick)
         (mkState l p w ws cc ec col' false).

Inductive reachable : State -> Prop :=
| reachable_init : reachable init
| reachable_step s lbl s' : reachable s -> step s lbl s' -> reachable s'.

(** The loop of [readCities] has exited. *)
Definition finished (s : State) : Prop := looping (collector s) = false.

(** What holds in every reachable state. *)
Record Inv (s : State) : Prop := mkInv {
  inv_workers :
    Forall2 (fun insee t => exists done, worker insee = done ++ t /\ panics done = false)
            (take (launched s) insees) (workers s);
  inv_launched : (launched s <= length insees)%nat;
  inv_wg : wg s = Z.of_nat (sum_list_with count_done (workers s));
  inv_phase : phase s <> Launching ->
              launched s = length insees /\ wg s = 0;
  inv_closed_error : closed (errorCh s) = true <-> phase s = ErrorClosed \/ phase s = BothClosed;
  inv_closed_commune : closed (communeCh s) = true <-> phase s = BothClosed;
  inv_communes :
    communes (collector s) ++ buf (communeCh s) ++ concat (map sent_communes (workers s))
    ≡ₚ concat (map (fun insee => sent_communes (worker insee)) (take (launched s) insees));
  inv_errors :
    log_errors (collector s) ++ buf (errorCh s) ++ concat (map sent_errors (workers s))
    ≡ₚ concat (map (fun insee => sent_errors (worker insee)) (take (launched s) insees));
  inv_commune_nil : communeCh_live (collector s) = false ->
                    closed (communeCh s) = true /\ buf (communeCh s) = [];
  inv_error_nil : errorCh_live (collector s) = false ->
                  closed (errorCh s) = true /\ buf (errorCh s) = []
}.

End run.
End Pipeline.

(** A registry that answers every detail lookup with the same decoded
    response. *)
Definition constant_detail (cs : CommuneResponse) : string -> GetResult :=
  fun _ => decoded 200 cs.

(** ** Outcomes of a lookup, as the worker sorts them (lines 148-162) *)



(** ** Runs of the pipeline *)

Module PipelineRuns.
Import Pipeline.

Section runs.
Variables (departements : list Departement) (regions : list Region).
Variables (insees : list Insee) (detail : string -> GetResult).

(** A run from one state to another, with the labels of its steps. *)
Inductive run : State -> list Label -> State -> Prop :=
| run_nil s : run s [] s
| run_cons s lbl s' lbls s'' :
    step departements regions insees detail s lbl s' ->
    run s' lbls s'' -> run s (lbl :: lbls) s''.

End runs.

Definition is_tick (lbl : Label) : bool :=
  match lbl with LSelect Tick => true | _ => false end.

(** The steps of a run that are not timer ticks. *)
Definition work_steps (lbls : list Label) : nat :=
  length (List.filter (fun lbl => negb (is_tick lbl)) lbls).

Definition phase_rank (p : Phase) : nat :=
  match p with Launching => 3 | Waited => 2 | ErrorClosed => 1 | BothClosed => 0 end.

(** What is left to do in a state: launches, worker effects, messages in
    flight, closings, and the two closures the collector has to see. *)
Definition remaining_work (insees : list Insee) (s : State) : nat :=
  7 * (length insees - launched s)
  + 2 * sum_list_with length (workers s)
  + length (buf (communeCh s)) + length (buf (errorCh s))
  + phase_rank (phase s)
  + (if communeCh_live (collector s) then 1 else 0)
  + (if errorCh_live (collector s) then 1 else 0)
  + (if crashed s then 0 else 1).

(** The records and the failures the workers send along a run, in the
    order of the sends. *)
Definition sent_records (lbls : list Label) : list Commune :=
  omap (fun lbl => match lbl with LWork _ (EvSendCommune c) => Some c | _ => None end) lbls.
Definition sent_failures (lbls : list Label) : list string :=
  omap (fun lbl => match lbl with LWork _ (EvSendError msg) => Some msg | _ => None end) lbls.

End PipelineRuns.


(** The response, the record and the states of the examples: one
    identifier, whose lookup succeeds. *)
Definition cs_Paris : CommuneResponse :=
  response "Paris" "75" "11" ["75001"] [2.35%float; 48.85%float].
Definition c_Paris : Commune :=
  mkCommune "Paris" "" "" ["75001"] (mkLocation "Point" [48.85%float; 2.35%float]).
Definition state_sent : Pipeline.State :=
  Pipeline.mkState 1 Pipeline.Launching 1 [[EvDone]]
    (Pipeline.mkChan [c_Paris] false) (Pipeline.mkChan [] false) Collector_init false.
Definition state_complete : Pipeline.State :=
  Pipeline.mkState 1 Pipeline.BothClosed 0 [[]]
    (Pipeline.mkChan [] true) (Pipeline.mkChan [] true)
    (mkCollector false false [c_Paris] 1 [] []) false.
(** A response with a single coordinate, and the state in which its
    worker is about to read the second one. *)
Definition cs_single : CommuneResponse :=
  response "Paris" "75" "11" ["75001"] [2.35%float].
Definition state_before_panic : Pipeline.State :=
  Pipeline.mkState 1 Pipeline.Launching 1 [[EvPanic; EvDone]]
    (Pipeline.mkChan [] false) (Pipeline.mkChan [] false) Collector_init false.
Definition state_crashed : Pipeline.State :=
  Pipeline.mkState 1 Pipeline.Launching 1 [[EvPanic; EvDone]]
    (Pipeline.mkChan [] false) (Pipeline.mkChan [] false) Collector_init true.

(** ** The progress lines of [readCities] *)

(** For each tick of a sequence of select cases, the number of records
    received before it. *)
Fixpoint records_before_ticks (n : Z) (evs : list Select) : list Z :=
  match evs with
  | [] => []
  | RecvCommune _ :: evs' => records_before_ticks (n + 1) evs'
  | Tick :: evs' => n :: records_before_ticks n evs'
  | _ :: evs' => records_before_ticks n evs'
  end.

(** ** Decimal postal codes *)

(** The character of a decimal digit, and the string of a list of
    digits, most significant first. *)
Definition digit_char (d : Z) : ascii := ascii_of_N (Z.to_N (48 + d)).

Fixpoint digits_string (ds : list Z) : string :=
  match ds with
  | [] => EmptyString
  | d :: ds' => String (digit_char d) (digits_string ds')
  end.

(** The number a list of digits denotes. *)
Definition decimal (ds : list Z) : Z := foldl (fun n d => n * 10 + d) 0 ds.

Definition is_digits (ds : list Z) : Prop := Forall (fun d => 0 <= d <= 9) ds.

(** ** The three listings fetched by [communesWorker] (lines 70-129) *)

(** What one listing gives: [http.Get] fails, or [ioutil.ReadAll] fails,
    or [json.Unmarshal] fills the slice, possibly in part, and returns
    its error, if any.  An [error] is modelled by its message. *)
Inductive ListResult (T : Type) : Type :=
| ListGetErr (err : string)
| ListReadErr (StatusCode : Z) (err : string)
| ListUnmarshal (StatusCode : Z) (l : list T) (err : option string).
Arguments ListGetErr {T} _.
Arguments ListReadErr {T} _ _.
Arguments ListUnmarshal {T} _ _ _.

(** The body shared by [fetchCodeInsee], [fetchDepartements] and
    [fetchRegions]: the slice and the error returned. *)
Definition fetch {T : Type} (r : ListResult T) : list T * option string :=
  match r with
  | ListGetErr err => ([], Some err)
  | ListReadErr _ err => ([], Some err)
  | ListUnmarshal _ l err => (l, err)
  end.

Definition fetchCodeInsee (r : ListResult Insee) := fetch r.
Definition fetchDepartements (r : ListResult Departement) := fetch r.
Definition fetchRegions (r : ListResult Region) := fetch r.

Definition url_communes : string :=
  "https://geo.api.gouv.fr/communes?fields=nom,code,codesPostaux,codeDepartement,codeRegion,population&format=json&geometry=centre".
Definition url_departements : string :=
  "https://geo.api.gouv.fr/departements?fields=nom,code,codeRegion".
Definition url_regions : string :=
  "https://geo.api.gouv.fr/regions?fields=nom,code".

(** The start of [communesWorker], before its goroutine: the requests
    made, in order, and either the fatal error logged by [log.Fatalln],
    which ends the process, or the three tables. *)
Inductive Startup : Type :=
| Fatal (err : string)
| Started (insees : list Insee) (departements : list Departement) (regions : list Region).

Definition communesWorker_start (ri : ListResult Insee) (rd : ListResult Departement)
    (rr : ListResult Region) : list string * Startup :=
  match fetchCodeInsee ri with
  | (_, Some err) => ([url_communes], Fatal err)
  | (insees, None) =>
      match fetchDepartements rd with
      | (_, Some err) => ([url_communes; url_departements], Fatal err)
      | (departements, None) =>
          match fetchRegions rr with
          | (_, Some err) => ([url_communes; url_departements; url_regions], Fatal err)
          | (regions, None) =>
              ([url_communes; url_departements; url_regions],
               Started insees departements regions)
          end
      end
  end.

(** The error of a listing, if it has one. *)
Definition list_error {T : Type} (r : ListResult T) : option string := snd (fetch r).

(** ** The delay before each launch (lines 245-249) *)

(** [sleeping]: the milliseconds slept, [draw] being the value of
    [rand.Intn(75-35)], which lies in [[0, 40)]. *)
Definition sleeping (draw : Z) : Z := draw + 35.

(** The time the dispatcher has slept when it has launched one worker
    per draw. *)
Definition dispatch_delay (draws : list Z) : Z :=
  foldl (fun total draw => total + sleeping draw) 0 draws.
(** * Properties *)

(** ** The enrichment worker *)

Section worker.
Variables (departements : list Departement) (regions : list Region).

Lemma scan_departements code (l : list Departement) c :
  let c' := foldl (fun c dep => if String.eqb (dep_Code dep) code
                                then set_Departement c (dep_Nom dep) else c) c l in
  c_Nom c' = c_Nom c /\ c_Region c' = c_Region c /\
  c_CodesPostaux c' = c_CodesPostaux c /\ c_Location c' = c_Location c /\
  ((exists e, e ∈ l /\ dep_Code e = code /\ c_Departement c' = dep_Nom e) \/
   ((forall e, e ∈ l -> dep_Code e <> code) /\ c_Departement c' = c_Departement c)).
Proof.
  revert c; induction l as [|d l IH]; intros c; simpl.
  - repeat split; right; split; [intros e He; inversion He | reflexivity].
  - specialize (IH (if String.eqb (dep_Code d) code
                    then set_Departement c (dep_Nom d) else c)).
    simpl in IH. destruct IH as (Hn & Hr & Hc & Hl & IH).
    destruct (String.eqb_spec (dep_Code d) code) as [Heq|Hne]; simpl in *;
      (repeat split; [congruence..|]).
    + destruct IH as [(e & He & Hcode & Hv)|[Hno Hv]].
      * left; exists e; split; [by apply elem_of_cons; right|done].
      * left; exists d; split; [by apply elem_of_cons; left|done].
    + destruct IH as [(e & He & Hcode & Hv)|[Hno Hv]].
      * left; exists e; split; [by apply elem_of_cons; right|done].
      * right; split; [|done].
        intros e He; apply elem_of_cons in He as [->|He]; auto.
Qed.

Lemma scan_regions code (l : list Region) c :
  let c' := foldl (fun c reg => if String.eqb (reg_Code reg) code
                                then set_Region c (reg_Nom reg) else c) c l in
  c_Nom c' = c_Nom c /\ c_Departement c' = c_Departement c /\
  c_CodesPostaux c' = c_CodesPostaux c /\ c_Location c' = c_Location c /\
  ((exists e, e ∈ l /\ reg_Code e = code /\ c_Region c' = reg_Nom e) \/
   ((forall e, e ∈ l -> reg_Code e <> code) /\ c_Region c' = c_Region c)).
Proof.
  revert c; induction l as [|d l IH]; intros c; simpl.
  - repeat split; right; split; [intros e He; inversion He | reflexivity].
  - specialize (IH (if String.eqb (reg_Code d) code
                    then set_Region c (reg_Nom d) else c)).
    simpl in IH. destruct IH as (Hn & Hr & Hc & Hl & IH).
    destruct (String.eqb_spec (reg_Code d) code) as [Heq|Hne]; simpl in *;
      (repeat split; [congruence..|]).
    + destruct IH as [(e & He & Hcode & Hv)|[Hno Hv]].
      * left; exists e; split; [by apply elem_of_cons; right|done].
      * left; exists d; split; [by apply elem_of_cons; left|done].
    + destruct IH as [(e & He & Hcode & Hv)|[Hno Hv]].
      * left; exists e; split; [by apply elem_of_cons; right|done].
      * right; split; [|done].
        intros e He; apply elem_of_cons in He as [->|He]; auto.
Qed.

(** The record of lines 163-186, field by field. *)
Lemma build_Commune_shape cs :
  exists D R,
    resolved dep_Code dep_Nom departements (p_CodeDepartement (cs_Properties cs)) D /\
    resolved reg_Code reg_Nom regions (p_CodeRegion (cs_Properties cs)) R /\
    build_Commune departements regions cs =
      match g_Coordinates (cs_Geometry cs) with
      | [] =>
          Some (mkCommune (p_Nom (cs_Properties cs)) D R
                  (p_CodesPostaux (cs_Properties cs)) Location_zero)
      | [_] => None
      | x0 :: x1 :: _ =>
          Some (mkCommune (p_Nom (cs_Properties cs)) D R
                  (p_CodesPostaux (cs_Properties cs)) (mkLocation "Point" [x1; x0]))
      end.
Proof.
  unfold build_Commune.
  set (c0 := set_Nom Commune_zero (p_Nom (cs_Properties cs))).
  set (cd := p_CodeDepartement (cs_Properties cs)).
  set (cr := p_CodeRegion (cs_Properties cs)).
  set (c1 := if negb (String.eqb cd "") then foldl _ c0 departements else c0).
  set (c2 := if negb (String.eqb cr "") then foldl _ c1 regions else c1).
  assert (H1 : c_Nom c1 = p_Nom (cs_Properties cs) /\ c_Region c1 = "" /\
               c_CodesPostaux c1 = [] /\ c_Location c1 = Location_zero /\
               resolved dep_Code dep_Nom departements cd (c_Departement c1)).
  { subst c1. destruct (String.eqb_spec cd "") as [He|Hne]; simpl.
    - repeat split. right. split; [by left|done].
    - pose proof (scan_departements cd departements c0) as (Hn & Hr & Hc & Hl & Hd).
      simpl in *. repeat split; try congruence.
      destruct Hd as [(e & He & Hcode & Hv)|[Hno Hv]].
      + left; split; [done|]. by exists e.
      + right; split; [by right|]. by rewrite Hv. }
  destruct H1 as (Hn1 & Hr1 & Hc1 & Hl1 & Hd1).
  assert (H2 : c_Nom c2 = p_Nom (cs_Properties cs) /\ c_Departement c2 = c_Departement c1 /\
               c_CodesPostaux c2 = [] /\ c_Location c2 = Location_zero /\
               resolved reg_Code reg_Nom regions cr (c_Region c2)).
  { subst c2. destruct (String.eqb_spec cr "") as [He|Hne]; simpl.
    - repeat split; try done. right. split; [by left|done].
    - pose proof (scan_regions cr regions c1) as (Hn & Hr & Hc & Hl & Hd).
      simpl in *. repeat split; try congruence.
      destruct Hd as [(e & He & Hcode & Hv)|[Hno Hv]].
      + left; split; [done|]. by exists e.
      + right; split; [by right|]. by rewrite Hv, Hr1. }
  destruct H2 as (Hn2 & Hd2 & Hc2 & Hl2 & Hr2).
  exists (c_Departement c1), (c_Region c2). split; [done|]. split; [done|].
  clearbody c2 c1. destruct c2 as [n2 d2 r2 cp2 l2]; simpl in *; subst.
  assert (Hcp : (if (0 <? length (p_CodesPostaux (cs_Properties cs)))%nat
                 then set_CodesPostaux
                        (mkCommune (p_Nom (cs_Properties cs)) (c_Departement c1) r2 [] Location_zero)
                        (p_CodesPostaux (cs_Properties cs))
                 else mkCommune (p_Nom (cs_Properties cs)) (c_Departement c1) r2 [] Location_zero)
                = mkCommune (p_Nom (cs_Properties cs)) (c_Departement c1) r2
                    (p_CodesPostaux (cs_Properties cs)) Location_zero).
  { destruct (p_CodesPostaux (cs_Properties cs)); reflexivity. }
  rewrite Hcp.
  destruct (g_Coordinates (cs_Geometry cs)) as [|x0 [|x1 l]]; reflexivity.
Qed.

(** The trace of a worker whose lookup decoded to [cs]. *)
Lemma geoAPIGouvFr_decoded codeInsee StatusCode cs :
  StatusCode <> 404 ->
  geoAPIGouvFr codeInsee departements regions (decoded StatusCode cs) =
    EvGet (detail_url codeInsee) ::
    match build_Commune departements regions cs with
    | None => [EvPanic; EvDone]
    | Some c => [EvSendCommune c; EvDone]
    end.
Proof.
  intros Hs. unfold geoAPIGouvFr, decoded.
  destruct (Z.eqb_spec StatusCode 404); [done|reflexivity].
Qed.

End worker.


(** The worker panics exactly on a decoded response, not a 404, whose
    geometry has one coordinate. *)
Lemma geoAPIGouvFr_panics codeInsee departements regions w :
  panics (geoAPIGouvFr codeInsee departements regions w) = true <->
  exists StatusCode cs, w = decoded StatusCode cs /\ StatusCode <> 404 /\
                        length (g_Coordinates (cs_Geometry cs)) = 1%nat.
Proof.
  unfold geoAPIGouvFr, decoded. split.
  - destruct w as [|s [|[|cs]]]; simpl; try discriminate;
      destruct (Z.eqb_spec s 404); simpl; try discriminate.
    destruct (build_Commune_shape departements regions cs) as (D & R & _ & _ & ->).
    destruct (g_Coordinates (cs_Geometry cs)) as [|x0 [|x1 l]] eqn:Hc; simpl; try discriminate.
    intros _. exists s, cs. rewrite Hc. done.
  - intros (s & cs & -> & Hs & Hlen).
    destruct (Z.eqb_spec s 404); [done|].
    destruct (build_Commune_shape departements regions cs) as (D & R & _ & _ & ->).
    destruct (g_Coordinates (cs_Geometry cs)) as [|x0 [|x1 l]]; simpl in *; try discriminate.
    reflexivity.
Qed.

(** C3 (the code departs from it): every dispatched identifier should
    yield exactly one message.  On a decoded response whose geometry
    holds a single coordinate the guard [len > 0] passes, reading index
    [1] panics, and the worker sends nothing on either channel. *)
Theorem C3_single_coordinate_sends_nothing :
  let t := geoAPIGouvFr "75056" [mkDepartement "Paris" "75"] [mkRegion "Ile-de-France" "11"]
             (decoded 200 (response "Paris" "75" "11" ["75001"] [2.35%float])) in
  t = [EvGet (detail_url "75056"); EvPanic; EvDone] /\
  sent_communes t = [] /\ sent_errors t = [] /\ panics t = true.
Proof. vm_compute. repeat split. Qed.

(** C4: a decoded response whose geometry is the pair [(lon, lat)] makes
    the worker send a record whose location has kind ["Point"] and
    coordinates [(lat, lon)]. *)
Theorem C4_centroid_swapped codeInsee departements regions StatusCode cs lon lat :
  StatusCode <> 404 ->
  g_Coordinates (cs_Geometry cs) = [lon; lat] ->
  exists c,
    geoAPIGouvFr codeInsee departements regions (decoded StatusCode cs) =
      [EvGet (detail_url codeInsee); EvSendCommune c; EvDone] /\
    c_Location c = mkLocation "Point" [lat; lon].
Proof.
  intros Hs Hc. rewrite geoAPIGouvFr_decoded by done.
  destruct (build_Commune_shape departements regions cs) as (D & R & _ & _ & ->).
  rewrite Hc. eexists; split; reflexivity.
Qed.

Lemma C4_centroid_swapped_witness :
  200 <> 404 /\
  exists c,
    geoAPIGouvFr "75056" [] [] (decoded 200 (response "Paris" "75" "11" ["75001"]
                                               [2.35%float; 48.85%float])) =
      [EvGet (detail_url "75056"); EvSendCommune c; EvDone] /\
    c_Location c = mkLocation "Point" [48.85%float; 2.35%float].
Proof.
  split; [discriminate|].
  apply (C4_centroid_swapped "75056" [] [] 200
           (response "Paris" "75" "11" ["75001"] [2.35%float; 48.85%float])
           2.35%float 48.85%float); [discriminate|reflexivity].
Defined.

Lemma field_departement c :
  field "departement" (marshal_Commune c) =
    if String.eqb (c_Departement c) "" then None else Some (JString (c_Departement c)).
Proof.
  unfold marshal_Commune, omitempty.
  destruct (String.eqb (c_Departement c) ""); [|reflexivity].
  destruct (String.eqb (c_Region c) ""); reflexivity.
Qed.

Lemma field_region c :
  field "region" (marshal_Commune c) =
    if String.eqb (c_Region c) "" then None else Some (JString (c_Region c)).
Proof.
  unfold marshal_Commune, omitempty.
  destruct (String.eqb (c_Departement c) "");
    destruct (String.eqb (c_Region c) ""); reflexivity.
Qed.

Lemma field_location c :
  field "location" (marshal_Commune c) = Some (marshal_Location (c_Location c)).
Proof.
  unfold marshal_Commune, omitempty.
  destruct (String.eqb (c_Departement c) "");
    destruct (String.eqb (c_Region c) ""); reflexivity.
Qed.

(** C5: on a decoded response the worker sends no Failure; the record it
    sends has as department (region) name the name of a table entry with
    the response's code when that code is non-empty and occurs in the
    table, and no name, hence no serialized field, when the code is
    empty or absent from the table. *)
Theorem C5_reference_resolution codeInsee departements regions StatusCode cs :
  StatusCode <> 404 ->
  length (g_Coordinates (cs_Geometry cs)) <> 1%nat ->
  exists c,
    geoAPIGouvFr codeInsee departements regions (decoded StatusCode cs) =
      [EvGet (detail_url codeInsee); EvSendCommune c; EvDone] /\
    resolved dep_Code dep_Nom departements (p_CodeDepartement (cs_Properties cs))
      (c_Departement c) /\
    resolved reg_Code reg_Nom regions (p_CodeRegion (cs_Properties cs)) (c_Region c) /\
    (c_Departement c = "" -> field "departement" (marshal_Commune c) = None) /\
    (c_Region c = "" -> field "region" (marshal_Commune c) = None).
Proof.
  intros Hs Hlen. rewrite geoAPIGouvFr_decoded by done.
  destruct (build_Commune_shape departements regions cs) as (D & R & HD & HR & ->).
  destruct (g_Coordinates (cs_Geometry cs)) as [|x0 [|x1 l]]; [|done|];
    (eexists; split; [reflexivity|]; cbn [c_Departement c_Region];
     split; [done|]; split; [done|]; split; intros E;
     [rewrite field_departement|rewrite field_region]; cbn [c_Departement c_Region];
     by rewrite E).
Qed.

Lemma C5_reference_resolution_witness :
  200 <> 404 /\
  length (g_Coordinates (cs_Geometry (response "Paris" "75" "11" ["75001"] []))) <> 1%nat /\
  exists c,
    geoAPIGouvFr "75056" [mkDepartement "Paris" "75"] []
      (decoded 200 (response "Paris" "75" "11" ["75001"] [])) =
      [EvGet (detail_url "75056"); EvSendCommune c; EvDone] /\
    resolved dep_Code dep_Nom [mkDepartement "Paris" "75"] "75" (c_Departement c) /\
    resolved reg_Code reg_Nom [] "11" (c_Region c) /\
    (c_Departement c = "" -> field "departement" (marshal_Commune c) = None) /\
    (c_Region c = "" -> field "region" (marshal_Commune c) = None).
Proof.
  split; [discriminate|]. split; [discriminate|].
  apply (C5_reference_resolution "75056" [mkDepartement "Paris" "75"] [] 200
           (response "Paris" "75" "11" ["75001"] [])); discriminate.
Defined.

(** The two cases of the specification's example. *)
Example resolution_Paris :
  build_Commune [mkDepartement "Paris" "75"] [] (response "Paris" "75" "" [] []) =
    Some (mkCommune "Paris" "Paris" "" [] Location_zero).
Proof. reflexivity. Qed.

Example resolution_absent :
  build_Commune [mkDepartement "Paris" "75"] [] (response "Nulle-Part" "99" "" [] []) =
    Some (mkCommune "Nulle-Part" "" "" [] Location_zero).
Proof. reflexivity. Qed.

(** C6 as stated fails: a status that is not a success but is not 404
    either is not looked at.  A 500 response whose body decodes (here to
    the zero response, as the body [{}] does) makes the worker send a
    record and no Failure. *)
Lemma C6_counterexample :
  let t := geoAPIGouvFr "75056" [] [] (decoded 500 CommuneResponse_zero) in
  ~ (200 <= 500 < 300) /\
  t = [EvGet (detail_url "75056"); EvSendCommune Commune_zero; EvDone] /\
  sent_errors t = [] /\ sent_communes t = [Commune_zero].
Proof. split; [lia|]. vm_compute. repeat split. Qed.

(** C6, amended: a lookup that ends in a transport error, a 404 status, a
    body read error or a decode error makes the worker perform that one
    lookup and send exactly one Failure, whose message is the identifier
    and nothing else; the four kinds give the same trace. *)
Theorem C6_failed_lookup_one_failure codeInsee departements regions w :
  failed_lookup w ->
  let t := geoAPIGouvFr codeInsee departements regions w in
  t = [EvGet (detail_url codeInsee); EvSendError codeInsee; EvDone] /\
  sent_errors t = [codeInsee] /\ sent_communes t = [] /\
  lookups t = [detail_url codeInsee] /\ panics t = false.
Proof.
  intros Hw; cbv zeta.
  assert (H : geoAPIGouvFr codeInsee departements regions w =
              [EvGet (detail_url codeInsee); EvSendError codeInsee; EvDone]).
  { destruct Hw as [|r|s|s]; unfold geoAPIGouvFr; simpl; try reflexivity;
      destruct (s =? 404); reflexivity. }
  rewrite H. repeat (split; [reflexivity|]). reflexivity.
Qed.

Lemma C6_failed_lookup_one_failure_witness :
  failed_lookup (GetOk 200 (ReadAllOk UnmarshalErr)) /\
  let t := geoAPIGouvFr "75056" [] [] (GetOk 200 (ReadAllOk UnmarshalErr)) in
  t = [EvGet (detail_url "75056"); EvSendError "75056"; EvDone] /\
  sent_errors t = ["75056"] /\ sent_communes t = [] /\
  lookups t = [detail_url "75056"] /\ panics t = false.
Proof.
  split; [constructor|].
  apply (C6_failed_lookup_one_failure "75056" [] [] (GetOk 200 (ReadAllOk UnmarshalErr))).
  constructor.
Defined.

(** C8 as stated fails: [Location] is a struct value and its tag has no
    [omitempty], so a record built from a response without coordinates is
    serialized with a location, the zero one. *)
Lemma C8_counterexample :
  let cs := response "Paris" "75" "11" ["75001"] [] in
  g_Coordinates (cs_Geometry cs) = [] /\
  exists c,
    geoAPIGouvFr "75056" [] [] (decoded 200 cs) =
      [EvGet (detail_url "75056"); EvSendCommune c; EvDone] /\
    field "location" (marshal_Commune c) <> None /\
    field "location" (marshal_Commune c) =
      Some (JObject [("type", JString ""); ("coordinates", JNull)]).
Proof.
  split; [reflexivity|]. eexists. split; [reflexivity|]. split; [discriminate|reflexivity].
Qed.

(** C8, amended: when the detail response holds no coordinates the record
    sent has the zero location (empty kind, no coordinates) and its
    serialization always carries the field [location], with an empty
    [type] and [null] coordinates; only the department and region names
    are left out of the serialization when they are empty. *)
Theorem C8_location_always_serialized codeInsee departements regions StatusCode cs :
  StatusCode <> 404 ->
  g_Coordinates (cs_Geometry cs) = [] ->
  exists c,
    geoAPIGouvFr codeInsee departements regions (decoded StatusCode cs) =
      [EvGet (detail_url codeInsee); EvSendCommune c; EvDone] /\
    c_Location c = Location_zero /\
    field "location" (marshal_Commune c) =
      Some (JObject [("type", JString ""); ("coordinates", JNull)]) /\
    (c_Departement c = "" -> field "departement" (marshal_Commune c) = None) /\
    (c_Region c = "" -> field "region" (marshal_Commune c) = None).
Proof.
  intros Hs Hc. rewrite geoAPIGouvFr_decoded by done.
  destruct (build_Commune_shape departements regions cs) as (D & R & _ & _ & ->).
  rewrite Hc. eexists; split; [reflexivity|]. cbn [c_Location c_Departement c_Region].
  split; [reflexivity|]. split; [by rewrite field_location|].
  split; intros E; [rewrite field_departement|rewrite field_region];
    cbn [c_Departement c_Region]; by rewrite E.
Qed.

Lemma C8_location_always_serialized_witness :
  200 <> 404 /\
  g_Coordinates (cs_Geometry (response "Paris" "75" "11" ["75001"] [])) = [] /\
  exists c,
    geoAPIGouvFr "75056" [mkDepartement "Paris" "75"] [] (decoded 200 (response "Paris" "75" "11" ["75001"] [])) =
      [EvGet (detail_url "75056"); EvSendCommune c; EvDone] /\
    c_Location c = Location_zero /\
    field "location" (marshal_Commune c) =
      Some (JObject [("type", JString ""); ("coordinates", JNull)]) /\
    (c_Departement c = "" -> field "departement" (marshal_Commune c) = None) /\
    (c_Region c = "" -> field "region" (marshal_Commune c) = None).
Proof.
  split; [discriminate|]. split; [reflexivity|].
  apply (C8_location_always_serialized "75056" [mkDepartement "Paris" "75"] [] 200
           (response "Paris" "75" "11" ["75001"] [])); [discriminate|reflexivity].
Defined.

(** ** The collector loop *)

Lemma readCities_step_Some st ev st' :
  readCities_step st ev = Some st' ->
  looping st = true /\
  (on_communeCh ev = true -> communeCh_live st = true) /\
  (on_errorCh ev = true -> errorCh_live st = true) /\
  communeCh_live st' = communeCh_live st && negb (is_ClosedCommune ev) /\
  errorCh_live st' = errorCh_live st && negb (is_ClosedError ev) /\
  communes st' = communes st ++ received_communes [ev] /\
  log_errors st' = log_errors st ++ received_errors [ev].
Proof.
  unfold readCities_step, looping.
  destruct st as [cl el cs n lg pr]; simpl.
  destruct cl, el, ev; simpl; intros H; inversion H; subst; simpl;
    rewrite ?app_nil_r; repeat split; try done.
Qed.

Lemma readCities_loop_app st evs1 evs2 :
  readCities_loop st (evs1 ++ evs2) =
    st' ← readCities_loop st evs1; readCities_loop st' evs2.
Proof.
  revert st; induction evs1 as [|ev evs1 IH]; intros st; simpl; [done|].
  destruct (readCities_step st ev); simpl; [apply IH|done].
Qed.


Lemma existsb_is_ClosedCommune evs :
  existsb is_ClosedCommune evs = true <-> ClosedCommune ∈ evs.
Proof.
  induction evs as [|ev evs IH]; simpl.
  - split; [discriminate|intros H; inversion H].
  - rewrite elem_of_cons, orb_true_iff, IH.
    destruct ev; simpl; intuition (discriminate || auto).
Qed.

Lemma existsb_is_ClosedError evs :
  existsb is_ClosedError evs = true <-> ClosedError ∈ evs.
Proof.
  induction evs as [|ev evs IH]; simpl.
  - split; [discriminate|intros H; inversion H].
  - rewrite elem_of_cons, orb_true_iff, IH.
    destruct ev; simpl; intuition (discriminate || auto).
Qed.

(** The state after a sequence of iterations, from any state of the loop. *)
Lemma readCities_loop_Some evs : forall st st',
  readCities_loop st evs = Some st' ->
  communeCh_live st' = communeCh_live st && negb (existsb is_ClosedCommune evs) /\
  errorCh_live st' = errorCh_live st && negb (existsb is_ClosedError evs) /\
  communes st' = communes st ++ received_communes evs /\
  log_errors st' = log_errors st ++ received_errors evs /\
  (communeCh_live st = false -> forall ev, ev ∈ evs -> on_communeCh ev = false) /\
  (errorCh_live st = false -> forall ev, ev ∈ evs -> on_errorCh ev = false).
Proof.
  induction evs as [|ev evs IH]; intros st st'; simpl.
  - intros [= <-]. rewrite !andb_true_r, !app_nil_r.
    repeat split; try done; intros _ ev H; inversion H.
  - destruct (readCities_step st ev) as [st1|] eqn:Hstep; simpl; [|done].
    intros Hloop. apply IH in Hloop as (Hc & He & Hcs & Hlg & Hnc & Hne).
    apply readCities_step_Some in Hstep as (_ & Hoc & Hoe & Hc1 & He1 & Hcs1 & Hlg1).
    rewrite Hc, He, Hcs, Hlg, Hc1, He1, Hcs1, Hlg1, <- !app_assoc.
    split; [by destruct (communeCh_live st), (is_ClosedCommune ev)|].
    split; [by destruct (errorCh_live st), (is_ClosedError ev)|].
    split; [f_equal; by destruct ev|].
    split; [f_equal; by destruct ev|].
    split.
    + intros Hd ev' Hin; apply elem_of_cons in Hin as [Heq|Hin]; [subst ev'|].
      * destruct (on_communeCh ev); [|done]. rewrite Hoc in Hd; done.
      * apply Hnc; [|done]. rewrite Hc1, Hd. done.
    + intros Hd ev' Hin; apply elem_of_cons in Hin as [Heq|Hin]; [subst ev'|].
      * destruct (on_errorCh ev); [|done]. rewrite Hoe in Hd; done.
      * apply Hne; [|done]. rewrite He1, Hd. done.
Qed.

(** C7: on any sequence of select cases the loop goes through, the loop
    has exited exactly when both a closed result channel and a closed
    error channel were observed, in either order; once exited it takes no
    more case; no case on a channel follows the observation of its
    closure, while the cases of the other channel stay available as long
    as that one is live; the accumulator holds every record received, in
    order of reception, and the log every failure. *)
Theorem C7_collector_termination evs st :
  readCities_loop Collector_init evs = Some st ->
  (looping st = false <-> ClosedCommune ∈ evs /\ ClosedError ∈ evs) /\
  (looping st = false -> forall ev, readCities_step st ev = None) /\
  (forall pre post, evs = pre ++ ClosedCommune :: post ->
     forall ev, ev ∈ post -> on_communeCh ev = false) /\
  (forall pre post, evs = pre ++ ClosedError :: post ->
     forall ev, ev ∈ post -> on_errorCh ev = false) /\
  (communeCh_live st = false -> errorCh_live st = true ->
     forall err, is_Some (readCities_step st (RecvError err)) /\
                 is_Some (readCities_step st ClosedError)) /\
  (errorCh_live st = false -> communeCh_live st = true ->
     forall c, is_Some (readCities_step st (RecvCommune c)) /\
               is_Some (readCities_step st ClosedCommune)) /\
  communes st = received_communes evs /\
  log_errors st = received_errors evs.
Proof.
  intros Hloop.
  pose proof (readCities_loop_Some _ _ _ Hloop) as (Hc & He & Hcs & Hlg & _ & _).
  simpl in Hc, He, Hcs, Hlg.
  split.
  { unfold looping. rewrite Hc, He, <- existsb_is_ClosedCommune, <- existsb_is_ClosedError.
    destruct (existsb is_ClosedCommune evs), (existsb is_ClosedError evs); simpl;
      intuition discriminate. }
  split.
  { intros Hex ev. unfold readCities_step. by rewrite Hex. }
  split.
  { intros pre post -> ev Hin.
    rewrite readCities_loop_app in Hloop.
    destruct (readCities_loop Collector_init pre) as [st1|]; simpl in Hloop; [|done].
    destruct (readCities_step st1 ClosedCommune) as [st2|] eqn:Hstep; simpl in Hloop; [|done].
    apply readCities_step_Some in Hstep as (_ & _ & _ & Hc2 & _).
    apply readCities_loop_Some in Hloop as (_ & _ & _ & _ & Hnc & _).
    apply Hnc; [|done]. rewrite Hc2. simpl. apply andb_false_r. }
  split.
  { intros pre post -> ev Hin.
    rewrite readCities_loop_app in Hloop.
    destruct (readCities_loop Collector_init pre) as [st1|]; simpl in Hloop; [|done].
    destruct (readCities_step st1 ClosedError) as [st2|] eqn:Hstep; simpl in Hloop; [|done].
    apply readCities_step_Some in Hstep as (_ & _ & _ & _ & He2 & _).
    apply readCities_loop_Some in Hloop as (_ & _ & _ & _ & _ & Hne).
    apply Hne; [|done]. rewrite He2. simpl. apply andb_false_r. }
  split.
  { intros Hd Hl err. unfold readCities_step, looping. rewrite Hd, Hl. simpl. split; eauto. }
  split.
  { intros Hd Hl c. unfold readCities_step, looping. rewrite Hd, Hl. simpl. split; eauto. }
  done.
Qed.

Lemma C7_collector_termination_witness :
  let evs := [RecvCommune Commune_zero; ClosedCommune; RecvError "01001"; Tick; ClosedError] in
  let st := mkCollector false false [Commune_zero] 1 ["01001"] [1] in
  readCities_loop Collector_init evs = Some st /\
  (looping st = false <-> ClosedCommune ∈ evs /\ ClosedError ∈ evs) /\
  (looping st = false -> forall ev, readCities_step st ev = None) /\
  (forall pre post, evs = pre ++ ClosedCommune :: post ->
     forall ev, ev ∈ post -> on_communeCh ev = false) /\
  (forall pre post, evs = pre ++ ClosedError :: post ->
     forall ev, ev ∈ post -> on_errorCh ev = false) /\
  (communeCh_live st = false -> errorCh_live st = true ->
     forall err, is_Some (readCities_step st (RecvError err)) /\
                 is_Some (readCities_step st ClosedError)) /\
  (errorCh_live st = false -> communeCh_live st = true ->
     forall c, is_Some (readCities_step st (RecvCommune c)) /\
               is_Some (readCities_step st ClosedCommune)) /\
  communes st = received_communes evs /\
  log_errors st = received_errors evs.
Proof.
  split; [reflexivity|].
  apply (C7_collector_termination
           [RecvCommune Commune_zero; ClosedCommune; RecvError "01001"; Tick; ClosedError]).
  reflexivity.
Defined.

(** Either channel may be seen closed first. *)
Example collector_error_closed_first :
  looping <$> readCities_loop Collector_init [ClosedError; RecvCommune Commune_zero; ClosedCommune]
  = Some false.
Proof. reflexivity. Qed.

Example collector_commune_closed_first :
  looping <$> readCities_loop Collector_init [ClosedCommune; RecvError "01001"; ClosedError]
  = Some false.
Proof. reflexivity. Qed.

(** A case on a channel seen closed is never taken again. *)
Example collector_nil_channel_blocks :
  readCities_loop Collector_init [ClosedCommune; RecvCommune Commune_zero] = None.
Proof. reflexivity. Qed.

(** ** The comparator and the final order *)

(** The comparator in terms of the leading values: it answers [true] as
    soon as one of the two records has no value. *)
Lemma less_leading_value ci cj :
  less ci cj =
    match leading_value ci, leading_value cj with
    | Some o, Some k => o <? k
    | _, _ => true
    end.
Proof.
  unfold less, leading_value.
  destruct (c_CodesPostaux ci) as [|si li]; [reflexivity|].
  destruct (c_CodesPostaux cj) as [|sj lj]; simpl.
  - by destruct (GoStrconv.ParseInt10 (GoStrings.TrimLeft si "0")).
  - destruct (GoStrconv.ParseInt10 (GoStrings.TrimLeft si "0")); [|reflexivity].
    by destruct (GoStrconv.ParseInt10 (GoStrings.TrimLeft sj "0")).
Qed.

Lemma TrimLeft_zeros n : GoStrings.TrimLeft (zeros n) "0" = "".
Proof. induction n as [|n IH]; [reflexivity|]. simpl. exact IH. Qed.

Lemma leading_value_zeros nom n rest :
  leading_value (commune nom (zeros n :: rest)) = None.
Proof. unfold leading_value; simpl. by rewrite TrimLeft_zeros. Qed.

(** C2 (the code departs from it): records without a parseable first
    postal code should come first, in their order of arrival.  The
    comparator answers [true] also when its second argument is such a
    record, so the insertion loop moves a valid record in front of a
    malformed one, and a malformed record in front of an earlier
    malformed one. *)
Theorem C2_malformed_not_first :
  let M := commune "Sans-Code" [] in
  let M' := commune "Lettres" ["2A004"] in
  let V := commune "Paris" ["75001"] in
  leading_value M = None /\ leading_value M' = None /\ leading_value V = Some 75001 /\
  less V M = true /\ less M V = true /\
  readCities (receive_all [M; V]) = Some [V; M] /\
  readCities (receive_all [M'; V]) = Some [V; M'] /\
  readCities (receive_all [M; M']) = Some [M'; M].
Proof. vm_compute. repeat split. Qed.

(** C10 (the code departs from it in its last part): a first postal code
    made of ['0'] only is trimmed to the empty string, which does not
    parse, and the comparator answers [true] on such a record on either
    side.  The record is nevertheless not placed ahead of the parseable
    ones: received before a valid record, it ends up after it. *)
Theorem C10_all_zero_code :
  (forall n, GoStrings.TrimLeft (zeros n) "0" = "") /\
  GoStrconv.ParseInt10 "" = inr GoStrconv.ErrSyntax /\
  (forall nom n rest, leading_value (commune nom (zeros n :: rest)) = None) /\
  (forall nom n rest other,
     less (commune nom (zeros n :: rest)) other = true /\
     less other (commune nom (zeros n :: rest)) = true) /\
  let Z := commune "Zero" ["00000"] in
  let V := commune "Paris" ["75001"] in
  leading_value V = Some 75001 /\
  readCities (receive_all [Z; V]) = Some [V; Z].
Proof.
  split; [apply TrimLeft_zeros|]. split; [reflexivity|].
  split; [apply leading_value_zeros|].
  split.
  - intros nom n rest other. rewrite !less_leading_value, leading_value_zeros.
    split; [reflexivity|]. by destruct (leading_value other).
  - vm_compute. repeat split.
Qed.

(** ** [sort.SliceStable]: what the in-place operations do to the slice *)

Import GoSort.

Section sort_ops.
Context {A : Type} (less : A -> A -> bool).
Implicit Types (data pre mid post : list A) (x y : A).

Local Open Scope nat_scope.

Lemma lookup_app_at pre x post : (pre ++ x :: post) !! length pre = Some x.
Proof. apply list_lookup_middle; reflexivity. Qed.

Lemma lookup_app_at2 pre x mid y post :
  (pre ++ x :: mid ++ y :: post) !! (length pre + S (length mid)) = Some y.
Proof.
  replace (pre ++ x :: mid ++ y :: post) with ((pre ++ x :: mid) ++ y :: post)
    by (by rewrite <- app_assoc).
  apply list_lookup_middle. rewrite length_app; simpl; lia.
Qed.

Lemma insert_app_at pre x post y : <[length pre:=y]> (pre ++ x :: post) = pre ++ y :: post.
Proof.
  replace (length pre) with (length pre + 0) by lia.
  by rewrite insert_app_r.
Qed.

Lemma insert_app_at2 pre x mid y post z :
  <[length pre + S (length mid):=z]> (pre ++ x :: mid ++ y :: post) =
    pre ++ x :: mid ++ z :: post.
Proof.
  replace (pre ++ x :: mid ++ y :: post) with ((pre ++ x :: mid) ++ y :: post)
    by (by rewrite <- app_assoc).
  replace (length pre + S (length mid)) with (length (pre ++ x :: mid))
    by (rewrite length_app; simpl; lia).
  rewrite insert_app_at. by rewrite <- app_assoc.
Qed.

(** Swapping two distinct positions. *)
Lemma Swap_app pre x mid y post :
  Swap (pre ++ x :: mid ++ y :: post) (length pre) (length pre + S (length mid)) =
    pre ++ y :: mid ++ x :: post.
Proof.
  unfold Swap. rewrite lookup_app_at, lookup_app_at2.
  rewrite insert_app_at2. apply insert_app_at.
Qed.

Lemma Swap_app_sym pre x mid y post :
  Swap (pre ++ x :: mid ++ y :: post) (length pre + S (length mid)) (length pre) =
    pre ++ y :: mid ++ x :: post.
Proof.
  unfold Swap. rewrite lookup_app_at, lookup_app_at2.
  rewrite insert_app_at. apply insert_app_at2.
Qed.

Lemma Less_app pre x mid y post :
  Less less (pre ++ x :: mid ++ y :: post) (length pre) (length pre + S (length mid)) = less x y.
Proof. unfold Less. by rewrite lookup_app_at, lookup_app_at2. Qed.

Lemma Less_app_sym pre x mid y post :
  Less less (pre ++ x :: mid ++ y :: post) (length pre + S (length mid)) (length pre) = less y x.
Proof. unfold Less. by rewrite lookup_app_at, lookup_app_at2. Qed.

(** [for k := a; k < i-1; k++ { Swap(k, k+1) }] carries the element at
    [a] to the right of the block that follows it. *)
Lemma bubble_right w : forall pre x post,
  foldl (fun data k => Swap data k (k + 1)) (pre ++ x :: w ++ post) (seq (length pre) (length w))
  = pre ++ w ++ x :: post.
Proof.
  induction w as [|y w IH]; intros pre x post; simpl; [done|].
  pose proof (Swap_app pre x [] y (w ++ post)) as Hs. simpl in Hs.
  rewrite Hs.
  replace (pre ++ y :: x :: w ++ post) with ((pre ++ [y]) ++ x :: w ++ post)
    by (by rewrite <- app_assoc).
  replace (S (length pre)) with (length (pre ++ [y])) by (rewrite length_app; simpl; lia).
  rewrite IH. by rewrite <- app_assoc.
Qed.

(** [for k := m; k > i; k-- { Swap(k, k-1) }] carries the element at [m]
    to the left of the block that precedes it. *)
Lemma bubble_left w : forall pre y post,
  foldl (fun data k => Swap data k (k - 1)) (pre ++ w ++ y :: post)
        (rev (seq (length pre + 1) (length w)))
  = pre ++ y :: w ++ post.
Proof.
  induction w as [|x w IH] using rev_ind; intros pre y post; simpl; [done|].
  rewrite length_app; simpl. rewrite seq_app; simpl. rewrite rev_app_distr; simpl.
  replace (length pre + 1 + length w - 1) with (length (pre ++ w))
    by (rewrite length_app; lia).
  replace (length pre + 1 + length w) with (length (pre ++ w) + S (length (@nil A)))
    by (rewrite length_app; simpl; lia).
  replace (pre ++ (w ++ [x]) ++ y :: post) with ((pre ++ w) ++ x :: [] ++ y :: post)
    by (by rewrite <- !app_assoc).
  rewrite Swap_app_sym. simpl.
  replace ((pre ++ w) ++ y :: x :: post) with (pre ++ w ++ y :: (x :: post))
    by (by rewrite <- app_assoc).
  replace (length (pre ++ w) + 1) with (length pre + 1 + length w) in *
    by (rewrite length_app; lia).
  rewrite IH. by rewrite <- app_assoc.
Qed.

Lemma swapRange_loop X : forall Y pre mid post a b (f : list A -> nat -> list A),
  (forall data i, f data i = Swap data (a + i) (b + i)) ->
  length X = length Y -> a = length pre -> b = length pre + length X + length mid ->
  foldl f (pre ++ X ++ mid ++ Y ++ post) (seq 0 (length X)) = pre ++ Y ++ mid ++ X ++ post.
Proof.
  induction X as [|x X IH]; intros [|y Y] pre mid post a b f Hf Hlen Ha Hb;
    simpl in Hlen; try discriminate; [done|].
  cbn [length seq foldl]. rewrite Hf, !Nat.add_0_r.
  replace (pre ++ (x :: X) ++ mid ++ (y :: Y) ++ post)
    with (pre ++ x :: (X ++ mid) ++ y :: (Y ++ post))
    by (simpl; by rewrite <- !app_assoc).
  replace b with (length pre + S (length (X ++ mid)))
    by (rewrite length_app; simpl in Hb; lia).
  rewrite Ha, Swap_app.
  rewrite <- fmap_S_seq, foldl_fmap.
  replace (pre ++ y :: (X ++ mid) ++ x :: Y ++ post)
    with ((pre ++ [y]) ++ X ++ (mid ++ [x]) ++ Y ++ post)
    by (by rewrite <- !app_assoc).
  rewrite (IH Y (pre ++ [y]) (mid ++ [x]) post (S a) (S b)).
  - by rewrite <- !app_assoc.
  - intros data i. rewrite Hf. f_equal; lia.
  - by injection Hlen.
  - rewrite length_app; simpl; lia.
  - rewrite !length_app; simpl in *; lia.
Qed.

(** [swapRange_func] exchanges two blocks of the same length. *)
Lemma swapRange_app data X Y pre mid post a b n :
  data = pre ++ X ++ mid ++ Y ++ post ->
  a = length pre -> b = length pre + length X + length mid ->
  n = length X -> length X = length Y ->
  swapRange_func data a b n = pre ++ Y ++ mid ++ X ++ post.
Proof.
  intros -> Ha Hb -> Hlen. unfold swapRange_func.
  by apply (swapRange_loop X Y pre mid post a b).
Qed.

(** [rotate_func] exchanges two adjacent non-empty blocks, whatever
    their lengths; its loop runs at most [i + j] times. *)
Lemma rotate_loop_app fuel : forall data X Y pre post m i j,
  data = pre ++ X ++ Y ++ post ->
  m = length pre + length X -> i = length X -> j = length Y ->
  X <> [] -> Y <> [] -> i + j <= fuel ->
  rotate_loop fuel data m i j = Some (pre ++ Y ++ X ++ post).
Proof.
  induction fuel as [|fuel IH]; intros data X Y pre post m i j -> -> -> -> HX HY Hfuel.
  { destruct X; [done|]. simpl in Hfuel. lia. }
  assert (0 < length X) by (destruct X; [done|simpl; lia]).
  assert (0 < length Y) by (destruct Y; [done|simpl; lia]).
  cbn [rotate_loop].
  destruct (Nat.eqb_spec (length X) (length Y)) as [Heq|Hne].
  - f_equal.
    rewrite (swapRange_app _ X Y pre [] post); simpl; try done; lia.
  - destruct (Nat.ltb_spec (length Y) (length X)) as [Hlt|Hge].
    + (* the left block is longer: its first [j] elements go to the end *)
      set (X1 := take (length Y) X). set (X2 := drop (length Y) X).
      assert (HX' : X = X1 ++ X2) by (symmetry; apply take_drop).
      assert (HX1 : length X1 = length Y) by (unfold X1; rewrite length_take; lia).
      assert (HX2 : length X2 = length X - length Y) by (unfold X2; by rewrite length_drop).
      rewrite (swapRange_app _ X1 Y pre X2 post); try lia;
        [|by rewrite HX', <- !app_assoc].
      rewrite (IH _ X2 X1 (pre ++ Y) post); try lia.
      * f_equal. rewrite HX', <- !app_assoc. done.
      * by rewrite <- !app_assoc.
      * rewrite length_app. lia.
      * intros E. rewrite E in HX2. simpl in HX2. lia.
      * intros E. rewrite E in HX1. simpl in HX1. lia.
    + (* the right block is longer: its last [i] elements go to the front *)
      set (Y1 := take (length Y - length X) Y). set (Y2 := drop (length Y - length X) Y).
      assert (HY' : Y = Y1 ++ Y2) by (symmetry; apply take_drop).
      assert (HY1 : length Y1 = length Y - length X) by (unfold Y1; rewrite length_take; lia).
      assert (HY2 : length Y2 = length X) by (unfold Y2; rewrite length_drop; lia).
      rewrite (swapRange_app _ X Y2 pre Y1 post); try lia;
        [|by rewrite HY', <- !app_assoc].
      rewrite (IH _ Y2 Y1 pre (X ++ post)); try lia.
      * f_equal. rewrite HY', <- !app_assoc. done.
      * done.
      * intros E. rewrite E in HY2. simpl in HY2. lia.
      * intros E. rewrite E in HY1. simpl in HY1. lia.
Qed.

Lemma rotate_func_app data X Y pre post a m b :
  data = pre ++ X ++ Y ++ post ->
  a = length pre -> m = length pre + length X -> b = length pre + length X + length Y ->
  X <> [] -> Y <> [] ->
  rotate_func data a m b = Some (pre ++ Y ++ X ++ post).
Proof.
  intros -> -> -> -> HX HY. unfold rotate_func.
  apply (rotate_loop_app _ _ X Y pre post); try done; lia.
Qed.

End sort_ops.

(** ** Sorted lists and the binary search *)

Section search.
Local Open Scope nat_scope.

(** The search loop ends within [j - i] iterations, between its bounds. *)
Lemma search_total fuel : forall right i j,
  j - i <= fuel ->
  exists r, search fuel right i j = Some r /\ i <= r /\ r <= Nat.max i j.
Proof.
  induction fuel as [|fuel IH]; intros right i j Hfuel; cbn [search]; cbv zeta.
  - destruct (Nat.ltb_spec i j); [lia|]. exists i. split; [done|lia].
  - destruct (Nat.ltb_spec i j) as [Hlt|Hge]; [|exists i; split; [done|lia]].
    assert (Hh : i <= (i + j) / 2 < j).
    { split; [apply Nat.div_le_lower_bound; lia|apply Nat.Div0.div_lt_upper_bound; lia]. }
    destruct (right ((i + j) / 2)).
    + destruct (IH right ((i + j) / 2 + 1) j) as (r & -> & Hr1 & Hr2); [lia|].
      exists r. split; [done|lia].
    + destruct (IH right i ((i + j) / 2)) as (r & -> & Hr1 & Hr2); [lia|].
      exists r. split; [done|lia].
Qed.

(** On a predicate that holds on an initial part of [[i, j)] and nowhere
    else in it, the search returns the end of that part. *)
Lemma search_spec fuel : forall right i j,
  j - i <= fuel ->
  (forall h h', i <= h -> h <= h' -> h' < j -> right h' = true -> right h = true) ->
  exists r, search fuel right i j = Some r /\ i <= r /\ r <= Nat.max i j /\
            (forall h, i <= h -> h < r -> right h = true) /\
            (forall h, r <= h -> h < j -> right h = false).
Proof.
  induction fuel as [|fuel IH]; intros right i j Hfuel Hmono; cbn [search]; cbv zeta.
  - destruct (Nat.ltb_spec i j); [lia|]. exists i. repeat split; [lia..|].
    intros h ? ?; lia.
  - destruct (Nat.ltb_spec i j) as [Hlt|Hge].
    2:{ exists i. repeat split; [lia..|]. intros h ? ?; lia. }
    assert (Hh : i <= (i + j) / 2 < j).
    { split; [apply Nat.div_le_lower_bound; lia|apply Nat.Div0.div_lt_upper_bound; lia]. }
    set (h0 := (i + j) / 2) in *.
    destruct (right h0) eqn:Hr0.
    + destruct (IH right (h0 + 1) j) as (r & -> & Hr1 & Hr2 & Ht & Hf); [lia|..].
      { intros h h' ? ? ?. apply Hmono; lia. }
      exists r. split; [done|]. split; [lia|]. split; [lia|]. split; [|done].
      intros h ? ?. destruct (Nat.le_gt_cases h h0).
      * apply (Hmono h h0); [lia..|done].
      * apply Ht; lia.
    + destruct (IH right i h0) as (r & -> & Hr1 & Hr2 & Ht & Hf); [lia|..].
      { intros h h' ? ? ?. apply Hmono; lia. }
      exists r. split; [done|]. split; [lia|]. split; [lia|]. split; [done|].
      intros h ? ?. destruct (Nat.lt_ge_cases h h0).
      * apply Hf; lia.
      * destruct (right h) eqn:Hrh; [|done].
        rewrite (Hmono h0 h) in Hr0; [done|lia..|done].
Qed.

End search.

Section sorted.
Context {A : Type} (key : A -> Z).
Implicit Types (l u v : list A) (x y : A).

Lemma ksorted_nil : ksorted key [].
Proof. intros i j x y _ H. by rewrite lookup_nil in H. Qed.

Lemma ksorted_singleton x : ksorted key [x].
Proof.
  intros i j a b Hij Hi Hj. apply list_lookup_singleton_Some in Hi as [-> _].
  apply list_lookup_singleton_Some in Hj as [-> _]. lia.
Qed.

Lemma ksorted_app u v :
  ksorted key (u ++ v) <->
  ksorted key u /\ ksorted key v /\ forall x y, x ∈ u -> y ∈ v -> key x <= key y.
Proof.
  split.
  - intros H. split; [|split].
    + intros i j x y Hij Hi Hj. apply (H i j); [done|by apply lookup_app_l_Some..].
    + intros i j x y Hij Hi Hj. apply (H (length u + i)%nat (length u + j)%nat); [lia|..];
        by rewrite lookup_app_r, Nat.add_comm, Nat.add_sub by lia.
    + intros x y [i Hi]%list_elem_of_lookup [j Hj]%list_elem_of_lookup.
      apply (H i (length u + j)%nat).
      * apply lookup_lt_Some in Hi. lia.
      * by apply lookup_app_l_Some.
      * by rewrite lookup_app_r, Nat.add_comm, Nat.add_sub by lia.
  - intros (Hu & Hv & Huv) i j x y Hij Hi Hj.
    apply lookup_app_Some in Hi as [Hi|[Hiu Hi]]; apply lookup_app_Some in Hj as [Hj|[Hju Hj]].
    + by apply (Hu i j).
    + apply Huv; by eapply list_elem_of_lookup_2.
    + apply lookup_lt_Some in Hj. lia.
    + apply (Hv (i - length u)%nat (j - length u)%nat); [lia|done..].
Qed.

Lemma ksorted_cons x l :
  ksorted key (x :: l) <-> ksorted key l /\ forall y, y ∈ l -> key x <= key y.
Proof.
  change (x :: l) with ([x] ++ l). rewrite ksorted_app. split.
  - intros (_ & Hl & H). split; [done|]. intros y Hy. apply H; [|done]. by apply list_elem_of_singleton.
  - intros (Hl & H). split; [apply ksorted_singleton|]. split; [done|].
    intros a y ->%list_elem_of_singleton Hy. by apply H.
Qed.

Lemma ksorted_take n l : ksorted key l -> ksorted key (take n l).
Proof. intros H. rewrite <- (take_drop n l) in H. by apply ksorted_app in H as (? & _). Qed.

Lemma ksorted_drop n l : ksorted key l -> ksorted key (drop n l).
Proof. intros H. rewrite <- (take_drop n l) in H. by apply ksorted_app in H as (_ & ? & _). Qed.

Lemma with_key_app k u v : with_key key k (u ++ v) = with_key key k u ++ with_key key k v.
Proof. apply filter_app. Qed.

Lemma with_key_nil k l : (forall x, x ∈ l -> key x <> k) -> with_key key k l = [].
Proof.
  intros H. induction l as [|x l IH]; [done|].
  unfold with_key in *. rewrite filter_cons.
  destruct (decide (key x = k)) as [E|_].
  - exfalso. apply (H x); [by left|done].
  - apply IH. intros y Hy. apply H. by right.
Qed.

Lemma elem_of_with_key k x l : x ∈ with_key key k l <-> key x = k /\ x ∈ l.
Proof. unfold with_key. by rewrite list_elem_of_filter. Qed.

(** Two blocks of which the second holds no key of the first commute
    under every [with_key]. *)
Lemma with_key_comm k u v :
  (forall x y, x ∈ u -> y ∈ v -> key x <> key y) ->
  with_key key k (u ++ v) = with_key key k (v ++ u).
Proof.
  intros H. rewrite !with_key_app.
  destruct (with_key key k u) as [|x u'] eqn:Eu; [by rewrite app_nil_r|].
  assert (Hx : x ∈ with_key key k u) by (rewrite Eu; by left).
  apply elem_of_with_key in Hx as [Hkx Hxu].
  rewrite (with_key_nil k v); [by rewrite app_nil_r|].
  intros y Hy E. apply (H x y); [done..|congruence].
Qed.

Lemma stable_sorted_refl l : ksorted key l -> stable_sorted key l l.
Proof. intros H. split; [done|]. split; done. Qed.

Lemma stable_sorted_elem_of l out x : stable_sorted key l out -> x ∈ out <-> x ∈ l.
Proof. intros (_ & Hp & _). by rewrite Hp. Qed.

Lemma stable_sorted_length l out : stable_sorted key l out -> length out = length l.
Proof. intros (_ & Hp & _). by rewrite Hp. Qed.

End sorted.

(** ** [sort.SliceStable] returns, and rearranges, whatever the comparator *)

Section sort_total.
Context {A : Type} (less : A -> A -> bool).
Implicit Types (data : list A).

Local Open Scope nat_scope.

Lemma Swap_perm data i j : Swap data i j ≡ₚ data.
Proof.
  unfold Swap. destruct (data !! i) as [x|] eqn:Hi; [|done].
  destruct (data !! j) as [y|] eqn:Hj; [|done].
  destruct (decide (i = j)) as [->|Hne].
  - rewrite list_insert_insert_eq. rewrite Hi in Hj. injection Hj as ->.
    by rewrite list_insert_id.
  - assert (Hperm : forall (l : list A) (a b : nat) u v, a < b ->
              l !! a = Some u -> l !! b = Some v -> <[a:=v]> (<[b:=u]> l) ≡ₚ l).
    { clear. intros l a b u v Hab Ha Hb.
      apply list_elem_of_split_length in Ha as (l1 & l2 & -> & ->).
      rewrite lookup_app_r in Hb by lia.
      destruct (b - length l1) as [|n] eqn:Hn; [lia|]. simpl in Hb.
      apply list_elem_of_split_length in Hb as (l3 & l4 & -> & ->).
      replace b with (length l1 + S (length l3)) by lia.
      rewrite insert_app_at2, insert_app_at.
      rewrite !(Permutation_app_comm l1), <- !app_comm_cons, <- !Permutation_middle.
      rewrite !(Permutation_app_comm l3). simpl. apply perm_swap. }
    destruct (Nat.lt_total i j) as [Hlt|[?|Hgt]]; [|done|].
    + by apply (Hperm data i j x y).
    + rewrite list_insert_insert_ne by done. by apply (Hperm data j i y x).
Qed.

Lemma foldl_Swap_perm {X} (f : X -> nat) (g : X -> nat) (l : list X) : forall data,
  foldl (fun data k => Swap data (f k) (g k)) data l ≡ₚ data.
Proof.
  induction l as [|k l IH]; intros data; simpl; [done|]. by rewrite IH, Swap_perm.
Qed.

Lemma insertionSort_inner_perm j : forall data a, insertionSort_inner less data a j ≡ₚ data.
Proof.
  induction j as [|j IH]; intros data a; simpl; [done|].
  destruct ((a <? S j) && Less less data (S j) j); [|done]. by rewrite IH, Swap_perm.
Qed.

Lemma insertionSort_func_perm data a b : insertionSort_func less data a b ≡ₚ data.
Proof.
  unfold insertionSort_func. generalize (seq (a + 1) (b - (a + 1))). intros l.
  revert data. induction l as [|i l IH]; intros data; simpl; [done|].
  by rewrite IH, insertionSort_inner_perm.
Qed.

Lemma swapRange_func_perm data a b n : swapRange_func data a b n ≡ₚ data.
Proof. apply (foldl_Swap_perm (fun i => a + i) (fun i => b + i)). Qed.

(** The loop of [rotate_func] ends when both blocks are non-empty. *)
Lemma rotate_loop_total fuel : forall data m i j,
  0 < i -> 0 < j -> i + j <= fuel ->
  exists data', rotate_loop fuel data m i j = Some data' /\ data' ≡ₚ data.
Proof.
  induction fuel as [|fuel IH]; intros data m i j Hi Hj Hfuel; [lia|].
  cbn [rotate_loop]. destruct (Nat.eqb_spec i j) as [->|Hne].
  - eexists. split; [done|]. apply swapRange_func_perm.
  - destruct (Nat.ltb_spec j i) as [Hlt|Hge].
    + destruct (IH (swapRange_func data (m - i) m j) m (i - j) j) as (d & -> & Hd);
        [lia..|].
      exists d. split; [done|]. by rewrite Hd, swapRange_func_perm.
    + destruct (IH (swapRange_func data (m - i) (m + j - i) i) m i (j - i)) as (d & -> & Hd);
        [lia..|].
      exists d. split; [done|]. by rewrite Hd, swapRange_func_perm.
Qed.

(** [symMerge_func] returns within [b - a] levels of recursion. *)
Lemma symMerge_func_total fuel : forall data a m b,
  a < m -> m < b -> b - a <= fuel ->
  exists data', symMerge_func less fuel data a m b = Some data' /\ data' ≡ₚ data.
Proof.
  induction fuel as [|fuel IH]; intros data a m b Ham Hmb Hfuel; [lia|].
  cbn [symMerge_func].
  destruct (Nat.eqb_spec (m - a) 1) as [HU1|HU1].
  { destruct (search_total (b - m) (fun h => Less less data h a) m b) as (i & -> & _); [lia|].
    eexists. split; [done|]. apply (foldl_Swap_perm (fun k => k) (fun k => k + 1)). }
  destruct (Nat.eqb_spec (b - m) 1) as [HV1|HV1].
  { destruct (search_total (m - a) (fun h => negb (Less less data m h)) a m)
      as (i & -> & _); [lia|].
    eexists. split; [done|]. apply (foldl_Swap_perm (fun k => k) (fun k => k - 1)). }
  set (mid := (a + b) / 2).
  assert (Hmid : 2 * mid <= a + b /\ a + b < 2 * mid + 2).
  { unfold mid. pose proof (Nat.div_mod_eq (a + b) 2).
    pose proof (Nat.mod_upper_bound (a + b) 2). lia. }
  destruct Hmid as [Hmid1 Hmid2]. clearbody mid.
  assert (Hsearch : exists start,
    (let '(start0, r) := if mid <? m then (mid + m - b, mid) else (a, m) in
     search (r - start0) (fun c => negb (Less less data (mid + m - 1 - c) c)) start0 r)
    = Some start /\ start <= mid /\ start <= m).
  { destruct (Nat.ltb_spec mid m) as [Hlt|Hge].
    - destruct (search_total (mid - (mid + m - b))
                  (fun c => negb (Less less data (mid + m - 1 - c) c)) (mid + m - b) mid)
        as (start & Hs & H1 & H2); [lia|]. exists start. split; [done|]. lia.
    - destruct (search_total (m - a)
                  (fun c => negb (Less less data (mid + m - 1 - c) c)) a m)
        as (start & Hs & H1 & H2); [lia|]. exists start. split; [done|]. lia. }
  destruct Hsearch as (start & Hsearch & Hs1 & Hs2).
  destruct (mid <? m); rewrite Hsearch; clear Hsearch; cbn [mbind option_bind].
  all: set (end_ := mid + m - start).
  all: assert (Hrot : exists d1,
         (if (start <? m) && (m <? end_) then rotate_func data start m end_ else Some data)
         = Some d1 /\ d1 ≡ₚ data).
  1,3: destruct (Nat.ltb_spec start m); [destruct (Nat.ltb_spec m end_)|]; cbn [andb];
       try (by exists data);
       apply rotate_loop_total; lia.
  all: destruct Hrot as (d1 & -> & Hd1); cbn [mbind option_bind].
  all: assert (Hm1 : exists d2,
         (if (a <? start) && (start <? mid) then symMerge_func less fuel d1 a start mid
          else Some d1) = Some d2 /\ d2 ≡ₚ d1).
  1,3: destruct (Nat.ltb_spec a start); [destruct (Nat.ltb_spec start mid)|]; cbn [andb];
       try (by exists d1);
       apply IH; lia.
  all: destruct Hm1 as (d2 & -> & Hd2); cbn [mbind option_bind].
  all: destruct (Nat.ltb_spec mid end_); [destruct (Nat.ltb_spec end_ b)|]; cbn [andb];
       try (exists d2; split; [done|by rewrite Hd2, Hd1]).
  all: destruct (IH d2 mid end_ b) as (d3 & -> & Hd3); [lia..|];
       exists d3; split; [done|by rewrite Hd3, Hd2, Hd1].
Qed.

Lemma stable_blocks_total fuel : forall data bs a b n,
  0 < bs -> b = a + bs -> n - a <= fuel ->
  exists data', stable_blocks less fuel data bs a b n = Some data' /\ data' ≡ₚ data.
Proof.
  induction fuel as [|fuel IH]; intros data bs a b n Hbs Hb Hfuel; cbn [stable_blocks].
  - destruct (Nat.leb_spec b n); [lia|]. eexists. split; [done|].
    apply insertionSort_func_perm.
  - destruct (Nat.leb_spec b n).
    + destruct (IH (insertionSort_func less data a b) bs b (b + bs) n) as (d & -> & Hd);
        [lia..|].
      exists d. split; [done|]. by rewrite Hd, insertionSort_func_perm.
    + eexists. split; [done|]. apply insertionSort_func_perm.
Qed.

Lemma stable_pass_total fuel : forall data bs a b n,
  0 < bs -> b = a + 2 * bs -> n - a <= fuel ->
  exists data', stable_pass less fuel data bs a b n = Some data' /\ data' ≡ₚ data.
Proof.
  assert (Hlast : forall data bs a n, 0 < bs ->
            exists data', (if a + bs <? n then symMerge less data a (a + bs) n
                           else Some data) = Some data' /\ data' ≡ₚ data).
  { intros data bs a n Hbs. destruct (Nat.ltb_spec (a + bs) n); [|by exists data].
    apply symMerge_func_total; lia. }
  induction fuel as [|fuel IH]; intros data bs a b n Hbs Hb Hfuel; cbn [stable_pass].
  - destruct (Nat.leb_spec b n); [lia|]. by apply Hlast.
  - destruct (Nat.leb_spec b n); [|by apply Hlast].
    destruct (symMerge_func_total (b - a) data a (a + bs) b) as (d1 & Hd1 & Hp1); [lia..|].
    unfold symMerge. rewrite Hd1. cbn [mbind option_bind].
    destruct (IH d1 bs b (b + 2 * bs) n) as (d2 & -> & Hp2); [lia..|].
    exists d2. split; [done|]. by rewrite Hp2, Hp1.
Qed.

Lemma stable_merges_total fuel : forall data bs n,
  0 < bs -> n <= bs + fuel ->
  exists data', stable_merges less fuel data bs n = Some data' /\ data' ≡ₚ data.
Proof.
  induction fuel as [|fuel IH]; intros data bs n Hbs Hfuel; cbn [stable_merges].
  - destruct (Nat.ltb_spec bs n); [lia|]. by exists data.
  - destruct (Nat.ltb_spec bs n); [|by exists data].
    destruct (stable_pass_total n data bs 0 (2 * bs) n) as (d1 & -> & Hp1); [lia..|].
    cbn [mbind option_bind].
    destruct (IH d1 (bs * 2) n) as (d2 & -> & Hp2); [lia..|].
    exists d2. split; [done|]. by rewrite Hp2, Hp1.
Qed.

(** [sort.SliceStable] returns a rearrangement of the slice, whatever the
    comparator. *)
Lemma SliceStable_total (x : list A) :
  exists out, SliceStable less x = Some out /\ out ≡ₚ x.
Proof.
  unfold SliceStable, stable_func.
  destruct (stable_blocks_total (length x) x 20 0 20 (length x)) as (d1 & -> & Hp1); [lia..|].
  cbn [mbind option_bind].
  destruct (stable_merges_total (length x) d1 20 (length x)) as (d2 & -> & Hp2); [lia..|].
  exists d2. split; [done|]. by rewrite Hp2, Hp1.
Qed.

End sort_total.

(** ** [sort.SliceStable] under a comparator that is the strict order of a key *)

Section stable_correct.
Context {A : Type} (less : A -> A -> bool) (key : A -> Z) (P : A -> Prop).
Hypothesis Hless : forall x y, P x -> P y -> less x y = (key x <? key y).
Implicit Types (data pre post L U V R : list A) (x y : A).

Local Open Scope nat_scope.

Lemma Less_adjacent pre y x post :
  Less less (pre ++ y :: x :: post) (S (length pre)) (length pre) = less x y.
Proof.
  pose proof (Less_app_sym less pre y [] x post) as H. simpl in H.
  by rewrite Nat.add_1_r in H.
Qed.

Lemma Swap_adjacent pre y x post :
  Swap (pre ++ y :: x :: post) (S (length pre)) (length pre) = pre ++ x :: y :: post.
Proof.
  pose proof (Swap_app_sym pre y [] x post) as H. simpl in H.
  by rewrite Nat.add_1_r in H.
Qed.

(** The inner loop of the insertion sort puts [x] after the elements of
    the sorted block before it that are not greater. *)
Lemma insertionSort_inner_app L : forall pre x post,
  Forall P L -> P x -> ksorted key L ->
  exists L1 L2,
    L = L1 ++ L2 /\
    insertionSort_inner less (pre ++ L ++ x :: post) (length pre) (length pre + length L)
    = pre ++ L1 ++ x :: L2 ++ post /\
    (forall y, y ∈ L1 -> (key y <= key x)%Z) /\
    (forall y, y ∈ L2 -> (key x < key y)%Z).
Proof.
  induction L as [|y L IH] using rev_ind; intros pre x post HP Hx Hs.
  - exists [], []. split; [done|]. split.
    + simpl. rewrite Nat.add_0_r. destruct (length pre) as [|n]; [done|].
      cbn [insertionSort_inner]. by rewrite Nat.ltb_irrefl.
    + split; intros z Hz; inversion Hz.
  - apply Forall_app in HP as [HPL HPy]. rewrite Forall_singleton in HPy.
    apply ksorted_app in Hs as (HsL & _ & HLy).
    replace (length pre + length (L ++ [y])) with (S (length (pre ++ L)))
      by (rewrite !length_app; simpl; lia).
    replace (pre ++ (L ++ [y]) ++ x :: post) with ((pre ++ L) ++ y :: x :: post)
      by (by rewrite <- !app_assoc).
    cbn [insertionSort_inner].
    replace (length pre <? S (length (pre ++ L))) with true
      by (symmetry; apply Nat.ltb_lt; rewrite length_app; lia).
    rewrite Less_adjacent, (Hless x y Hx HPy). simpl.
    destruct (Z.ltb_spec (key x) (key y)) as [Hlt|Hge].
    + rewrite Swap_adjacent.
      replace ((pre ++ L) ++ x :: y :: post) with (pre ++ L ++ x :: (y :: post))
        by (by rewrite <- !app_assoc).
      rewrite length_app.
      destruct (IH pre x (y :: post) HPL Hx HsL) as (L1 & L2 & -> & -> & H1 & H2).
      exists L1, (L2 ++ [y]). split; [by rewrite <- app_assoc|].
      split; [by rewrite <- !app_assoc|]. split; [done|].
      intros z [Hz| ->%list_elem_of_singleton]%elem_of_app; [by apply H2|done].
    + exists (L ++ [y]), []. split; [by rewrite app_nil_r|].
      split; [by rewrite <- !app_assoc|]. split; [|intros z Hz; inversion Hz].
      intros z [Hz| ->%list_elem_of_singleton]%elem_of_app; [|lia].
      specialize (HLy z y Hz). rewrite list_elem_of_singleton in HLy.
      specialize (HLy eq_refl). lia.
Qed.

(** Inserting [x] that way keeps the block sorted and stable. *)
Lemma stable_sorted_insert l L1 L2 x :
  stable_sorted key l (L1 ++ L2) ->
  (forall y, y ∈ L1 -> (key y <= key x)%Z) ->
  (forall y, y ∈ L2 -> (key x < key y)%Z) ->
  stable_sorted key (l ++ [x]) (L1 ++ x :: L2).
Proof.
  intros (Hs & Hp & Hk) H1 H2. apply ksorted_app in Hs as (Hs1 & Hs2 & H12).
  split; [|split].
  - apply ksorted_app. split; [done|]. split.
    + apply ksorted_cons. split; [done|]. intros y Hy. specialize (H2 y Hy). lia.
    + intros a b Ha [->|Hb]%elem_of_cons; [by apply H1|by apply H12].
  - rewrite <- Hp. rewrite <- app_assoc. apply Permutation_app_head.
    apply Permutation_cons_append.
  - intros k. rewrite !with_key_app, <- Hk, with_key_app, <- app_assoc. f_equal.
    change (x :: L2) with ([x] ++ L2). rewrite with_key_app.
    destruct (decide (key x = k)) as [E|E].
    + rewrite (with_key_nil key k L2); [by rewrite app_nil_r|].
      intros y Hy. specialize (H2 y Hy). lia.
    + rewrite (with_key_nil key k [x]); [by rewrite app_nil_r|].
      by intros y ->%list_elem_of_singleton.
Qed.

Lemma insertionSort_loop_app T : forall R pre post l,
  stable_sorted key l R -> Forall P R -> Forall P T ->
  exists R',
    foldl (fun data i => insertionSort_inner less data (length pre) i)
          (pre ++ R ++ T ++ post) (seq (length pre + length R) (length T))
    = pre ++ R' ++ post /\
    stable_sorted key (l ++ T) R'.
Proof.
  induction T as [|x T IH]; intros R pre post l HR HPR HPT.
  - exists R. simpl. by rewrite app_nil_r.
  - apply Forall_cons in HPT as [HPx HPT].
    cbn [length seq foldl].
    replace (pre ++ R ++ (x :: T) ++ post) with (pre ++ R ++ x :: (T ++ post)) by done.
    destruct (insertionSort_inner_app R pre x (T ++ post) HPR HPx (proj1 HR))
      as (L1 & L2 & -> & -> & H1 & H2).
    pose proof (stable_sorted_insert l L1 L2 x HR H1 H2) as HR1.
    destruct (IH (L1 ++ x :: L2) pre post (l ++ [x]) HR1) as (R' & HR' & Hst).
    { apply Forall_app in HPR as [? ?]. apply Forall_app. split; [done|]. by apply Forall_cons. }
    { done. }
    exists R'. split.
    + rewrite <- HR'. f_equal.
      * by rewrite <- !app_assoc.
      * rewrite !length_app. simpl. f_equal. lia.
    + by rewrite <- app_assoc in Hst.
Qed.

(** [insertionSort_func] sorts the block [[a, b)] stably and leaves the
    rest of the slice alone. *)
Lemma insertionSort_func_app S pre post :
  Forall P S ->
  exists R,
    insertionSort_func less (pre ++ S ++ post) (length pre) (length pre + length S)
    = pre ++ R ++ post /\
    stable_sorted key S R.
Proof.
  intros HP. unfold insertionSort_func. destruct S as [|s T].
  - exists []. simpl. replace (length pre + 0 - (length pre + 1)) with 0 by lia.
    split; [done|]. apply stable_sorted_refl, ksorted_nil.
  - apply Forall_cons in HP as [HPs HPT].
    replace (length pre + length (s :: T) - (length pre + 1)) with (length T)
      by (simpl; lia).
    destruct (insertionSort_loop_app T [s] pre post [s]) as (R' & HR' & Hst).
    { apply stable_sorted_refl, ksorted_singleton. }
    { by apply Forall_singleton. }
    { done. }
    exists R'. split; [|done]. rewrite <- HR'. done.
Qed.

(** *** The three cases of [symMerge_func] *)

Lemma ksorted_le L (i j : nat) x y :
  ksorted key L -> i <= j -> L !! i = Some x -> L !! j = Some y -> (key x <= key y)%Z.
Proof.
  intros Hs Hij Hi Hj. destruct (decide (i = j)) as [->|Hne].
  - rewrite Hi in Hj. injection Hj as ->. lia.
  - apply (Hs i j); [lia|done..].
Qed.

(** Reading the two blocks of [pre ++ U ++ V ++ post] by index. *)
Lemma lookup_block_U pre U V post (c : nat) :
  length pre <= c -> c < length pre + length U ->
  (pre ++ U ++ V ++ post) !! c = U !! (c - length pre).
Proof.
  intros H1 H2. rewrite lookup_app_r by done. by rewrite lookup_app_l by lia.
Qed.

Lemma lookup_block_V pre U V post (q : nat) :
  length pre + length U <= q -> q < length pre + length U + length V ->
  (pre ++ U ++ V ++ post) !! q = V !! (q - (length pre + length U)).
Proof.
  intros H1 H2. rewrite lookup_app_r by lia. rewrite lookup_app_r by lia.
  rewrite lookup_app_l by lia. f_equal. lia.
Qed.

(** A comparison between an element of the right block and one of the
    left block. *)
Lemma Less_V_U pre U V post (q c : nat) :
  Forall P U -> Forall P V ->
  length pre <= c -> c < length pre + length U ->
  length pre + length U <= q -> q < length pre + length U + length V ->
  exists u v, U !! (c - length pre) = Some u /\
              V !! (q - (length pre + length U)) = Some v /\
              Less less (pre ++ U ++ V ++ post) q c = (key v <? key u)%Z.
Proof.
  intros HPU HPV H1 H2 H3 H4.
  destruct (lookup_lt_is_Some_2 U (c - length pre)) as [u Hu]; [lia|].
  destruct (lookup_lt_is_Some_2 V (q - (length pre + length U))) as [v Hv]; [lia|].
  exists u, v. split; [done|]. split; [done|].
  unfold Less. rewrite (lookup_block_V pre U V post q H3 H4), (lookup_block_U pre U V post c H1 H2), Hu, Hv.
  apply Hless.
  - eapply Forall_forall; [exact HPV|]. by eapply list_elem_of_lookup_2.
  - eapply Forall_forall; [exact HPU|]. by eapply list_elem_of_lookup_2.
Qed.

Lemma Less_U_V pre U V post (q c : nat) :
  Forall P U -> Forall P V ->
  length pre <= c -> c < length pre + length U ->
  length pre + length U <= q -> q < length pre + length U + length V ->
  exists u v, U !! (c - length pre) = Some u /\
              V !! (q - (length pre + length U)) = Some v /\
              Less less (pre ++ U ++ V ++ post) c q = (key u <? key v)%Z.
Proof.
  intros HPU HPV H1 H2 H3 H4.
  destruct (lookup_lt_is_Some_2 U (c - length pre)) as [u Hu]; [lia|].
  destruct (lookup_lt_is_Some_2 V (q - (length pre + length U))) as [v Hv]; [lia|].
  exists u, v. split; [done|]. split; [done|].
  unfold Less. rewrite (lookup_block_V pre U V post q H3 H4), (lookup_block_U pre U V post c H1 H2), Hu, Hv.
  apply Hless.
  - eapply Forall_forall; [exact HPU|]. by eapply list_elem_of_lookup_2.
  - eapply Forall_forall; [exact HPV|]. by eapply list_elem_of_lookup_2.
Qed.

Lemma elem_of_drop_lookup L (n : nat) x :
  x ∈ drop n L -> exists i, L !! (n + i) = Some x.
Proof.
  intros [i Hi]%list_elem_of_lookup. rewrite lookup_drop in Hi. by exists i.
Qed.

(** Merging a single element [x] on the left with a sorted block: [x]
    goes before the first element that is not smaller. *)
Lemma stable_sorted_merge_left x V1 V2 :
  ksorted key (V1 ++ V2) ->
  (forall v, v ∈ V1 -> (key v < key x)%Z) ->
  (forall v, v ∈ V2 -> (key x <= key v)%Z) ->
  stable_sorted key ([x] ++ V1 ++ V2) (V1 ++ x :: V2).
Proof.
  intros Hs H1 H2. apply ksorted_app in Hs as (Hs1 & Hs2 & H12).
  split; [|split].
  - apply ksorted_app. split; [done|]. split.
    + apply ksorted_cons. split; done.
    + intros a b' Ha [->|Hb]%elem_of_cons; [|by apply H12].
      specialize (H1 a Ha). lia.
  - simpl. symmetry. apply Permutation_middle.
  - intros k. change (x :: V2) with ([x] ++ V2). rewrite !with_key_app.
    destruct (decide (key x = k)) as [E|E].
    + rewrite (with_key_nil key k V1); [done|].
      intros y Hy. specialize (H1 y Hy). lia.
    + rewrite (with_key_nil key k [x]); [done|].
      by intros y ->%list_elem_of_singleton.
Qed.

(** First case: the left block is the single element [x]. *)
Lemma symMerge_single_left pre x V post :
  P x -> Forall P V -> ksorted key V ->
  exists R,
    (i ← search (length V)
           (fun h => Less less (pre ++ [x] ++ V ++ post) h (length pre))
           (length pre + 1) (length pre + 1 + length V);
     Some (foldl (fun data k => Swap data k (k + 1)) (pre ++ [x] ++ V ++ post)
                 (seq (length pre) (i - 1 - length pre))))
    = Some (pre ++ R ++ post) /\
    stable_sorted key ([x] ++ V) R.
Proof.
  intros HPx HPV HsV.
  assert (HPU : Forall P [x]) by (by apply Forall_singleton).
  assert (Hprobe : forall h, length pre + 1 <= h -> h < length pre + 1 + length V ->
            exists v, V !! (h - (length pre + 1)) = Some v /\
                      Less less (pre ++ [x] ++ V ++ post) h (length pre) = (key v <? key x)%Z).
  { intros h H1 H2.
    destruct (Less_V_U pre [x] V post h (length pre) HPU HPV) as (u & v & Hu & Hv & HL);
      simpl; try lia.
    rewrite Nat.sub_diag in Hu. injection Hu as <-. simpl in Hv. by exists v. }
  destruct (search_spec (length V)
              (fun h => Less less (pre ++ [x] ++ V ++ post) h (length pre))
              (length pre + 1) (length pre + 1 + length V))
    as (i & -> & Hi1 & Hi2 & Ht & Hf); [lia|..].
  { intros h h' H1 H2 H3.
    destruct (Hprobe h) as (v & Hv & ->); [lia..|].
    destruct (Hprobe h') as (v' & Hv' & ->); [lia..|].
    intros Hlt%Z.ltb_lt. apply Z.ltb_lt.
    pose proof (ksorted_le V (h - (length pre + 1)) (h' - (length pre + 1)) v v' HsV ltac:(lia) Hv Hv'). lia. }
  simpl.
  set (V1 := take (i - (length pre + 1)) V). set (V2 := drop (i - (length pre + 1)) V).
  assert (HV : V = V1 ++ V2) by (symmetry; apply take_drop).
  assert (HV1 : length V1 = i - 1 - length pre) by (unfold V1; rewrite length_take; lia).
  exists (V1 ++ x :: V2). split.
  - f_equal. rewrite <- HV1.
    replace (pre ++ x :: V ++ post) with (pre ++ x :: V1 ++ (V2 ++ post))
      by (by rewrite HV, <- !app_assoc).
    rewrite bubble_right. by rewrite <- !app_assoc.
  - rewrite HV at 1. apply stable_sorted_merge_left.
    + by rewrite <- HV.
    + intros v [j [Hj Hlt]]%elem_of_take.
      destruct (Hprobe (length pre + 1 + j)) as (v' & Hv' & HL); [lia..|].
      replace (length pre + 1 + j - (length pre + 1)) with j in Hv' by lia.
      rewrite Hj in Hv'. injection Hv' as <-.
      rewrite Ht in HL by lia. symmetry in HL. by apply Z.ltb_lt in HL.
    + intros v [j Hj]%elem_of_drop_lookup.
      pose proof (lookup_lt_Some _ _ _ Hj) as Hlen.
      destruct (Hprobe (i + j)) as (v' & Hv' & HL); [lia..|].
      replace (i + j - (length pre + 1)) with (i - (length pre + 1) + j) in Hv' by lia.
      rewrite Hj in Hv'. injection Hv' as <-.
      rewrite Hf in HL by lia. symmetry in HL. by apply Z.ltb_ge in HL.
Qed.

(** Second case: the right block is the single element [y]. *)
Lemma symMerge_single_right pre U y post :
  Forall P U -> P y -> ksorted key U ->
  exists R,
    (i ← search (length U)
           (fun h => negb (Less less (pre ++ U ++ [y] ++ post) (length pre + length U) h))
           (length pre) (length pre + length U);
     Some (foldl (fun data k => Swap data k (k - 1)) (pre ++ U ++ [y] ++ post)
                 (rev (seq (i + 1) (length pre + length U - i)))))
    = Some (pre ++ R ++ post) /\
    stable_sorted key (U ++ [y]) R.
Proof.
  intros HPU HPy HsU.
  assert (HPV : Forall P [y]) by (by apply Forall_singleton).
  assert (Hprobe : forall h, length pre <= h -> h < length pre + length U ->
            exists u, U !! (h - length pre) = Some u /\
                      Less less (pre ++ U ++ [y] ++ post) (length pre + length U) h
                      = (key y <? key u)%Z).
  { intros h H1 H2.
    destruct (Less_V_U pre U [y] post (length pre + length U) h HPU HPV)
      as (u & v & Hu & Hv & HL); simpl; try lia.
    rewrite Nat.sub_diag in Hv. injection Hv as <-. by exists u. }
  destruct (search_spec (length U)
              (fun h => negb (Less less (pre ++ U ++ [y] ++ post) (length pre + length U) h))
              (length pre) (length pre + length U))
    as (i & -> & Hi1 & Hi2 & Ht & Hf); [lia|..].
  { intros h h' H1 H2 H3.
    destruct (Hprobe h) as (u & Hu & ->); [lia..|].
    destruct (Hprobe h') as (u' & Hu' & ->); [lia..|].
    intros Hge%negb_true_iff%Z.ltb_ge. apply negb_true_iff, Z.ltb_ge.
    pose proof (ksorted_le U (h - length pre) (h' - length pre) u u' HsU ltac:(lia) Hu Hu'). lia. }
  simpl.
  set (U1 := take (i - length pre) U). set (U2 := drop (i - length pre) U).
  assert (HU : U = U1 ++ U2) by (symmetry; apply take_drop).
  assert (HU1 : length U1 = i - length pre) by (unfold U1; rewrite length_take; lia).
  assert (HU2 : length U2 = length pre + length U - i) by (unfold U2; rewrite length_drop; lia).
  exists (U1 ++ y :: U2). split.
  - f_equal. rewrite <- HU2.
    replace (pre ++ U ++ y :: post) with ((pre ++ U1) ++ U2 ++ y :: post)
      by (by rewrite HU, <- !app_assoc).
    replace (i + 1) with (length (pre ++ U1) + 1) by (rewrite length_app; lia).
    rewrite bubble_left. by rewrite <- !app_assoc.
  - rewrite HU at 1. apply stable_sorted_insert.
    + apply stable_sorted_refl. by rewrite <- HU.
    + intros u [j [Hj Hlt]]%elem_of_take.
      destruct (Hprobe (length pre + j)) as (u' & Hu' & HL); [lia..|].
      replace (length pre + j - length pre) with j in Hu' by lia.
      rewrite Hj in Hu'. injection Hu' as <-.
      specialize (Ht (length pre + j) ltac:(lia) ltac:(lia)). cbv beta in Ht.
      rewrite HL in Ht. by apply negb_true_iff, Z.ltb_ge in Ht.
    + intros u [j Hj]%elem_of_drop_lookup.
      pose proof (lookup_lt_Some _ _ _ Hj) as Hlen.
      destruct (Hprobe (i + j)) as (u' & Hu' & HL); [lia..|].
      replace (i + j - length pre) with (i - length pre + j) in Hu' by lia.
      rewrite Hj in Hu'. injection Hu' as <-.
      specialize (Hf (i + j) ltac:(lia) ltac:(lia)). cbv beta in Hf.
      rewrite HL in Hf. by apply negb_false_iff, Z.ltb_lt in Hf.
Qed.

(** Third case.  Splitting both blocks so that the first parts are to be
    merged before the second parts. *)
Lemma stable_sorted_merge_split U1 U2 V1 V2 R1 R2 :
  ksorted key (U1 ++ U2) -> ksorted key (V1 ++ V2) ->
  stable_sorted key (U1 ++ V1) R1 -> stable_sorted key (U2 ++ V2) R2 ->
  (forall u v, u ∈ U1 -> v ∈ V2 -> (key u <= key v)%Z) ->
  (forall u v, v ∈ V1 -> u ∈ U2 -> (key v < key u)%Z) ->
  stable_sorted key ((U1 ++ U2) ++ (V1 ++ V2)) (R1 ++ R2).
Proof.
  intros HsU HsV (Hs1 & Hp1 & Hk1) (Hs2 & Hp2 & Hk2) H12 H21.
  apply ksorted_app in HsU as (_ & _ & HU). apply ksorted_app in HsV as (_ & _ & HV).
  split; [|split].
  - apply ksorted_app. split; [done|]. split; [done|].
    intros x y Hx Hy. rewrite Hp1 in Hx. rewrite Hp2 in Hy.
    apply elem_of_app in Hx as [Hx|Hx]; apply elem_of_app in Hy as [Hy|Hy].
    + by apply HU.
    + by apply H12.
    + specialize (H21 y x Hx Hy). lia.
    + by apply HV.
  - rewrite Hp1, Hp2. rewrite <- !app_assoc. apply Permutation_app_head.
    rewrite !app_assoc. apply Permutation_app_tail. apply Permutation_app_comm.
  - intros k. rewrite with_key_app, Hk1, Hk2. rewrite <- !with_key_app.
    rewrite <- !app_assoc. rewrite (with_key_app key k U1), (with_key_app key k U1). f_equal.
    rewrite !app_assoc. rewrite (with_key_app key k (V1 ++ U2)), (with_key_app key k (U2 ++ V1)).
    f_equal. apply with_key_comm.
    intros v u Hv Hu. specialize (H21 u v Hv Hu). lia.
Qed.

(** The search of the third case finds where to cut the two blocks. *)
Lemma symMerge_search pre U V post (a m b mid start0 r : nat) :
  a = length pre -> m = a + length U -> b = m + length V ->
  2 * mid <= a + b -> a + b < 2 * mid + 2 ->
  Forall P U -> Forall P V -> ksorted key U -> ksorted key V ->
  (mid < m /\ start0 = mid + m - b /\ r = mid) \/ (m <= mid /\ start0 = a /\ r = m) ->
  exists start,
    search (r - start0)
      (fun c => negb (Less less (pre ++ U ++ V ++ post) (mid + m - 1 - c) c)) start0 r
    = Some start /\
    a <= start /\ start <= m /\ start <= mid /\ m <= mid + m - start /\ mid + m - start <= b /\
    (forall u v, u ∈ take (start - a) U -> v ∈ drop (mid + m - start - m) V ->
                 (key u <= key v)%Z) /\
    (forall u v, v ∈ take (mid + m - start - m) V -> u ∈ drop (start - a) U ->
                 (key v < key u)%Z).
Proof.
  intros Ha Hm Hb Hmid1 Hmid2 HPU HPV HsU HsV Hcase.
  assert (Hprobe : forall c, start0 <= c -> c < r ->
            exists u v, U !! (c - a) = Some u /\ V !! (mid + m - 1 - c - m) = Some v /\
                        negb (Less less (pre ++ U ++ V ++ post) (mid + m - 1 - c) c)
                        = (key u <=? key v)%Z).
  { intros c H1 H2.
    destruct (Less_V_U pre U V post (mid + m - 1 - c) c HPU HPV)
      as (u & v & Hu & Hv & HL); try lia.
    exists u, v. rewrite <- Ha, <- Hm in *. split; [done|]. split; [done|].
    rewrite HL. symmetry. apply Z.leb_antisym. }
  destruct (search_spec (r - start0)
              (fun c => negb (Less less (pre ++ U ++ V ++ post) (mid + m - 1 - c) c))
              start0 r)
    as (start & -> & Hs1 & Hs2 & Ht & Hf); [lia|..].
  { intros c c' H1 H2 H3.
    destruct (Hprobe c) as (u & v & Hu & Hv & ->); [lia..|].
    destruct (Hprobe c') as (u' & v' & Hu' & Hv' & ->); [lia..|].
    intros Hle%Z.leb_le. apply Z.leb_le.
    pose proof (ksorted_le U (c - a) (c' - a) u u' HsU ltac:(lia) Hu Hu').
    pose proof (ksorted_le V (mid + m - 1 - c' - m) (mid + m - 1 - c - m) v' v HsV
                  ltac:(lia) Hv' Hv).
    lia. }
  exists start. split; [done|].
  split; [lia|]. split; [lia|]. split; [lia|]. split; [lia|]. split; [lia|].
  split.
  - intros u v [iu [Hiu Hlt]]%elem_of_take [jv Hjv]%elem_of_drop_lookup.
    pose proof (lookup_lt_Some _ _ _ Hjv) as Hlen.
    destruct (Hprobe (start - 1)) as (u' & v' & Hu' & Hv' & HL); [lia..|].
    rewrite Ht in HL by lia. symmetry in HL. apply Z.leb_le in HL.
    pose proof (ksorted_le U iu (start - 1 - a) u u' HsU ltac:(lia) Hiu Hu').
    pose proof (ksorted_le V (mid + m - 1 - (start - 1) - m) (mid + m - start - m + jv) v' v
                  HsV ltac:(lia) Hv' Hjv).
    lia.
  - intros u v [jv [Hjv Hlt]]%elem_of_take [iu Hiu]%elem_of_drop_lookup.
    pose proof (lookup_lt_Some _ _ _ Hiu) as Hlen.
    destruct (Hprobe start) as (u' & v' & Hu' & Hv' & HL); [lia..|].
    rewrite Hf in HL by lia. symmetry in HL. apply Z.leb_gt in HL.
    pose proof (ksorted_le U (start - a) (start - a + iu) u' u HsU ltac:(lia) Hu' Hiu).
    pose proof (ksorted_le V jv (mid + m - 1 - start - m) v v' HsV ltac:(lia) Hjv Hv').
    lia.
Qed.

(** [symMerge_func] merges two adjacent sorted blocks stably, within
    [b - a] levels of recursion, and leaves the rest of the slice alone. *)
Lemma symMerge_func_app fuel : forall data pre U V post (a m b : nat),
  data = pre ++ U ++ V ++ post ->
  a = length pre -> m = a + length U -> b = m + length V ->
  U <> [] -> V <> [] -> b - a <= fuel ->
  Forall P U -> Forall P V -> ksorted key U -> ksorted key V ->
  exists R,
    symMerge_func less fuel data a m b = Some (pre ++ R ++ post) /\
    stable_sorted key (U ++ V) R.
Proof.
  induction fuel as [|fuel IH];
    intros data pre U V post a m b Hdata Ha Hm Hb HU HV Hfuel HPU HPV HsU HsV.
  { destruct U; [done|]. destruct V; [done|]. simpl in *. lia. }
  assert (0 < length U) by (destruct U; [done|simpl; lia]).
  assert (0 < length V) by (destruct V; [done|simpl; lia]).
  cbn [symMerge_func].
  destruct (Nat.eqb_spec (m - a) 1) as [HU1|HU1].
  { (* a single element on the left *)
    destruct U as [|x [|? ?]]; simpl in HU1, Hm; try lia.
    rewrite Forall_singleton in HPU.
    destruct (symMerge_single_left pre x V post HPU HPV HsV) as (R & HR & Hst).
    exists R. split; [|done]. rewrite <- HR. subst data a m b.
    replace (length pre + 1 + length V - (length pre + 1)) with (length V) by lia.
    done. }
  destruct (Nat.eqb_spec (b - m) 1) as [HV1|HV1].
  { (* a single element on the right *)
    destruct V as [|y [|? ?]]; simpl in HV1, Hb; try lia.
    rewrite Forall_singleton in HPV.
    destruct (symMerge_single_right pre U y post HPU HPV HsU) as (R & HR & Hst).
    exists R. split; [|done]. rewrite <- HR. subst data a m b.
    replace (length pre + length U - length pre) with (length U) by lia.
    done. }
  (* the general case *)
  set (mid := (a + b) / 2).
  assert (Hmid : 2 * mid <= a + b /\ a + b < 2 * mid + 2).
  { unfold mid. pose proof (Nat.div_mod_eq (a + b) 2).
    pose proof (Nat.mod_upper_bound (a + b) 2). lia. }
  destruct Hmid as [Hmid1 Hmid2]. clearbody mid.
  assert (Hsearch : exists start,
    (let '(start0, r) := if mid <? m then (mid + m - b, mid) else (a, m) in
     search (r - start0) (fun c => negb (Less less data (mid + m - 1 - c) c)) start0 r)
    = Some start /\
    a <= start /\ start <= m /\ start <= mid /\ m <= mid + m - start /\ mid + m - start <= b /\
    (forall u v, u ∈ take (start - a) U -> v ∈ drop (mid + m - start - m) V ->
                 (key u <= key v)%Z) /\
    (forall u v, v ∈ take (mid + m - start - m) V -> u ∈ drop (start - a) U ->
                 (key v < key u)%Z)).
  { rewrite Hdata. destruct (Nat.ltb_spec mid m) as [Hlt|Hge].
    - apply (symMerge_search pre U V post a m b mid (mid + m - b) mid); try done.
      left; done.
    - apply (symMerge_search pre U V post a m b mid a m); try done.
      right; done. }
  destruct Hsearch as (start & Hsearch & Hs1 & Hs2 & Hs3 & Hs4 & Hs5 & HA & HB).
  destruct (mid <? m); rewrite Hsearch; clear Hsearch; cbn [mbind option_bind];
    set (end_ := mid + m - start) in *.
  all: set (U1 := take (start - a) U) in *; set (U2 := drop (start - a) U) in *.
  all: set (V1 := take (end_ - m) V) in *; set (V2 := drop (end_ - m) V) in *.
  all: assert (HUs : U = U1 ++ U2) by (symmetry; apply take_drop).
  all: assert (HVs : V = V1 ++ V2) by (symmetry; apply take_drop).
  all: assert (HlU1 : length U1 = start - a) by (unfold U1; rewrite length_take; lia).
  all: assert (HlU2 : length U2 = m - start) by (unfold U2; rewrite length_drop; lia).
  all: assert (HlV1 : length V1 = end_ - m) by (unfold V1; rewrite length_take; lia).
  all: assert (HlV2 : length V2 = b - end_) by (unfold V2; rewrite length_drop; lia).
  all: assert (HsU' := HsU); assert (HsV' := HsV).
  all: rewrite HUs in HsU', HPU; rewrite HVs in HsV', HPV.
  all: apply ksorted_app in HsU' as (HsU1 & HsU2 & _).
  all: apply ksorted_app in HsV' as (HsV1 & HsV2 & _).
  all: apply Forall_app in HPU as [HPU1 HPU2]; apply Forall_app in HPV as [HPV1 HPV2].
  all: assert (Hrot : (if (start <? m) && (m <? end_) then rotate_func data start m end_
                       else Some data) = Some (pre ++ U1 ++ V1 ++ U2 ++ V2 ++ post)).
  1,3: destruct (Nat.ltb_spec start m) as [Hlt1|Hge1];
       [destruct (Nat.ltb_spec m end_) as [Hlt2|Hge2]|]; cbn [andb].
  1,4: rewrite (rotate_func_app data U2 V1 (pre ++ U1) (V2 ++ post));
       [by rewrite <- !app_assoc
       |by rewrite Hdata, HUs, HVs, <- !app_assoc
       |rewrite ?length_app; lia..
       |intros E; rewrite E in HlU2; simpl in HlU2; lia
       |intros E; rewrite E in HlV1; simpl in HlV1; lia].
  1,3: (assert (V1 = []) as HE by (apply length_zero_iff_nil; lia);
        by rewrite Hdata, HUs, HVs, HE, <- !app_assoc).
  1,2: (assert (U2 = []) as HE by (apply length_zero_iff_nil; lia);
        by rewrite Hdata, HUs, HVs, HE, <- !app_assoc).
  all: rewrite Hrot; clear Hrot; cbn [mbind option_bind].
  all: assert (Hm1 : exists R1,
         (if (a <? start) && (start <? mid)
          then symMerge_func less fuel (pre ++ U1 ++ V1 ++ U2 ++ V2 ++ post) a start mid
          else Some (pre ++ U1 ++ V1 ++ U2 ++ V2 ++ post))
         = Some (pre ++ R1 ++ U2 ++ V2 ++ post) /\ stable_sorted key (U1 ++ V1) R1).
  1,3: destruct (Nat.ltb_spec a start) as [Hlt1|Hge1];
       [destruct (Nat.ltb_spec start mid) as [Hlt2|Hge2]|]; cbn [andb].
  1,4: (destruct (IH (pre ++ U1 ++ V1 ++ U2 ++ V2 ++ post) pre U1 V1 (U2 ++ V2 ++ post)
                   a start mid) as (R1 & HR1 & Hst1);
        [done|lia|lia|lia
        |intros E; rewrite E in HlU1; simpl in HlU1; lia
        |intros E; rewrite E in HlV1; simpl in HlV1; lia
        |lia|done|done|done|done|];
        exists R1; split; [|done]; exact HR1).
  1,3: (assert (V1 = []) as HE by (apply length_zero_iff_nil; lia);
        exists (U1 ++ V1); split; [by rewrite <- !app_assoc|];
        apply stable_sorted_refl; by rewrite HE, app_nil_r).
  1,2: (assert (U1 = []) as HE by (apply length_zero_iff_nil; lia);
        exists (U1 ++ V1); split; [by rewrite <- !app_assoc|];
        apply stable_sorted_refl; by rewrite HE).
  all: destruct Hm1 as (R1 & -> & Hst1); cbn [mbind option_bind].
  all: pose proof (stable_sorted_length key _ _ Hst1) as HlR1; rewrite length_app in HlR1.
  all: assert (Hm2 : exists R2,
         (if (mid <? end_) && (end_ <? b)
          then symMerge_func less fuel (pre ++ R1 ++ U2 ++ V2 ++ post) mid end_ b
          else Some (pre ++ R1 ++ U2 ++ V2 ++ post))
         = Some (pre ++ R1 ++ R2 ++ post) /\ stable_sorted key (U2 ++ V2) R2).
  1,3: destruct (Nat.ltb_spec mid end_) as [Hlt1|Hge1];
       [destruct (Nat.ltb_spec end_ b) as [Hlt2|Hge2]|]; cbn [andb].
  1,4: (destruct (IH (pre ++ R1 ++ U2 ++ V2 ++ post) (pre ++ R1) U2 V2 post
                   mid end_ b) as (R2 & HR2 & Hst2);
        [by rewrite <- !app_assoc
        |rewrite ?length_app; lia|rewrite ?length_app; lia|rewrite ?length_app; lia
        |intros E; rewrite E in HlU2; simpl in HlU2; lia
        |intros E; rewrite E in HlV2; simpl in HlV2; lia
        |lia|done|done|done|done|];
        exists R2; split; [|done]; by rewrite HR2, <- !app_assoc).
  1,3: (assert (V2 = []) as HE by (apply length_zero_iff_nil; lia);
        exists (U2 ++ V2); split; [by rewrite <- !app_assoc|];
        apply stable_sorted_refl; by rewrite HE, app_nil_r).
  1,2: (assert (U2 = []) as HE by (apply length_zero_iff_nil; lia);
        exists (U2 ++ V2); split; [by rewrite <- !app_assoc|];
        apply stable_sorted_refl; by rewrite HE).
  all: destruct Hm2 as (R2 & -> & Hst2).
  all: exists (R1 ++ R2); split; [by rewrite <- !app_assoc|].
  all: rewrite HUs, HVs; apply stable_sorted_merge_split; try done.
  all: try (by rewrite <- HUs); try (by rewrite <- HVs).
  all: replace (mid + m - start - m) with (end_ - m) in * by lia; done.
Qed.

(** *** The two phases of [stable_func] *)

Lemma stable_sorted_nil_inv out : stable_sorted key [] out -> out = [].
Proof. intros (_ & Hp & _). by apply Permutation_nil_r. Qed.

(** Sorting the stable sorts of two adjacent blocks sorts their
    concatenation. *)
Lemma stable_sorted_blocks l1 l2 out1 out2 R :
  stable_sorted key l1 out1 -> stable_sorted key l2 out2 ->
  stable_sorted key (out1 ++ out2) R ->
  stable_sorted key (l1 ++ l2) R.
Proof.
  intros (_ & Hp1 & Hk1) (_ & Hp2 & Hk2) (Hs & Hp & Hk).
  split; [done|]. split.
  - by rewrite Hp, Hp1, Hp2.
  - intros k. by rewrite Hk, !with_key_app, Hk1, Hk2.
Qed.

Lemma blockwise_perm bs l out : blockwise key bs l out -> out ≡ₚ l.
Proof.
  induction 1 as [l out _ (_ & Hp & _)|l1 out1 l out _ (_ & Hp & _) _ IH]; [done|].
  by rewrite Hp, IH.
Qed.

Lemma blockwise_length bs l out : blockwise key bs l out -> length out = length l.
Proof. intros H. by rewrite (blockwise_perm _ _ _ H). Qed.

(** A blockwise-sorted list no longer than a block is sorted. *)
Lemma blockwise_short bs l out :
  0 < bs -> blockwise key bs l out -> length out <= bs -> stable_sorted key l out.
Proof.
  intros Hbs H Hlen. destruct H as [l out _ Hst|l1 out1 l out Hl1 Hst1 Hb]; [done|].
  pose proof (stable_sorted_length key _ _ Hst1) as Hlo.
  pose proof (blockwise_length _ _ _ Hb) as Hlb.
  rewrite length_app in Hlen.
  assert (out = []) as -> by (apply length_zero_iff_nil; lia).
  assert (l = []) as -> by (apply length_zero_iff_nil; simpl in Hlb; lia).
  by rewrite !app_nil_r.
Qed.

(** A blockwise-sorted list at least as long as a block starts with a
    sorted block. *)
Lemma blockwise_split bs l out :
  blockwise key bs l out -> bs <= length out ->
  exists l1 l' out1 out',
    l = l1 ++ l' /\ out = out1 ++ out' /\ length l1 = bs /\
    stable_sorted key l1 out1 /\ blockwise key bs l' out'.
Proof.
  intros H Hlen. destruct H as [l out Hl Hst|l1 out1 l out Hl1 Hst1 Hb].
  - exists l, [], out, []. rewrite !app_nil_r.
    pose proof (stable_sorted_length key _ _ Hst).
    repeat split; try done; try lia; try apply Hst.
    apply blockwise_last; [simpl; lia|]. apply stable_sorted_refl, ksorted_nil.
  - by exists l1, l, out1, out.
Qed.

Lemma Forall_perm_P l out : out ≡ₚ l -> Forall P l -> Forall P out.
Proof. intros Hp. by rewrite Hp. Qed.

(** First phase: every block of [blockSize] elements is sorted. *)
Lemma stable_blocks_app fuel : forall done rest bs,
  0 < bs -> length rest <= fuel -> Forall P rest ->
  exists rest',
    stable_blocks less fuel (done ++ rest) bs (length done) (length done + bs)
      (length done + length rest)
    = Some (done ++ rest') /\
    blockwise key bs rest rest'.
Proof.
  induction fuel as [|fuel IH]; intros done rest bs Hbs Hfuel HP; cbn [stable_blocks].
  - assert (rest = []) as -> by (apply length_zero_iff_nil; lia). simpl.
    destruct (Nat.leb_spec (length done + bs) (length done + 0)); [lia|].
    destruct (insertionSort_func_app [] done [] ltac:(done)) as (R & HR & Hst).
    simpl in HR. rewrite HR. exists R. split; [by rewrite app_nil_r|].
    apply blockwise_last; [simpl; lia|done].
  - destruct (Nat.leb_spec (length done + bs) (length done + length rest)) as [Hle|Hgt].
    + set (blk := take bs rest). set (rest2 := drop bs rest).
      assert (Hrest : rest = blk ++ rest2) by (symmetry; apply take_drop).
      assert (Hblk : length blk = bs) by (unfold blk; rewrite length_take; lia).
      assert (Hrest2 : length rest2 = length rest - bs) by (unfold rest2; by rewrite length_drop).
      rewrite Hrest in HP. apply Forall_app in HP as [HPb HP2].
      destruct (insertionSort_func_app blk done rest2 HPb) as (R & HR & Hst).
      replace (insertionSort_func less (done ++ rest) (length done) (length done + bs))
        with (done ++ R ++ rest2) by (by rewrite <- HR, Hblk, <- Hrest).
      pose proof (stable_sorted_length key _ _ Hst) as HlR.
      destruct (IH (done ++ R) rest2 bs Hbs ltac:(lia) HP2) as (rest' & Hrest' & Hbw).
      exists (R ++ rest'). split.
      * rewrite <- !app_assoc in Hrest'. rewrite <- Hrest'.
        f_equal; rewrite length_app; lia.
      * rewrite Hrest. by apply blockwise_cons.
    + destruct (insertionSort_func_app rest done [] HP) as (R & HR & Hst).
      rewrite app_nil_r in HR. rewrite HR. exists R. split; [by rewrite app_nil_r|].
      apply blockwise_last; [lia|done].
Qed.

Lemma symMerge_app data pre U V post (a m b : nat) :
  data = pre ++ U ++ V ++ post ->
  a = length pre -> m = a + length U -> b = m + length V ->
  U <> [] -> V <> [] ->
  Forall P U -> Forall P V -> ksorted key U -> ksorted key V ->
  exists R, symMerge less data a m b = Some (pre ++ R ++ post) /\
            stable_sorted key (U ++ V) R.
Proof.
  intros. unfold symMerge. by eapply (symMerge_func_app (b - a)).
Qed.

(** One pass of the second phase merges the blocks two by two. *)
Lemma stable_pass_app fuel : forall done rest rest0 bs,
  0 < bs -> length rest <= fuel -> Forall P rest -> blockwise key bs rest0 rest ->
  exists rest',
    stable_pass less fuel (done ++ rest) bs (length done) (length done + 2 * bs)
      (length done + length rest)
    = Some (done ++ rest') /\
    blockwise key (2 * bs) rest0 rest'.
Proof.
  induction fuel as [|fuel IH]; intros done rest rest0 bs Hbs Hfuel HP Hbw;
    cbn [stable_pass].
  - assert (rest = []) as -> by (apply length_zero_iff_nil; lia). simpl.
    destruct (Nat.leb_spec (length done + (bs + (bs + 0))) (length done + 0)); [lia|].
    destruct (Nat.ltb_spec (length done + bs) (length done + 0)); [lia|].
    exists []. split; [done|]. apply blockwise_last.
    + rewrite <- (blockwise_length _ _ _ Hbw). simpl. lia.
    + eapply blockwise_short; [exact Hbs|exact Hbw|simpl; lia].
  - destruct (Nat.leb_spec (length done + 2 * bs) (length done + length rest)) as [Hle|Hgt].
    + (* two whole blocks *)
      destruct (blockwise_split bs rest0 rest Hbw ltac:(lia))
        as (l1 & l' & U & out' & -> & -> & Hl1 & HstU & Hbw').
      pose proof (stable_sorted_length key _ _ HstU) as HlU.
      rewrite length_app in Hle, Hfuel.
      destruct (blockwise_split bs l' out' Hbw' ltac:(lia))
        as (l2 & l'' & V & out'' & -> & -> & Hl2 & HstV & Hbw'').
      pose proof (stable_sorted_length key _ _ HstV) as HlV.
      rewrite length_app in Hle, Hfuel.
      apply Forall_app in HP as [HPU HP]. apply Forall_app in HP as [HPV HP].
      destruct (symMerge_app (done ++ U ++ V ++ out'') done U V out''
                  (length done) (length done + bs) (length done + 2 * bs))
        as (R & HR & HstR); try done; try lia.
      { intros E. rewrite E in HlU. simpl in HlU. lia. }
      { intros E. rewrite E in HlV. simpl in HlV. lia. }
      { apply HstU. } { apply HstV. }
      replace (done ++ (U ++ V ++ out'')) with (done ++ U ++ V ++ out'') by done.
      rewrite HR. cbn [mbind option_bind].
      pose proof (stable_sorted_length key _ _ HstR) as HlR. rewrite length_app in HlR.
      destruct (IH (done ++ R) out'' l'' bs Hbs ltac:(lia) HP Hbw'') as (rest' & Hrest' & Hbw2).
      exists (R ++ rest'). split.
      * rewrite <- !app_assoc in Hrest'. rewrite <- Hrest'.
        f_equal; rewrite !length_app; lia.
      * rewrite app_assoc. apply blockwise_cons; [rewrite length_app; lia| |done].
        by eapply stable_sorted_blocks.
    + destruct (Nat.ltb_spec (length done + bs) (length done + length rest)) as [Hlt|Hge].
      * (* a whole block and a shorter one *)
        destruct (blockwise_split bs rest0 rest Hbw ltac:(lia))
          as (l1 & l' & U & V & -> & -> & Hl1 & HstU & Hbw').
        pose proof (stable_sorted_length key _ _ HstU) as HlU.
        rewrite length_app in Hlt, Hgt.
        pose proof (blockwise_short bs l' V Hbs Hbw' ltac:(lia)) as HstV.
        pose proof (stable_sorted_length key _ _ HstV) as HlV.
        apply Forall_app in HP as [HPU HPV].
        destruct (symMerge_app (done ++ U ++ V) done U V []
                    (length done) (length done + bs) (length done + length (U ++ V)))
          as (R & HR & HstR); try done; try (rewrite ?length_app; lia).
        { by rewrite app_nil_r. }
        { intros E. rewrite E in HlU. simpl in HlU. lia. }
        { intros E. rewrite E in HlV. simpl in Hlt. rewrite E in Hlt. simpl in Hlt. lia. }
        { apply HstU. } { apply HstV. }
        rewrite HR. exists R. split; [by rewrite app_nil_r|].
        apply blockwise_last; [rewrite length_app; lia|].
        by eapply stable_sorted_blocks.
      * (* at most one block *)
        exists rest. split; [done|]. apply blockwise_last.
        -- rewrite <- (blockwise_length _ _ _ Hbw). lia.
        -- eapply blockwise_short; [exact Hbs|exact Hbw|lia].
Qed.

(** Second phase: the passes double the block size until one block
    covers the slice. *)
Lemma stable_merges_app fuel : forall data l bs,
  0 < bs -> length data <= bs + fuel -> Forall P data -> blockwise key bs l data ->
  exists out,
    stable_merges less fuel data bs (length data) = Some out /\
    stable_sorted key l out.
Proof.
  induction fuel as [|fuel IH]; intros data l bs Hbs Hfuel HP Hbw; cbn [stable_merges].
  - destruct (Nat.ltb_spec bs (length data)); [lia|].
    exists data. split; [done|]. eapply blockwise_short; [exact Hbs|exact Hbw|lia].
  - destruct (Nat.ltb_spec bs (length data)) as [Hlt|Hge].
    + destruct (stable_pass_app (length data) [] data l bs Hbs ltac:(lia) HP Hbw)
        as (data' & Hpass & Hbw').
      simpl in Hpass. simpl. rewrite Hpass. cbn [mbind option_bind].
      pose proof (blockwise_length _ _ _ Hbw) as Hlen.
      pose proof (blockwise_length _ _ _ Hbw') as Hlen'.
      replace (bs * 2) with (2 * bs) by lia.
      replace (length data) with (length data') by lia.
      apply IH; [lia|lia| |done].
      eapply Forall_perm_P; [|exact HP].
      by rewrite (blockwise_perm _ _ _ Hbw'), (blockwise_perm _ _ _ Hbw).
    + exists data. split; [done|]. eapply blockwise_short; [exact Hbs|exact Hbw|lia].
Qed.

(** [sort.SliceStable] returns, and returns the stable sort of the slice
    by key, whenever the comparator is the strict order of the keys on
    the elements of the slice. *)
Lemma SliceStable_stable_sorted l :
  Forall P l ->
  exists out, SliceStable less l = Some out /\ stable_sorted key l out.
Proof.
  intros HP. unfold SliceStable, stable_func.
  destruct (stable_blocks_app (length l) [] l 20 ltac:(lia) ltac:(lia) HP)
    as (data & Hblocks & Hbw).
  simpl in Hblocks. rewrite Hblocks. cbn [mbind option_bind].
  pose proof (blockwise_length _ _ _ Hbw) as Hlen. rewrite <- Hlen.
  apply stable_merges_app; [lia|lia| |done].
  eapply Forall_perm_P; [|exact HP]. by apply blockwise_perm in Hbw.
Qed.

End stable_correct.

(** ** The final order of [readCities] *)

Lemma readCities_loop_receive cs : forall acc n lg pr,
  readCities_loop (mkCollector true true acc n lg pr) (map RecvCommune cs)
  = Some (mkCollector true true (acc ++ cs) (n + Z.of_nat (length cs)) lg pr).
Proof.
  induction cs as [|c cs IH]; intros acc n lg pr.
  - simpl. by rewrite app_nil_r, Z.add_0_r.
  - cbn [map readCities_loop]. unfold readCities_step at 1. cbn.
    rewrite IH. do 2 f_equal; [by rewrite <- app_assoc|]. rewrite Nat2Z.inj_succ. lia.
Qed.

(** A run that receives the records [cs] hands exactly [cs], in this
    order, to the sort. *)
Lemma readCities_receive_all cs :
  readCities (receive_all cs) = GoSort.SliceStable less cs.
Proof.
  unfold readCities, receive_all. rewrite readCities_loop_app.
  unfold Collector_init. rewrite readCities_loop_receive. reflexivity.
Qed.

(** Whatever the records, a run whose loop has exited returns a
    rearrangement of the records received. *)
Lemma readCities_total evs st :
  readCities_loop Collector_init evs = Some st -> looping st = false ->
  exists out, readCities evs = Some out /\ out ≡ₚ received_communes evs.
Proof.
  intros Hloop Hexit.
  pose proof (readCities_loop_Some _ _ _ Hloop) as (_ & _ & Hcs & _). simpl in Hcs.
  destruct (SliceStable_total less (communes st)) as (out & Hout & Hp).
  exists out. unfold readCities. rewrite Hloop. cbn [mbind option_bind].
  rewrite Hexit, Hout. split; [done|]. by rewrite Hp, Hcs.
Qed.

(** On records that all have a leading value the comparator is the strict
    order of these values. *)
Lemma less_valid x y :
  is_Some (leading_value x) -> is_Some (leading_value y) ->
  less x y = (default 0 (leading_value x) <? default 0 (leading_value y)).
Proof. intros [o Ho] [k Hk]. by rewrite less_leading_value, Ho, Hk. Qed.

(** The sort of [readCities] on records that all have a leading value. *)
Lemma finalizer_stable_sorted cs :
  Forall (fun c => is_Some (leading_value c)) cs ->
  exists out, GoSort.SliceStable less cs = Some out /\
              stable_sorted (fun c => default 0 (leading_value c)) cs out.
Proof. apply (SliceStable_stable_sorted less _ _ less_valid). Qed.

(** With a leading value everywhere, selecting by leading value is
    selecting by key. *)
Lemma filter_leading_value k (l : list Commune) :
  Forall (fun c => is_Some (leading_value c)) l ->
  filter (fun c => leading_value c = Some k) l
  = filter (fun c => default 0 (leading_value c) = k) l.
Proof.
  induction 1 as [|c l [v Hv] _ IH]; [done|].
  rewrite !filter_cons, IH, Hv. simpl.
  destruct (decide (Some v = Some k)) as [E|E], (decide (v = k)) as [E'|E'];
    congruence.
Qed.

(** C1 as stated fails twice.  Two records with the same value cannot
    each come before the other: [B], received after [A], does not appear
    before [A] although its value is not larger.  And one record without
    postal code among twenty-two lets the merge step put the record of
    value 22000 before the one of value 20000. *)
Lemma C1_counterexample :
  (let A := commune "A" ["75001"] in
   let B := commune "B" ["75001"] in
   leading_value A = Some 75001 /\ leading_value B = Some 75001 /\
   readCities (receive_all [A; B]) = Some [A; B] /\
   ~ before [A; B] B A) /\
  (let c20 := commune "c20" ["20000"] in
   let c22 := commune "c22" ["22000"] in
   leading_value c20 = Some 20000 /\ leading_value c22 = Some 22000 /\
   exists out, readCities (receive_all sorted_then_malformed) = Some out /\
               out !! 19%nat = Some c22 /\ out !! 21%nat = Some c20 /\
               before out c22 c20).
Proof.
  split.
  - split; [reflexivity|]. split; [reflexivity|]. split; [by vm_compute|].
    intros (i & j & Hij & Hi & Hj).
    destruct i as [|[|i]]; simpl in Hi; try discriminate.
    destruct j as [|[|j]]; simpl in Hj; try discriminate. lia.
  - split; [reflexivity|]. split; [reflexivity|].
    eexists. split; [by vm_compute|]. split; [reflexivity|]. split; [reflexivity|].
    exists 19%nat, 21%nat. split; [lia|]. split; reflexivity.
Qed.

(** C1, amended: when every record received has a leading value, the
    final sequence is a rearrangement of the records received in which a
    record that appears before another has a value that is not larger, a
    record of smaller value appears before any record of larger value,
    and records of the same value keep their order of reception. *)
Theorem C1_valid_records_ordered evs :
  (exists st, readCities_loop Collector_init evs = Some st /\ looping st = false) ->
  Forall (fun c => is_Some (leading_value c)) (received_communes evs) ->
  exists out,
    readCities evs = Some out /\
    out ≡ₚ received_communes evs /\
    (forall A B a b, before out A B ->
       leading_value A = Some a -> leading_value B = Some b -> a <= b) /\
    (forall A B a b, A ∈ out -> B ∈ out ->
       leading_value A = Some a -> leading_value B = Some b -> a < b -> before out A B) /\
    (forall k, filter (fun c => leading_value c = Some k) out
               = filter (fun c => leading_value c = Some k) (received_communes evs)).
Proof.
  intros (st & Hloop & Hexit) Hvalid.
  pose proof (readCities_loop_Some _ _ _ Hloop) as (_ & _ & Hcs & _). simpl in Hcs.
  destruct (finalizer_stable_sorted _ Hvalid) as (out & Hsort & Hs & Hp & Hk).
  exists out. split.
  { unfold readCities. rewrite Hloop. cbn [mbind option_bind]. by rewrite Hexit, Hcs. }
  split; [done|].
  assert (Hvout : forall c, c ∈ out -> is_Some (leading_value c)).
  { intros c Hc. rewrite Hp in Hc. by eapply Forall_forall in Hvalid. }
  split; [|split].
  - intros A B a b (i & j & Hij & Hi & Hj) Ha Hb.
    specialize (Hs i j A B Hij Hi Hj). cbv beta in Hs. by rewrite Ha, Hb in Hs.
  - intros A B a b [i Hi]%list_elem_of_lookup [j Hj]%list_elem_of_lookup Ha Hb Hab.
    destruct (Nat.lt_trichotomy i j) as [Hlt|[->|Hgt]].
    + by exists i, j.
    + rewrite Hi in Hj. injection Hj as ->. rewrite Ha in Hb. injection Hb as ->. lia.
    + specialize (Hs j i B A Hgt Hj Hi). cbv beta in Hs. rewrite Ha, Hb in Hs.
      simpl in Hs. lia.
  - intros k. specialize (Hk k). unfold with_key in Hk.
    rewrite !filter_leading_value; [done|done|].
    apply Forall_forall. intros c Hc. apply Hvout, Hc.
Qed.

Lemma C1_valid_records_ordered_witness :
  let A := commune "Paris" ["75001"] in
  let B := commune "Marseille" ["13001"] in
  let C := commune "Paris 1er" ["75001"] in
  let evs := [RecvCommune A; RecvError "01001"; RecvCommune B; Tick; ClosedError;
              RecvCommune C; ClosedCommune] in
  (exists st, readCities_loop Collector_init evs = Some st /\ looping st = false) /\
  Forall (fun c => is_Some (leading_value c)) (received_communes evs) /\
  exists out,
    readCities evs = Some out /\
    out ≡ₚ received_communes evs /\
    (forall A B a b, before out A B ->
       leading_value A = Some a -> leading_value B = Some b -> a <= b) /\
    (forall A B a b, A ∈ out -> B ∈ out ->
       leading_value A = Some a -> leading_value B = Some b -> a < b -> before out A B) /\
    (forall k, filter (fun c => leading_value c = Some k) out
               = filter (fun c => leading_value c = Some k) (received_communes evs)).
Proof.
  assert (H1 : exists st,
             readCities_loop Collector_init
               [RecvCommune (commune "Paris" ["75001"]); RecvError "01001";
                RecvCommune (commune "Marseille" ["13001"]); Tick; ClosedError;
                RecvCommune (commune "Paris 1er" ["75001"]); ClosedCommune] = Some st /\
             looping st = false).
  { eexists. split; reflexivity. }
  assert (H2 : Forall (fun c => is_Some (leading_value c))
                 (received_communes
                    [RecvCommune (commune "Paris" ["75001"]); RecvError "01001";
                     RecvCommune (commune "Marseille" ["13001"]); Tick; ClosedError;
                     RecvCommune (commune "Paris 1er" ["75001"]); ClosedCommune])).
  { repeat constructor; eexists; reflexivity. }
  split; [exact H1|]. split; [exact H2|].
  exact (C1_valid_records_ordered _ H1 H2).
Defined.

(** The run of the witness: Marseille first, then the two records of
    value 75001 in their order of reception. *)
Example readCities_three :
  readCities [RecvCommune (commune "Paris" ["75001"]); RecvError "01001";
              RecvCommune (commune "Marseille" ["13001"]); Tick; ClosedError;
              RecvCommune (commune "Paris 1er" ["75001"]); ClosedCommune]
  = Some [commune "Marseille" ["13001"]; commune "Paris" ["75001"];
          commune "Paris 1er" ["75001"]].
Proof. by vm_compute. Qed.

(** ** The pipeline: invariants of every run *)

Import Pipeline.

Section pipeline_props.
Variables (departements : list Departement) (regions : list Region).
Variables (insees : list Insee) (detail : string -> GetResult).

Local Abbreviation worker := (Pipeline.worker departements regions detail).
Local Abbreviation step := (Pipeline.step departements regions insees detail).
Local Abbreviation reachable := (Pipeline.reachable departements regions insees detail).
Local Abbreviation Inv := (Pipeline.Inv departements regions insees detail).

(** Every worker performs its lookup, then sends one message or panics,
    then releases the wait group. *)
Lemma worker_shape insee :
  exists x, worker insee = [EvGet (detail_url (insee_Code insee)); x; EvDone] /\
            ((exists c, x = EvSendCommune c) \/ (exists msg, x = EvSendError msg) \/ x = EvPanic).
Proof.
  unfold Pipeline.worker, geoAPIGouvFr.
  destruct (detail (insee_Code insee)) as [|s [|[|cs]]]; simpl;
    try destruct (s =? 404); try (eexists; split; [reflexivity|]; right; left; eauto).
  destruct (build_Commune departements regions cs);
    eexists; (split; [reflexivity|]); [left; eauto|right; right; done].
Qed.

Lemma worker_count_done insee : count_done (worker insee) = 1%nat.
Proof.
  destruct (worker_shape insee) as (x & -> & [[c ->]|[[msg ->]| ->]]); reflexivity.
Qed.

(** A worker that has not performed [wg.Done()] is not finished yet. *)
Lemma worker_suffix_done insee done t :
  worker insee = done ++ t -> count_done t = 0%nat -> t = [].
Proof.
  destruct (worker_shape insee) as (x & -> & Hx). intros Heq Hc.
  destruct done as [|d1 [|d2 [|d3 [|d4 done]]]]; simplify_eq/=; try done;
    try (by destruct Hx as [[c ->]|[[msg ->]| ->]]).
Qed.

Lemma sent_communes_app t1 t2 : sent_communes (t1 ++ t2) = sent_communes t1 ++ sent_communes t2.
Proof. apply omap_app. Qed.

Lemma sent_errors_app t1 t2 : sent_errors (t1 ++ t2) = sent_errors t1 ++ sent_errors t2.
Proof. apply omap_app. Qed.

Lemma panics_app t1 t2 : panics (t1 ++ t2) = panics t1 || panics t2.
Proof. apply existsb_app. Qed.

(** A worker sends at most one record and at most one failure. *)
Lemma worker_sends_once insee done ev t :
  worker insee = done ++ ev :: t ->
  (forall c, ev = EvSendCommune c -> sent_communes (worker insee) = [c]) /\
  (forall msg, ev = EvSendError msg -> sent_errors (worker insee) = [msg]).
Proof.
  destruct (worker_shape insee) as (x & -> & Hx). intros Heq.
  destruct done as [|d1 [|d2 [|d3 [|d4 done]]]]; simplify_eq/=;
    try (split; intros; discriminate); try (by destruct done).
  split; intros ? ->; reflexivity.
Qed.

(** Replacing what a worker has left to do. *)
Lemma workers_update (ws : list (list Event)) i ev t :
  ws !! i = Some (ev :: t) ->
  exists ws1 ws2, ws = ws1 ++ (ev :: t) :: ws2 /\ <[i:=t]> ws = ws1 ++ t :: ws2.
Proof.
  intros (ws1 & ws2 & -> & ->)%list_elem_of_split_length.
  exists ws1, ws2. split; [done|]. apply insert_app_at.
Qed.

Lemma Forall2_update {X Y} (R : X -> Y -> Prop) xs ys1 y y' ys2 :
  Forall2 R xs (ys1 ++ y :: ys2) -> (forall x, R x y -> R x y') ->
  Forall2 R xs (ys1 ++ y' :: ys2).
Proof.
  intros (xs1 & xs2 & H1 & H2 & ->)%Forall2_app_inv_r Hy.
  apply Forall2_cons_inv_r in H2 as (x & xs2' & Hx & H2 & ->).
  apply Forall2_app; [done|]. constructor; [by apply Hy|done].
Qed.

Lemma sum_count_done_update ws1 ev t ws2 :
  sum_list_with count_done (ws1 ++ (ev :: t) :: ws2)
  = (sum_list_with count_done (ws1 ++ t :: ws2)
     + match ev with EvDone => 1 | _ => 0 end)%nat.
Proof.
  rewrite !sum_list_with_app. simpl. destruct ev; simpl; lia.
Qed.

Lemma concat_map_mid {X Y} (f : X -> list Y) l1 x l2 :
  concat (map f (l1 ++ x :: l2)) = concat (map f l1) ++ f x ++ concat (map f l2).
Proof. by rewrite map_app, concat_app. Qed.

Lemma worker_progress insee ev t :
  (exists done, worker insee = done ++ ev :: t /\ panics done = false) ->
  ev <> EvPanic ->
  exists done, worker insee = done ++ t /\ panics done = false.
Proof.
  intros (done & Hw & Hp) Hev. exists (done ++ [ev]). split; [by rewrite <- app_assoc|].
  rewrite panics_app, Hp. by destruct ev.
Qed.

Lemma Inv_init : Inv init.
Proof.
  constructor; simpl; try done.
  - lia.
  - split; [discriminate|]. intros [?|?]; discriminate.
Qed.

Ltac split_workers H :=
  let ws1 := fresh "ws1" in let ws2 := fresh "ws2" in
  destruct (workers_update _ _ _ _ H) as (ws1 & ws2 & -> & ->).

(** Every step of the pipeline keeps the invariant. *)
Lemma Inv_step s lbl s' : Inv s -> step s lbl s' -> Inv s'.
Proof.
  intros [Hw Hl Hwg Hph Hce Hcc Hcom Herr Hcn Hen] Hstep.
  destruct Hstep; simpl in *.
  - (* launch *)
    pose proof (lookup_lt_Some _ _ _ H) as Hlt.
    constructor; simpl; try done.
    + rewrite (take_S_r _ _ _ H). apply Forall2_app; [done|].
      constructor; [|constructor]. by exists [].
    + rewrite sum_list_with_app. cbn [sum_list_with]. rewrite worker_count_done. lia.
    + rewrite (take_S_r _ _ _ H), !map_app, !concat_app. simpl. rewrite !app_nil_r.
      rewrite <- Hcom. by rewrite <- !app_assoc.
    + rewrite (take_S_r _ _ _ H), !map_app, !concat_app. simpl. rewrite !app_nil_r.
      rewrite <- Herr. by rewrite <- !app_assoc.
  - (* wait *)
    constructor; simpl; try done.
    + split; [|intros [?|?]; discriminate].
      intros E. apply Hce in E as [?|?]; discriminate.
    + split; [|discriminate]. intros E. apply Hcc in E. discriminate.
  - (* close(errorCh) *)
    constructor; simpl; try done.
    + intros _. by apply Hph.
    + split; [by left|done].
    + split; [|discriminate]. intros E. apply Hcc in E. discriminate.
    + intros E. by destruct (Hen E).
  - (* close(communeCh) *)
    constructor; simpl; try done.
    + intros _. by apply Hph.
    + split; [by right|]. intros _. apply Hce. by left.
    + intros E. by destruct (Hcn E).
  - (* the lookup *)
    split_workers H. constructor; simpl; try done.
    all: try (by eapply Forall2_update; [exact Hw|]; intros x Hx; eapply worker_progress).
    all: try (rewrite Hwg, sum_count_done_update; lia).
    all: rewrite concat_map_mid in *; first [exact Hcom|exact Herr].
  - (* a record is sent *)
    split_workers H. constructor; simpl; try done.
    all: try (by eapply Forall2_update; [exact Hw|]; intros x Hx; eapply worker_progress).
    all: try (rewrite Hwg, sum_count_done_update; lia).
    all: try (intros E; by destruct (Hcn E)).
    all: rewrite concat_map_mid in *; try exact Herr.
    simpl in Hcom. rewrite <- Hcom. solve_Permutation.
  - (* a send on the closed result channel *)
    constructor; simpl; done.
  - (* a failure is sent *)
    split_workers H. constructor; simpl; try done.
    all: try (by eapply Forall2_update; [exact Hw|]; intros x Hx; eapply worker_progress).
    all: try (rewrite Hwg, sum_count_done_update; lia).
    all: try (intros E; by destruct (Hen E)).
    all: rewrite concat_map_mid in *; try exact Hcom.
    simpl in Herr. rewrite <- Herr. solve_Permutation.
  - (* a send on the closed error channel *)
    constructor; simpl; done.
  - (* a worker panics *)
    constructor; simpl; done.
  - (* wg.Done() *)
    split_workers H. rewrite sum_count_done_update in Hwg.
    constructor; simpl; try done.
    all: try (by eapply Forall2_update; [exact Hw|]; intros x Hx; eapply worker_progress).
    all: try lia.
    all: try (intros Hp; destruct (Hph Hp) as [? ?]; lia).
    all: rewrite concat_map_mid in *; first [exact Hcom|exact Herr].
  - (* the collector receives a record *)
    apply readCities_step_Some in H as (_ & Hlive & _ & Hc1 & He1 & Hcs & Hlg).
    simpl in *. rewrite andb_true_r in Hc1, He1. rewrite app_nil_r in Hlg.
    constructor; simpl; try done.
    + rewrite Hcs. rewrite <- Hcom. solve_Permutation.
    + by rewrite Hlg.
    + intros E. rewrite Hc1, Hlive in E; done.
    + intros E. rewrite He1 in E. by apply Hen.
  - (* the collector sees the result channel closed *)
    apply readCities_step_Some in H as (_ & Hlive & _ & Hc1 & He1 & Hcs & Hlg).
    simpl in *. rewrite andb_true_r in He1. rewrite app_nil_r in Hlg, Hcs.
    constructor; simpl; try done.
    + by rewrite Hcs.
    + by rewrite Hlg.
    + intros E. rewrite He1 in E. by apply Hen.
  - (* the collector receives a failure *)
    apply readCities_step_Some in H as (_ & _ & Hlive & Hc1 & He1 & Hcs & Hlg).
    simpl in *. rewrite andb_true_r in Hc1, He1. rewrite app_nil_r in Hcs.
    constructor; simpl; try done.
    + by rewrite Hcs.
    + rewrite Hlg. rewrite <- Herr. solve_Permutation.
    + intros E. rewrite Hc1 in E. by apply Hcn.
    + intros E. rewrite He1, Hlive in E; done.
  - (* the collector sees the error channel closed *)
    apply readCities_step_Some in H as (_ & _ & Hlive & Hc1 & He1 & Hcs & Hlg).
    simpl in *. rewrite andb_true_r in Hc1. rewrite app_nil_r in Hlg, Hcs.
    constructor; simpl; try done.
    + by rewrite Hcs.
    + by rewrite Hlg.
    + intros E. rewrite Hc1 in E. by apply Hcn.
  - (* a tick *)
    apply readCities_step_Some in H as (_ & _ & _ & Hc1 & He1 & Hcs & Hlg).
    simpl in *. rewrite andb_true_r in Hc1, He1. rewrite app_nil_r in Hlg, Hcs.
    constructor; simpl; try done.
    + by rewrite Hcs.
    + by rewrite Hlg.
    + intros E. rewrite Hc1 in E. by apply Hcn.
    + intros E. rewrite He1 in E. by apply Hen.
Qed.

Lemma reachable_Inv s : reachable s -> Inv s.
Proof. induction 1; [apply Inv_init|by eapply Inv_step]. Qed.

(** A record on its way to the result channel is the one record of the
    worker that sends it. *)
Lemma send_commune_worker s s' i c :
  reachable s -> step s (LWork i (EvSendCommune c)) s' ->
  exists insee, insees !! i = Some insee /\ sent_communes (worker insee) = [c].
Proof.
  intros Hr Hstep. apply reachable_Inv in Hr as [Hw _ _ _ _ _ _ _ _ _].
  inversion Hstep; subst; simpl in *.
  match goal with
  | Hl : _ !! i = Some (_ :: ?t) |- _ =>
      destruct (Forall2_lookup_r _ _ _ _ _ Hw Hl) as (insee & Hi & done & Hwk & _);
      exists insee; split;
      [by apply lookup_take_Some in Hi as [? _]
      |by apply (worker_sends_once insee done (EvSendCommune c) t Hwk)]
  end.
Qed.

Lemma send_error_worker s s' i msg :
  reachable s -> step s (LWork i (EvSendError msg)) s' ->
  exists insee, insees !! i = Some insee /\ sent_errors (worker insee) = [msg].
Proof.
  intros Hr Hstep. apply reachable_Inv in Hr as [Hw _ _ _ _ _ _ _ _ _].
  inversion Hstep; subst; simpl in *.
  match goal with
  | Hl : _ !! i = Some (_ :: ?t) |- _ =>
      destruct (Forall2_lookup_r _ _ _ _ _ Hw Hl) as (insee & Hi & done & Hwk & _);
      exists insee; split;
      [by apply lookup_take_Some in Hi as [? _]
      |by apply (worker_sends_once insee done (EvSendError msg) t Hwk)]
  end.
Qed.

Lemma sum_list_with_zero {X} (f : X -> nat) l :
  sum_list_with f l = 0%nat -> Forall (fun x => f x = 0%nat) l.
Proof.
  induction l as [|x l IH]; simpl; [constructor|].
  intros H. constructor; [lia|apply IH; lia].
Qed.

(** When the loop of [readCities] has exited, every worker has run to
    its end without a panic, and the collector holds what the workers
    sent. *)
Lemma finished_run s :
  reachable s -> finished s ->
  Forall (fun insee => panics (worker insee) = false) insees /\
  communes (collector s) ≡ₚ concat (map (fun insee => sent_communes (worker insee)) insees) /\
  log_errors (collector s) ≡ₚ concat (map (fun insee => sent_errors (worker insee)) insees).
Proof.
  intros Hr Hfin. apply reachable_Inv in Hr as [Hw Hl Hwg Hph Hce Hcc Hcom Herr Hcn Hen].
  unfold finished, looping in Hfin. apply orb_false_iff in Hfin as [Hc He].
  destruct (Hcn Hc) as [Hcl Hcb]. destruct (Hen He) as [_ Heb].
  apply Hcc in Hcl. destruct Hph as [Hlen Hwg0]; [by rewrite Hcl|].
  rewrite Hlen, take_ge in Hw, Hcom, Herr by done.
  rewrite Hwg0 in Hwg.
  assert (Hdone : Forall (fun t => count_done t = 0%nat) (workers s))
    by (apply sum_list_with_zero; lia).
  assert (Hnil : Forall2 (fun insee t => t = [] /\ panics (worker insee) = false)
                   insees (workers s)).
  { clear -Hw Hdone. induction Hw as [|insee t l k (done & Hwk & Hp) _ IH]; [constructor|].
    apply Forall_cons in Hdone as [Ht Hk]. constructor; [|by apply IH].
    pose proof (worker_suffix_done insee done t Hwk Ht) as ->.
    rewrite app_nil_r in Hwk. by rewrite Hwk. }
  assert (Hws : concat (map sent_communes (workers s)) = [] /\
                concat (map sent_errors (workers s)) = []).
  { clear -Hnil. induction Hnil as [|insee t l k [-> _] _ [IH1 IH2]]; [done|].
    simpl. by rewrite IH1, IH2. }
  destruct Hws as [Hws1 Hws2].
  rewrite Hcb, Hws1 in Hcom. rewrite Heb, Hws2 in Herr. simpl in *.
  rewrite !app_nil_r in *. split; [|done].
  clear -Hnil. induction Hnil as [|insee t l k [_ ?] _ IH]; by constructor.
Qed.


End pipeline_props.

(** What the collector ends with does not depend on the interleaving. *)
Lemma finished_runs_agree departements regions insees detail s1 s2 :
  reachable departements regions insees detail s1 -> finished s1 ->
  reachable departements regions insees detail s2 -> finished s2 ->
  communes (collector s1) ≡ₚ communes (collector s2) /\
  log_errors (collector s1) ≡ₚ log_errors (collector s2).
Proof.
  intros Hr1 Hf1 Hr2 Hf2.
  destruct (finished_run _ _ _ _ _ Hr1 Hf1) as (_ & -> & ->).
  destruct (finished_run _ _ _ _ _ Hr2 Hf2) as (_ & -> & ->). done.
Qed.

(** C9: in two runs of the pipeline on the same reference tables and the
    same detail responses, whatever the lists of identifiers and the
    interleavings, the records sent by the workers of one identifier are
    the same record, hence the same serialized document, whatever the
    rendering of the document to bytes. *)
Theorem C9_enrichment_deterministic departements regions detail insees1 insees2
    s1 s1' s2 s2' i j code c1 c2 :
  reachable departements regions insees1 detail s1 ->
  reachable departements regions insees2 detail s2 ->
  step departements regions insees1 detail s1 (LWork i (EvSendCommune c1)) s1' ->
  step departements regions insees2 detail s2 (LWork j (EvSendCommune c2)) s2' ->
  insees1 !! i = Some (mkInsee code) ->
  insees2 !! j = Some (mkInsee code) ->
  c1 = c2 /\
  sent_communes (geoAPIGouvFr code departements regions (detail code)) = [c1] /\
  marshal_Commune c1 = marshal_Commune c2 /\
  forall render : JSON -> string, render (marshal_Commune c1) = render (marshal_Commune c2).
Proof.
  intros Hr1 Hr2 Hs1 Hs2 Hi Hj.
  destruct (send_commune_worker _ _ _ _ _ _ _ _ Hr1 Hs1) as (x1 & Hx1 & Hc1).
  destruct (send_commune_worker _ _ _ _ _ _ _ _ Hr2 Hs2) as (x2 & Hx2 & Hc2).
  rewrite Hi in Hx1. rewrite Hj in Hx2. injection Hx1 as <-. injection Hx2 as <-.
  unfold worker in Hc1, Hc2. simpl in Hc1, Hc2. rewrite Hc1 in Hc2. injection Hc2 as <-.
  done.
Qed.


(** A run on the one identifier ["75056"], up to the moment its worker is
    about to send. *)
Lemma run_to_send cs c :
  build_Commune [] [] cs = Some c ->
  reachable [] [] [mkInsee "75056"] (constant_detail cs)
    (mkState 1 Launching 1 [[EvSendCommune c; EvDone]]
       (mkChan [] false) (mkChan [] false) Collector_init false).
Proof.
  intros Hc.
  eapply reachable_step.
  - eapply reachable_step; [apply reachable_init|].
    apply (step_launch [] [] [mkInsee "75056"] (constant_detail cs)
             0%nat 0 [] (mkChan [] false) (mkChan [] false) Collector_init (mkInsee "75056")).
    reflexivity.
  - unfold Pipeline.worker, constant_detail, geoAPIGouvFr, decoded. simpl. rewrite Hc.
    apply (step_get [] [] [mkInsee "75056"] (constant_detail cs) 1%nat Launching
             (0 + 1) [[EvGet (detail_url "75056"); EvSendCommune c; EvDone]]
             (mkChan [] false) (mkChan [] false) Collector_init 0%nat
             (detail_url "75056") [EvSendCommune c; EvDone]).
    reflexivity.
Qed.

Lemma C9_enrichment_deterministic_witness :
  let cs := response "Paris" "75" "11" ["75001"] [2.35%float; 48.85%float] in
  let c := mkCommune "Paris" "" "" ["75001"] (mkLocation "Point" [48.85%float; 2.35%float]) in
  let s := mkState 1 Launching 1 [[EvSendCommune c; EvDone]]
             (mkChan [] false) (mkChan [] false) Collector_init false in
  let s' := mkState 1 Launching 1 [[EvDone]]
              (mkChan [c] false) (mkChan [] false) Collector_init false in
  reachable [] [] [mkInsee "75056"] (constant_detail cs) s /\
  step [] [] [mkInsee "75056"] (constant_detail cs) s (LWork 0 (EvSendCommune c)) s' /\
  [mkInsee "75056"] !! 0%nat = Some (mkInsee "75056") /\
  (c = c /\
   sent_communes (geoAPIGouvFr "75056" [] [] (constant_detail cs "75056")) = [c] /\
   marshal_Commune c = marshal_Commune c /\
   forall render : JSON -> string, render (marshal_Commune c) = render (marshal_Commune c)).
Proof.
  assert (Hr : reachable [] [] [mkInsee "75056"]
                 (constant_detail (response "Paris" "75" "11" ["75001"] [2.35%float; 48.85%float]))
                 (mkState 1 Launching 1
                    [[EvSendCommune (mkCommune "Paris" "" "" ["75001"]
                                       (mkLocation "Point" [48.85%float; 2.35%float])); EvDone]]
                    (mkChan [] false) (mkChan [] false) Collector_init false)).
  { apply run_to_send. reflexivity. }
  assert (Hs : step [] [] [mkInsee "75056"]
                 (constant_detail (response "Paris" "75" "11" ["75001"] [2.35%float; 48.85%float]))
                 (mkState 1 Launching 1
                    [[EvSendCommune (mkCommune "Paris" "" "" ["75001"]
                                       (mkLocation "Point" [48.85%float; 2.35%float])); EvDone]]
                    (mkChan [] false) (mkChan [] false) Collector_init false)
                 (LWork 0 (EvSendCommune (mkCommune "Paris" "" "" ["75001"]
                                            (mkLocation "Point" [48.85%float; 2.35%float]))))
                 (mkState 1 Launching 1 [[EvDone]]
                    (mkChan [mkCommune "Paris" "" "" ["75001"]
                               (mkLocation "Point" [48.85%float; 2.35%float])] false)
                    (mkChan [] false) Collector_init false)).
  { refine (step_send_commune [] [] [mkInsee "75056"] _ 1%nat Launching 1
              [[EvSendCommune (mkCommune "Paris" "" "" ["75001"]
                                 (mkLocation "Point" [48.85%float; 2.35%float])); EvDone]]
              [] (mkChan [] false) Collector_init 0%nat
              (mkCommune "Paris" "" "" ["75001"]
                 (mkLocation "Point" [48.85%float; 2.35%float]))
              [EvDone] _ _).
    - reflexivity.
    - unfold communeCh_cap. simpl. lia. }
  split; [exact Hr|]. split; [exact Hs|]. split; [reflexivity|].
  exact (C9_enrichment_deterministic [] [] _ _ _ _ _ _ _ 0%nat 0%nat "75056" _ _
           Hr Hr Hs Hs eq_refl eq_refl).
Defined.

(** The run of the worker of C3: launched, it performs its lookup and
    panics; nothing has been sent, and the run is over. *)
Example single_coordinate_run_crashes :
  let cs := response "Paris" "75" "11" ["75001"] [2.35%float] in
  reachable [] [] [mkInsee "75056"] (constant_detail cs)
    (mkState 1 Launching 1 [[EvPanic; EvDone]]
       (mkChan [] false) (mkChan [] false) Collector_init true).
Proof.
  eapply reachable_step.
  - eapply reachable_step.
    + eapply reachable_step; [apply reachable_init|].
      apply (step_launch [] [] [mkInsee "75056"] _
               0%nat 0 [] (mkChan [] false) (mkChan [] false) Collector_init (mkInsee "75056")).
      reflexivity.
    + refine (step_get [] [] [mkInsee "75056"] _ 1%nat Launching
                (0 + 1) [[EvGet (detail_url "75056"); EvPanic; EvDone]]
                (mkChan [] false) (mkChan [] false) Collector_init 0%nat
                (detail_url "75056") [EvPanic; EvDone] _).
      reflexivity.
  - refine (step_panic [] [] [mkInsee "75056"] _ 1%nat Launching 1 [[EvPanic; EvDone]]
              (mkChan [] false) (mkChan [] false) Collector_init 0%nat [EvDone] _).
    reflexivity.
Qed.

(** ** A run on one identifier, step by step *)

Section one_identifier.
Variables (cs : CommuneResponse) (c : Commune).
Hypothesis Hc : build_Commune [] [] cs = Some c.

Local Abbreviation reachable1 :=
  (Pipeline.reachable [] [] [mkInsee "75056"] (constant_detail cs)).
Local Abbreviation step1 :=
  (Pipeline.step [] [] [mkInsee "75056"] (constant_detail cs)).

(** The record is in the buffer of the result channel. *)
Lemma run_sent :
  reachable1 (mkState 1 Launching 1 [[EvDone]]
                (mkChan [c] false) (mkChan [] false) Collector_init false).
Proof.
  eapply reachable_step; [apply (run_to_send cs c Hc)|].
  refine (step_send_commune [] [] [mkInsee "75056"] _ 1%nat Launching 1
            [[EvSendCommune c; EvDone]] [] (mkChan [] false) Collector_init 0%nat
            c [EvDone] _ _); [reflexivity|].
  unfold communeCh_cap. simpl. lia.
Qed.

(** The worker is done and the collector has received the record. *)
Lemma run_received :
  reachable1 (mkState 1 Launching 0 [[]]
                (mkChan [] false) (mkChan [] false)
                (mkCollector true true [c] 1 [] []) false).
Proof.
  eapply reachable_step.
  - eapply reachable_step; [apply run_sent|].
    refine (step_done [] [] [mkInsee "75056"] _ 1%nat Launching 1 [[EvDone]]
              (mkChan [c] false) (mkChan [] false) Collector_init 0%nat [] _).
    reflexivity.
  - refine (step_recv_commune [] [] [mkInsee "75056"] _ 1%nat Launching (1 - 1) [[]]
              c [] false (mkChan [] false) Collector_init
              (mkCollector true true [c] 1 [] []) _).
    reflexivity.
Qed.

(** Both channels are closed and the loop of the collector has exited. *)
Lemma run_complete :
  reachable1 (mkState 1 BothClosed 0 [[]]
                (mkChan [] true) (mkChan [] true)
                (mkCollector false false [c] 1 [] []) false).
Proof.
  eapply reachable_step.
  - eapply reachable_step.
    + eapply reachable_step.
      * eapply reachable_step.
        -- eapply reachable_step; [apply run_received|].
           refine (step_wait [] [] [mkInsee "75056"] _ 1%nat [[]]
                     (mkChan [] false) (mkChan [] false)
                     (mkCollector true true [c] 1 [] []) _).
           reflexivity.
        -- refine (step_close_error [] [] [mkInsee "75056"] _ 1%nat 0 [[]]
                     (mkChan [] false) [] (mkCollector true true [c] 1 [] [])).
      * refine (step_close_commune [] [] [mkInsee "75056"] _ 1%nat 0 [[]]
                  [] (mkChan [] true) (mkCollector true true [c] 1 [] [])).
    + refine (step_closed_error [] [] [mkInsee "75056"] _ 1%nat BothClosed 0 [[]]
                (mkChan [] true) (mkCollector true true [c] 1 [] [])
                (mkCollector true false [c] 1 [] []) _).
      reflexivity.
  - refine (step_closed_commune [] [] [mkInsee "75056"] _ 1%nat BothClosed 0 [[]]
              (mkChan [] true) (mkCollector true false [c] 1 [] [])
              (mkCollector false false [c] 1 [] []) _).
    reflexivity.
Qed.

End one_identifier.

(** The response and the record of the examples. *)
Lemma build_Paris :
  build_Commune [] [] (response "Paris" "75" "11" ["75001"] [2.35%float; 48.85%float])
  = Some (mkCommune "Paris" "" "" ["75001"] (mkLocation "Point" [48.85%float; 2.35%float])).
Proof. reflexivity. Qed.

(** ** The pipeline: what every run keeps, and how runs end *)

Import PipelineRuns.

Section pipeline_more.
Variables (departements : list Departement) (regions : list Region).
Variables (insees : list Insee) (detail : string -> GetResult).

Local Abbreviation worker := (Pipeline.worker departements regions detail).
Local Abbreviation step := (Pipeline.step departements regions insees detail).
Local Abbreviation reachable := (Pipeline.reachable departements regions insees detail).
Local Abbreviation Inv := (Pipeline.Inv departements regions insees detail).
Local Abbreviation run := (PipelineRuns.run departements regions insees detail).



Lemma worker_length insee : length (worker insee) = 3%nat.
Proof. by destruct (worker_shape departements regions detail insee) as (x & -> & _). Qed.

(** What a worker has left to do holds a [wg.Done()] unless it is
    nothing. *)
Lemma suffix_count_done insee done t :
  worker insee = done ++ t ->
  count_done t = match t with [] => 0%nat | _ => 1%nat end.
Proof.
  destruct (worker_shape departements regions detail insee) as (x & -> & Hx). intros Heq.
  destruct done as [|d1 [|d2 [|d3 [|d4 done]]]]; simplify_eq/=; try done;
    try (by destruct Hx as [[c ->]|[[msg ->]| ->]]); try (by destruct done).
Qed.

(** Past [wg.Wait()], every worker has run to its end. *)
Lemma Inv_all_done s :
  Inv s -> phase s <> Launching ->
  launched s = length insees /\ Forall (fun t => t = []) (workers s).
Proof.
  intros [Hw Hl Hwg Hph _ _ _ _ _ _] Hp. destruct (Hph Hp) as [Hlen Hwg0].
  split; [done|]. rewrite Hwg0 in Hwg.
  assert (Hdone : Forall (fun t => count_done t = 0%nat) (workers s))
    by (apply sum_list_with_zero; lia).
  clear -Hw Hdone. induction Hw as [|insee t l k (done & Hwk & Hp) _ IH]; [constructor|].
  apply Forall_cons in Hdone as [Ht Hk]. constructor; [|by apply IH].
  by apply (worker_suffix_done departements regions detail insee done t).
Qed.

Lemma Forall_nil_lookup (ws : list (list Event)) i ev t :
  Forall (fun t => t = []) ws -> ws !! i = Some (ev :: t) -> False.
Proof. intros Hall Hi. by eapply Forall_lookup_1 in Hall; [|exact Hi]. Qed.


Lemma closed_all_done s :
  reachable s ->
  closed (errorCh s) = true \/ closed (communeCh s) = true ->
  launched s = length insees /\ Forall (fun t => t = []) (workers s).
Proof.
  intros Hr Hcl. pose proof (reachable_Inv _ _ _ _ _ Hr) as HI.
  apply Inv_all_done; [done|].
  destruct HI as [_ _ _ _ Hce Hcc _ _ _ _]. intros E.
  destruct Hcl as [Hcl|Hcl]; [apply Hce in Hcl as [?|?]|apply Hcc in Hcl]; congruence.
Qed.

(** X2: a channel is closed only when every identifier has been launched
    and every worker has run to its end; in particular no worker is left
    to send on a closed channel. *)
Theorem closed_after_all_workers s :
  reachable s ->
  closed (errorCh s) = true \/ closed (communeCh s) = true ->
  launched s = length insees /\
  length (workers s) = length insees /\
  Forall (fun t => t = []) (workers s) /\
  wg s = 0.
Proof.
  intros Hr Hcl. pose proof (reachable_Inv _ _ _ _ _ Hr) as HI.
  destruct (closed_all_done s Hr Hcl) as [Hlen Hall].
  destruct HI as [Hw _ _ Hph Hce Hcc _ _ _ _].
  split; [done|]. split; [|split; [done|]].
  - apply Forall2_length in Hw. rewrite <- Hw, length_take. lia.
  - apply Hph. intros E.
    destruct Hcl as [Hcl|Hcl]; [apply Hce in Hcl as [?|?]|apply Hcc in Hcl]; congruence.
Qed.

Lemma crash_is_worker_panic_aux s lbl s' :
  reachable s -> step s lbl s' -> crashed s' = true ->
  exists i insee StatusCode cs,
    lbl = LWork i EvPanic /\
    insees !! i = Some insee /\
    detail (insee_Code insee) = decoded StatusCode cs /\
    StatusCode <> 404 /\
    length (g_Coordinates (cs_Geometry cs)) = 1%nat.
Proof.
  intros Hr Hstep Hcr. pose proof (reachable_Inv _ _ _ _ _ Hr) as HI.
  destruct Hstep; simpl in *; try discriminate.
  - (* a send on the closed result channel: no worker is left *)
    exfalso. destruct (closed_after_all_workers _ Hr) as (_ & _ & Hall & _); [by right|].
    eapply Forall_nil_lookup; [exact Hall|exact H].
  - exfalso. destruct (closed_after_all_workers _ Hr) as (_ & _ & Hall & _); [by left|].
    eapply Forall_nil_lookup; [exact Hall|exact H].
  - destruct HI as [Hw _ _ _ _ _ _ _ _ _]. simpl in Hw.
    destruct (Forall2_lookup_r _ _ _ _ _ Hw H) as (insee & Hi & done & Hwk & _).
    apply lookup_take_Some in Hi as [Hi _].
    assert (Hp : panics (worker insee) = true).
    { rewrite Hwk, panics_app. simpl. apply orb_true_r. }
    apply geoAPIGouvFr_panics in Hp as (StatusCode & cs & Hd & Hs & Hlen).
    by exists i, insee, StatusCode, cs.
Qed.

(** X3: the only step that crashes a run is the panic of a worker: no run
    sends on a closed channel.  A worker that panics is one whose lookup
    decoded, with a status other than 404, to a geometry of exactly one
    coordinate. *)
Theorem crash_is_worker_panic s lbl s' :
  reachable s -> step s lbl s' -> crashed s' = true ->
  exists i insee StatusCode cs,
    lbl = LWork i EvPanic /\
    insees !! i = Some insee /\
    detail (insee_Code insee) = decoded StatusCode cs /\
    StatusCode <> 404 /\
    length (g_Coordinates (cs_Geometry cs)) = 1%nat.
Proof. apply crash_is_worker_panic_aux. Qed.

(** X4: when no detail lookup decodes to a geometry of exactly one
    coordinate, no run crashes. *)
Theorem no_single_coordinate_no_crash s :
  (forall insee StatusCode cs,
     insee ∈ insees -> detail (insee_Code insee) = decoded StatusCode cs ->
     length (g_Coordinates (cs_Geometry cs)) <> 1%nat) ->
  reachable s -> crashed s = false.
Proof.
  intros Hok Hr. induction Hr as [|s lbl s' Hr IH Hstep]; [done|].
  destruct (crashed s') eqn:Hcr; [|done]. exfalso.
  destruct (crash_is_worker_panic_aux s lbl s' Hr Hstep Hcr)
    as (i & insee & StatusCode & cs' & _ & Hi & Hd & _ & Hlen).
  eapply Hok; [|exact Hd|exact Hlen]. by eapply list_elem_of_lookup_2.
Qed.

(** X5: the counter of the wait group is the number of workers launched
    that have not yet performed their [wg.Done()]; it is never negative
    and never exceeds the number of launches. *)
Theorem wg_counts_running_workers s :
  reachable s ->
  wg s = Z.of_nat (length (List.filter (fun t => negb (Nat.eqb (length t) 0)) (workers s))) /\
  0 <= wg s <= Z.of_nat (launched s).
Proof.
  intros Hr. apply reachable_Inv in Hr as [Hw _ Hwg _ _ _ _ _ _ _].
  assert (Hsum : sum_list_with count_done (workers s)
                 = length (List.filter (fun t => negb (Nat.eqb (length t) 0)) (workers s))).
  { clear -Hw. induction Hw as [|insee t l k (dn & Hwk & _) _ IH]; [reflexivity|].
    cbn [sum_list_with List.filter]. rewrite IH, (suffix_count_done insee dn t Hwk).
    by destruct t. }
  rewrite Hwg, Hsum. split; [done|].
  pose proof (List.filter_length_le (fun t => negb (Nat.eqb (length t) 0)) (workers s)).
  apply Forall2_length in Hw. rewrite length_take in Hw. lia.
Qed.

Lemma workers_all_done_or_not (ws : list (list Event)) :
  Forall (fun t => t = []) ws \/ exists i ev t, ws !! i = Some (ev :: t).
Proof.
  induction ws as [|[|ev t] ws IH].
  - left. constructor.
  - destruct IH as [IH|(i & ev & t & Hi)].
    + left. by constructor.
    + right. by exists (S i), ev, t.
  - right. by exists 0%nat, ev, t.
Qed.

Lemma sum_count_done_nil (ws : list (list Event)) :
  Forall (fun t => t = []) ws -> sum_list_with count_done ws = 0%nat.
Proof. induction 1 as [|t ws -> _ IH]; [done|]. simpl. lia. Qed.

(** X6: a run that has neither crashed nor brought the loop of the
    collector to its exit is never stuck: some goroutine can take a step
    other than a timer tick. *)
Theorem pipeline_never_stuck s :
  reachable s -> crashed s = false -> ~ finished s ->
  exists lbl s', step s lbl s' /\ is_tick lbl = false.
Proof.
  intros Hr Hcr Hfin. pose proof (reachable_Inv _ _ _ _ _ Hr) as HI.
  destruct HI as [Hw Hl Hwg Hph Hce Hcc _ _ Hcn Hen].
  destruct s as [l p w ws [bc clc] [be cle] col cr]. simpl in *. subst cr.
  unfold finished in Hfin. simpl in Hfin.
  (* a record waits in the result channel *)
  destruct bc as [|c bc].
  2:{ assert (Hlive : communeCh_live col = true).
      { destruct (communeCh_live col) eqn:E; [done|]. by destruct (Hcn eq_refl). }
      eexists _, _. split; [|shelve].
      eapply (step_recv_commune _ _ _ _ l p w ws c bc clc (mkChan be cle) col).
      unfold readCities_step, looping. rewrite Hlive. reflexivity. }
  (* a failure waits in the error channel *)
  destruct be as [|msg be].
  2:{ assert (Hlive : errorCh_live col = true).
      { destruct (errorCh_live col) eqn:E; [done|]. by destruct (Hen eq_refl). }
      eexists _, _. split; [|shelve].
      eapply (step_recv_error _ _ _ _ l p w ws (mkChan [] clc) msg be cle col).
      unfold readCities_step, looping. rewrite Hlive, orb_true_r. reflexivity. }
  (* a worker has something left to do *)
  destruct (workers_all_done_or_not ws) as [Hall|(i & ev & t & Hi)].
  2:{ destruct ev as [url|c|msg| |].
      - eexists _, _. split; [by eapply step_get|done].
      - destruct clc.
        + eexists _, _. split; [by eapply step_send_commune_closed|done].
        + eexists _, _. split; [|shelve].
          eapply step_send_commune; [exact Hi|]. unfold communeCh_cap. simpl. lia.
      - destruct cle.
        + eexists _, _. split; [by eapply step_send_error_closed|done].
        + eexists _, _. split; [|shelve].
          eapply step_send_error; [exact Hi|]. unfold errorCh_cap. simpl. lia.
      - eexists _, _. split; [by eapply step_panic|done].
      - eexists _, _. split; [by eapply step_done|done]. }
  (* the dispatcher or the collector goes on *)
  rewrite (sum_count_done_nil ws Hall) in Hwg. simpl in Hwg. subst w.
  destruct p.
  - destruct (decide (l = length insees)) as [->|Hne].
    + eexists _, _. split; [by eapply step_wait|done].
    + destruct (lookup_lt_is_Some_2 insees l) as [insee Hi]; [lia|].
      eexists _, _. split; [by eapply step_launch|done].
  - destruct cle.
    + exfalso. destruct Hce as [Hce _]. destruct (Hce eq_refl); discriminate.
    + eexists _, _. split; [by eapply step_close_error|done].
  - destruct clc.
    + exfalso. destruct Hcc as [Hcc _]. specialize (Hcc eq_refl). discriminate.
    + eexists _, _. split; [by eapply step_close_commune|done].
  - destruct Hcc as [_ Hcc]. specialize (Hcc eq_refl). subst clc.
    destruct Hce as [_ Hce]. specialize (Hce (or_intror eq_refl)). subst cle.
    destruct (communeCh_live col) eqn:Hlc.
    + eexists _, _. split; [|shelve].
      eapply (step_closed_commune _ _ _ _ l BothClosed 0 ws (mkChan [] true) col).
      unfold readCities_step, looping. rewrite Hlc. reflexivity.
    + destruct (errorCh_live col) eqn:Hle.
      * eexists _, _. split; [|shelve].
        eapply (step_closed_error _ _ _ _ l BothClosed 0 ws (mkChan [] true) col).
        unfold readCities_step, looping. rewrite Hlc, Hle. reflexivity.
      * exfalso. apply Hfin. unfold looping. by rewrite Hlc, Hle.
  Unshelve. all: done.
Qed.

Lemma sum_length_update (ws1 : list (list Event)) ev t ws2 :
  sum_list_with length (ws1 ++ (ev :: t) :: ws2)
  = S (sum_list_with length (ws1 ++ t :: ws2)).
Proof. rewrite !sum_list_with_app. simpl. lia. Qed.

(** Every step but a tick takes work away; a tick leaves it as it is. *)
Lemma step_remaining_work s lbl s' :
  step s lbl s' ->
  if is_tick lbl then remaining_work insees s' = remaining_work insees s
  else (remaining_work insees s' < remaining_work insees s)%nat.
Proof.
  intros Hstep. unfold remaining_work.
  destruct Hstep.
  1:{ cbn [launched phase wg workers communeCh errorCh collector crashed buf closed is_tick].
      apply lookup_lt_Some in H. rewrite sum_list_with_app. cbn [sum_list_with].
      rewrite worker_length. lia. }
  all: simpl;
    try match goal with
        | H : _ !! _ = Some (_ :: _) |- _ =>
            try (destruct (workers_update _ _ _ _ H) as (ws1 & ws2 & -> & ->);
                 rewrite sum_length_update)
        end;
    try match goal with
        | H : readCities_step _ _ = Some _ |- _ =>
            apply readCities_step_Some in H as (_ & Hc0 & He0 & -> & -> & _ & _);
            simpl in Hc0, He0; simpl;
            try rewrite (Hc0 eq_refl); try rewrite (He0 eq_refl);
            rewrite ?andb_true_r, ?andb_false_r
        end;
    rewrite ?length_app; simpl; try lia.
  all: destruct (communeCh_live col), (errorCh_live col); simpl; lia.
Qed.

(** X7: a run takes at most [7 * N + 6] steps that are not timer
    ticks, [N] being the number of identifiers. *)
Theorem run_work_bounded lbls s :
  run init lbls s ->
  (work_steps lbls <= 7 * length insees + 6)%nat.
Proof.
  assert (Hgen : forall s0 lbls s1, run s0 lbls s1 ->
            (work_steps lbls + remaining_work insees s1 <= remaining_work insees s0)%nat).
  { clear. induction 1 as [s0|s0 lbl s1 lbls s2 Hstep _ IH]; [simpl; lia|].
    apply step_remaining_work in Hstep. unfold work_steps in *. simpl.
    destruct (is_tick lbl); simpl; lia. }
  intros Hrun. apply Hgen in Hrun.
  unfold remaining_work at 2 in Hrun. simpl in Hrun. lia.
Qed.









End pipeline_more.

(** ** The same, on the run of one identifier *)

Lemma reachable_state_sent :
  reachable [] [] [mkInsee "75056"] (constant_detail cs_Paris) state_sent.
Proof. apply (run_sent cs_Paris c_Paris). reflexivity. Qed.

Lemma reachable_state_complete :
  reachable [] [] [mkInsee "75056"] (constant_detail cs_Paris) state_complete.
Proof. apply (run_complete cs_Paris c_Paris). reflexivity. Qed.


Lemma reachable_state_before_panic :
  reachable [] [] [mkInsee "75056"] (constant_detail cs_single) state_before_panic.
Proof.
  eapply reachable_step.
  - eapply reachable_step; [apply reachable_init|].
    apply (step_launch [] [] [mkInsee "75056"] (constant_detail cs_single)
             0%nat 0 [] (mkChan [] false) (mkChan [] false) Collector_init (mkInsee "75056")).
    reflexivity.
  - refine (step_get [] [] [mkInsee "75056"] _ 1%nat Launching
              (0 + 1) [[EvGet (detail_url "75056"); EvPanic; EvDone]]
              (mkChan [] false) (mkChan [] false) Collector_init 0%nat
              (detail_url "75056") [EvPanic; EvDone] _).
    reflexivity.
Qed.

Lemma step_state_crashed :
  step [] [] [mkInsee "75056"] (constant_detail cs_single)
    state_before_panic (LWork 0 EvPanic) state_crashed.
Proof.
  refine (step_panic [] [] [mkInsee "75056"] _ 1%nat Launching 1 [[EvPanic; EvDone]]
            (mkChan [] false) (mkChan [] false) Collector_init 0%nat [EvDone] _).
  reflexivity.
Qed.


Lemma closed_after_all_workers_witness :
  reachable [] [] [mkInsee "75056"] (constant_detail cs_Paris) state_complete /\
  (closed (errorCh state_complete) = true \/ closed (communeCh state_complete) = true) /\
  launched state_complete = length [mkInsee "75056"] /\
  length (workers state_complete) = length [mkInsee "75056"] /\
  Forall (fun t => t = []) (workers state_complete) /\
  wg state_complete = 0.
Proof.
  split; [exact reachable_state_complete|]. split; [left; reflexivity|].
  exact (closed_after_all_workers [] [] [mkInsee "75056"] (constant_detail cs_Paris)
           state_complete reachable_state_complete (or_introl eq_refl)).
Defined.

Lemma crash_is_worker_panic_witness :
  reachable [] [] [mkInsee "75056"] (constant_detail cs_single) state_before_panic /\
  step [] [] [mkInsee "75056"] (constant_detail cs_single)
    state_before_panic (LWork 0 EvPanic) state_crashed /\
  crashed state_crashed = true /\
  exists i insee StatusCode cs,
    LWork 0 EvPanic = LWork i EvPanic /\
    [mkInsee "75056"] !! i = Some insee /\
    constant_detail cs_single (insee_Code insee) = decoded StatusCode cs /\
    StatusCode <> 404 /\
    length (g_Coordinates (cs_Geometry cs)) = 1%nat.
Proof.
  split; [exact reachable_state_before_panic|]. split; [exact step_state_crashed|].
  split; [reflexivity|].
  exact (crash_is_worker_panic [] [] [mkInsee "75056"] (constant_detail cs_single)
           state_before_panic (LWork 0 EvPanic) state_crashed
           reachable_state_before_panic step_state_crashed eq_refl).
Defined.

Lemma no_single_coordinate_witness_hyp :
  forall insee StatusCode cs,
    insee ∈ [mkInsee "75056"] ->
    constant_detail cs_Paris (insee_Code insee) = decoded StatusCode cs ->
    length (g_Coordinates (cs_Geometry cs)) <> 1%nat.
Proof.
  intros insee StatusCode cs _ Heq. unfold constant_detail, decoded in Heq.
  injection Heq as _ <-. discriminate.
Qed.

Lemma no_single_coordinate_no_crash_witness :
  (forall insee StatusCode cs,
     insee ∈ [mkInsee "75056"] ->
     constant_detail cs_Paris (insee_Code insee) = decoded StatusCode cs ->
     length (g_Coordinates (cs_Geometry cs)) <> 1%nat) /\
  reachable [] [] [mkInsee "75056"] (constant_detail cs_Paris) state_sent /\
  crashed state_sent = false.
Proof.
  split; [exact no_single_coordinate_witness_hyp|]. split; [exact reachable_state_sent|].
  exact (no_single_coordinate_no_crash [] [] [mkInsee "75056"] (constant_detail cs_Paris)
           state_sent no_single_coordinate_witness_hyp reachable_state_sent).
Defined.

Lemma wg_counts_running_workers_witness :
  reachable [] [] [mkInsee "75056"] (constant_detail cs_Paris) state_sent /\
  wg state_sent
  = Z.of_nat (length (List.filter (fun t => negb (Nat.eqb (length t) 0)) (workers state_sent))) /\
  0 <= wg state_sent <= Z.of_nat (launched state_sent).
Proof.
  split; [exact reachable_state_sent|].
  exact (wg_counts_running_workers [] [] [mkInsee "75056"] (constant_detail cs_Paris)
           state_sent reachable_state_sent).
Defined.

Lemma pipeline_never_stuck_witness :
  reachable [] [] [mkInsee "75056"] (constant_detail cs_Paris) state_sent /\
  crashed state_sent = false /\ ~ finished state_sent /\
  exists lbl s', step [] [] [mkInsee "75056"] (constant_detail cs_Paris) state_sent lbl s' /\
                 is_tick lbl = false.
Proof.
  assert (Hnf : ~ finished state_sent) by (unfold finished; simpl; discriminate).
  split; [exact reachable_state_sent|]. split; [reflexivity|]. split; [exact Hnf|].
  exact (pipeline_never_stuck [] [] [mkInsee "75056"] (constant_detail cs_Paris)
           state_sent reachable_state_sent eq_refl Hnf).
Defined.

Lemma run_launch :
  run [] [] [mkInsee "75056"] (constant_detail cs_Paris) init [LLaunch 0]
    (mkState 1 Launching (0 + 1)
       ([] ++ [Pipeline.worker [] [] (constant_detail cs_Paris) (mkInsee "75056")])
       (mkChan [] false) (mkChan [] false) Collector_init false).
Proof.
  eapply run_cons; [|apply run_nil].
  apply (step_launch [] [] [mkInsee "75056"] (constant_detail cs_Paris)
           0%nat 0 [] (mkChan [] false) (mkChan [] false) Collector_init (mkInsee "75056")).
  reflexivity.
Qed.

Lemma run_work_bounded_witness :
  run [] [] [mkInsee "75056"] (constant_detail cs_Paris) init [LLaunch 0]
    (mkState 1 Launching (0 + 1)
       ([] ++ [Pipeline.worker [] [] (constant_detail cs_Paris) (mkInsee "75056")])
       (mkChan [] false) (mkChan [] false) Collector_init false) /\
  (work_steps [LLaunch 0] <= 7 * length [mkInsee "75056"] + 6)%nat.
Proof.
  split; [exact run_launch|].
  exact (run_work_bounded [] [] [mkInsee "75056"] (constant_detail cs_Paris) _ _ run_launch).
Defined.





(** ** Decimal postal codes: what the comparator reads in them *)

Lemma digit_cases d : 0 <= d <= 9 ->
  d = 0 \/ d = 1 \/ d = 2 \/ d = 3 \/ d = 4 \/ d = 5 \/ d = 6 \/ d = 7 \/ d = 8 \/ d = 9.
Proof. lia. Qed.

Lemma digit_digit_char d : 0 <= d <= 9 -> GoStrconv.digit (digit_char d) = Some d.
Proof.
  intros Hd. destruct (digit_cases d Hd) as [->|[->|[->|[->|[->|[->|[->|[->|[->| ->]]]]]]]]];
    reflexivity.
Qed.

Lemma digit_char_not_sign d : 0 <= d <= 9 ->
  Ascii.eqb (digit_char d) "+"%char = false /\ Ascii.eqb (digit_char d) "-"%char = false.
Proof.
  intros Hd. destruct (digit_cases d Hd) as [->|[->|[->|[->|[->|[->|[->|[->|[->| ->]]]]]]]]];
    split; reflexivity.
Qed.

Lemma digit_char_zero d : 0 <= d <= 9 ->
  GoStrings.contains_byte "0" (digit_char d) = (d =? 0).
Proof.
  intros Hd. destruct (digit_cases d Hd) as [->|[->|[->|[->|[->|[->|[->|[->|[->| ->]]]]]]]]];
    reflexivity.
Qed.

Lemma horner_ge ds : forall n, 0 <= n -> is_digits ds -> n <= foldl (fun n d => n * 10 + d) n ds.
Proof.
  induction ds as [|d ds IH]; intros n Hn Hds; simpl; [lia|].
  apply Forall_cons in Hds as [Hd Hds].
  specialize (IH (n * 10 + d) ltac:(lia) Hds). lia.
Qed.

(** Leading zeros are trimmed, and do not change the number. *)
Lemma TrimLeft_digits ds :
  is_digits ds ->
  exists ds', GoStrings.TrimLeft (digits_string ds) "0" = digits_string ds' /\
              is_digits ds' /\ decimal ds' = decimal ds /\
              match ds' with [] => True | d :: _ => 1 <= d end.
Proof.
  induction 1 as [|d ds Hd Hds IH].
  - exists []. repeat split. constructor.
  - cbn [digits_string GoStrings.TrimLeft]. rewrite digit_char_zero by done.
    destruct (Z.eqb_spec d 0) as [->|Hne].
    + destruct IH as (ds' & -> & H1 & H2 & H3). exists ds'. repeat split; try done.
    + exists (d :: ds). repeat split; [by constructor|lia].
Qed.

(** The digit loop of [ParseUint]: the number, unless it exceeds
    [maxUint64]. *)
Lemma ParseUint_loop_digits ds : forall n,
  is_digits ds -> 0 <= n <= GoStrconv.maxUint64 ->
  GoStrconv.ParseUint_loop (digits_string ds) n
  = if foldl (fun n d => n * 10 + d) n ds <=? GoStrconv.maxUint64
    then inl (foldl (fun n d => n * 10 + d) n ds) else inr GoStrconv.ErrRange.
Proof.
  assert (Hmax : GoStrconv.maxUint64 = 18446744073709551615) by reflexivity.
  assert (Hcut : GoStrconv.cutoff10 = 1844674407370955162) by reflexivity.
  induction ds as [|d ds IH]; intros n Hds Hn.
  - simpl. destruct (Z.leb_spec n GoStrconv.maxUint64); [done|lia].
  - apply Forall_cons in Hds as [Hd Hds].
    cbn [digits_string GoStrconv.ParseUint_loop foldl]. rewrite digit_digit_char by done.
    pose proof (horner_ge ds (n * 10 + d) ltac:(lia) Hds) as Hge.
    destruct (Z.leb_spec GoStrconv.cutoff10 n) as [Hc|Hc].
    { destruct (Z.leb_spec (foldl (fun n d => n * 10 + d) (n * 10 + d) ds)
                  GoStrconv.maxUint64); [lia|done]. }
    cbv zeta. destruct (Z.ltb_spec GoStrconv.maxUint64 (n * 10 + d)) as [Ho|Ho].
    { destruct (Z.leb_spec (foldl (fun n d => n * 10 + d) (n * 10 + d) ds)
                  GoStrconv.maxUint64); [lia|done]. }
    apply IH; [done|lia].
Qed.

(** X12: the value the comparator reads in a first postal code made of
    decimal digits is the number these digits denote, leading zeros
    included, when this number is positive and fits a signed 64-bit
    integer; otherwise the code has no value: all zeros, or too large. *)
Theorem leading_value_decimal nom ds rest :
  is_digits ds ->
  leading_value (commune nom (digits_string ds :: rest))
  = if (0 <? decimal ds) && (decimal ds <? 2 ^ 63) then Some (decimal ds) else None.
Proof.
  intros Hds. unfold leading_value. cbn [commune c_CodesPostaux].
  destruct (TrimLeft_digits ds Hds) as (ds' & -> & Hds' & <- & Hhead).
  destruct ds' as [|d ds'].
  - reflexivity.
  - pose proof Hds' as Hall. apply Forall_cons in Hds' as [Hd Hrest].
    assert (Hpos : 1 <= decimal (d :: ds')).
    { cbn beta iota in Hhead. unfold decimal. cbn [foldl].
      pose proof (horner_ge ds' (0 * 10 + d) ltac:(lia) Hrest). lia. }
    destruct (Z.ltb_spec 0 (decimal (d :: ds'))) as [_|?]; [|lia]. cbn [andb].
    unfold GoStrconv.ParseInt10. cbn [digits_string].
    destruct (digit_char_not_sign d Hd) as [-> ->].
    change (String (digit_char d) (digits_string ds')) with (digits_string (d :: ds')).
    unfold GoStrconv.ParseUint10.
    replace (match digits_string (d :: ds') with
             | EmptyString => inr GoStrconv.ErrSyntax
             | String _ _ => GoStrconv.ParseUint_loop (digits_string (d :: ds')) 0
             end) with (GoStrconv.ParseUint_loop (digits_string (d :: ds')) 0) by reflexivity.
    rewrite ParseUint_loop_digits by (done || (unfold GoStrconv.maxUint64; lia)).
    fold (decimal (d :: ds')).
    assert (Hmax : GoStrconv.maxUint64 = 18446744073709551615) by reflexivity.
    destruct (Z.leb_spec (decimal (d :: ds')) GoStrconv.maxUint64) as [Hle|Hgt].
    + cbn [negb andb]. destruct (Z.leb_spec (2 ^ 63) (decimal (d :: ds'))) as [Hbig|Hsmall].
      * destruct (Z.ltb_spec (decimal (d :: ds')) (2 ^ 63)); [lia|done].
      * destruct (Z.ltb_spec (decimal (d :: ds')) (2 ^ 63)); [done|lia].
    + destruct (Z.ltb_spec (decimal (d :: ds')) (2 ^ 63)); [lia|done].
Qed.

Lemma leading_value_decimal_witness :
  is_digits [0; 1; 0; 0; 0] /\
  leading_value (commune "Bourg-en-Bresse" (digits_string [0; 1; 0; 0; 0] :: []))
  = if (0 <? decimal [0; 1; 0; 0; 0]) && (decimal [0; 1; 0; 0; 0] <? 2 ^ 63)
    then Some (decimal [0; 1; 0; 0; 0]) else None.
Proof.
  assert (H : is_digits [0; 1; 0; 0; 0]) by (repeat constructor; lia).
  split; [exact H|]. exact (leading_value_decimal "Bourg-en-Bresse" [0; 1; 0; 0; 0] [] H).
Defined.

Example digits_string_01000 : digits_string [0; 1; 0; 0; 0] = "01000".
Proof. reflexivity. Qed.

(** ** [sort.SliceStable] on at most twenty elements, some of them
    without key

    A slice of at most twenty elements is one block: the stable sort is
    the insertion sort alone.  The comparator of [readCities] answers
    [true] whenever one of the two records has no leading value; [P]
    holds of the elements that have a key. *)

Section small_slices.
Context {A : Type} (less : A -> A -> bool) (key : A -> Z).
Context (P : A -> Prop) `{!forall x, Decision (P x)}.
Hypothesis Hless : forall x y, P x -> P y -> less x y = (key x <? key y).
Hypothesis Hbad : forall x y, ~ (P x /\ P y) -> less x y = true.
Implicit Types (pre post L R T : list A) (x y : A).

Local Open Scope nat_scope.

(** The inner loop moves an element without key to the front of the
    block, and an element with a key to the left of the keyed elements
    that are greater, until it meets a keyed element that is not. *)
Lemma insertionSort_inner_any L : forall pre x post,
  ksorted key (filter P L) ->
  exists L1 L2,
    L = L1 ++ L2 /\
    insertionSort_inner less (pre ++ L ++ x :: post) (length pre) (length pre + length L)
    = pre ++ L1 ++ x :: L2 ++ post /\
    (P x -> (forall y, y ∈ L1 -> P y -> (key y <= key x)%Z) /\
            (forall y, y ∈ L2 -> P y -> (key x < key y)%Z)) /\
    (~ P x -> L1 = []).
Proof.
  induction L as [|y L IH] using rev_ind; intros pre x post Hs.
  - exists [], []. split; [done|]. split.
    + simpl. rewrite Nat.add_0_r. destruct (length pre) as [|n]; [done|].
      cbn [insertionSort_inner]. by rewrite Nat.ltb_irrefl.
    + split; [|done]. intros _. split; intros z Hz; inversion Hz.
  - rewrite filter_app in Hs. apply ksorted_app in Hs as (HsL & _ & HLy).
    replace (length pre + length (L ++ [y])) with (S (length (pre ++ L)))
      by (rewrite !length_app; simpl; lia).
    replace (pre ++ (L ++ [y]) ++ x :: post) with ((pre ++ L) ++ y :: x :: post)
      by (by rewrite <- !app_assoc).
    cbn [insertionSort_inner].
    replace (length pre <? S (length (pre ++ L))) with true
      by (symmetry; apply Nat.ltb_lt; rewrite length_app; lia).
    rewrite Less_adjacent. cbn [andb].
    destruct (less x y) eqn:Hxy.
    + rewrite Swap_adjacent.
      replace ((pre ++ L) ++ x :: y :: post) with (pre ++ L ++ x :: (y :: post))
        by (by rewrite <- !app_assoc).
      rewrite length_app.
      destruct (IH pre x (y :: post) HsL) as (L1 & L2 & -> & -> & H1 & H2).
      exists L1, (L2 ++ [y]). split; [by rewrite <- app_assoc|].
      split; [by rewrite <- !app_assoc|]. split; [|done].
      intros Hx. destruct (H1 Hx) as [Hle Hlt]. split; [done|].
      intros z [Hz|Hz%list_elem_of_singleton]%elem_of_app Hpz; [by apply Hlt|].
      subst z. rewrite (Hless x y Hx Hpz) in Hxy. by apply Z.ltb_lt in Hxy.
    + destruct (decide (P x /\ P y)) as [[Hx Hy]|Hn];
        [|by rewrite (Hbad x y Hn) in Hxy].
      rewrite (Hless x y Hx Hy) in Hxy. apply Z.ltb_ge in Hxy.
      exists (L ++ [y]), []. split; [by rewrite app_nil_r|].
      split; [by rewrite <- !app_assoc|]. split; [|done].
      intros _. split; [|intros z Hz; inversion Hz].
      intros z [Hz|Hz%list_elem_of_singleton]%elem_of_app Hpz; [|subst z; lia].
      assert (key z <= key y)%Z; [|lia].
      apply HLy; [by apply list_elem_of_filter|].
      apply list_elem_of_filter. split; [done|]. by apply list_elem_of_singleton.
Qed.

Lemma insertionSort_loop_any T : forall R pre post l,
  stable_sorted key (filter P l) (filter P R) ->
  filter (fun x => ~ P x) R = reverse (filter (fun x => ~ P x) l) ->
  exists R',
    foldl (fun data i => insertionSort_inner less data (length pre) i)
          (pre ++ R ++ T ++ post) (seq (length pre + length R) (length T))
    = pre ++ R' ++ post /\
    stable_sorted key (filter P (l ++ T)) (filter P R') /\
    filter (fun x => ~ P x) R' = reverse (filter (fun x => ~ P x) (l ++ T)).
Proof.
  induction T as [|x T IH]; intros R pre post l HR HN.
  - exists R. simpl. by rewrite !app_nil_r.
  - cbn [length seq foldl].
    replace (pre ++ R ++ (x :: T) ++ post) with (pre ++ R ++ x :: (T ++ post)) by done.
    destruct (insertionSort_inner_any R pre x (T ++ post) (proj1 HR))
      as (L1 & L2 & -> & -> & H1 & H2).
    destruct (IH (L1 ++ x :: L2) pre post (l ++ [x])) as (R' & HR' & Hst & Hrev).
    + rewrite !filter_app, filter_cons. rewrite filter_app in HR.
      destruct (decide (P x)) as [Hx|Hx].
      * rewrite filter_cons_True, filter_nil by done. destruct (H1 Hx) as [Hle Hlt].
        apply stable_sorted_insert; [done|..].
        -- intros y [Hy ?]%list_elem_of_filter. by apply Hle.
        -- intros y [Hy ?]%list_elem_of_filter. by apply Hlt.
      * rewrite filter_cons_False, filter_nil, app_nil_r by done. done.
    + rewrite !filter_app, filter_cons. rewrite filter_app in HN.
      destruct (decide (~ P x)) as [Hx|Hx].
      * rewrite (H2 Hx) in HN |- *. rewrite filter_cons_True, !filter_nil by done.
        rewrite reverse_app. simpl in *. by rewrite HN.
      * rewrite filter_cons_False, filter_nil, app_nil_r by done. done.
    + exists R'. split; [|split].
      * rewrite <- HR'. f_equal.
        -- by rewrite <- !app_assoc.
        -- rewrite !length_app. simpl. f_equal. lia.
      * by rewrite <- app_assoc in Hst.
      * by rewrite <- app_assoc in Hrev.
Qed.

(** The insertion sort of a whole slice: the keyed elements come out
    sorted stably among themselves, the others in the reverse of their
    order. *)
Lemma insertionSort_func_any S :
  stable_sorted key (filter P S) (filter P (insertionSort_func less S 0 (length S))) /\
  filter (fun x => ~ P x) (insertionSort_func less S 0 (length S))
  = reverse (filter (fun x => ~ P x) S).
Proof.
  unfold insertionSort_func. destruct S as [|s T].
  - simpl. split; [|done]. apply stable_sorted_refl, ksorted_nil.
  - replace (length (s :: T) - (0 + 1)) with (length T) by (simpl; lia).
    destruct (insertionSort_loop_any T [s] [] [] [s]) as (R' & HR' & Hst & Hrev).
    { apply stable_sorted_refl. rewrite filter_cons, filter_nil.
      destruct (decide (P s)); [apply ksorted_singleton|apply ksorted_nil]. }
    { rewrite filter_cons, filter_nil. by destruct (decide (~ P s)). }
    simpl in HR'. rewrite app_nil_r in HR'. simpl. rewrite app_nil_r in HR'.
    rewrite HR'. done.
Qed.

Lemma stable_blocks_eq fuel data bs a b n :
  stable_blocks less fuel data bs a b n
  = if b <=? n then
      match fuel with
      | O => None
      | S fuel' => stable_blocks less fuel' (insertionSort_func less data a b) bs b (b + bs) n
      end
    else Some (insertionSort_func less data a n).
Proof. by destruct fuel. Qed.

Lemma stable_merges_eq fuel data bs n :
  stable_merges less fuel data bs n
  = if bs <? n then
      match fuel with
      | O => None
      | S fuel' =>
          data ← stable_pass less n data bs 0 (2 * bs) n;
          stable_merges less fuel' data (bs * 2) n
      end
    else Some data.
Proof. by destruct fuel. Qed.

(** On at most twenty elements [sort.SliceStable] is one insertion
    sort. *)
Lemma SliceStable_small (l : list A) :
  length l <= 20 ->
  SliceStable less l = Some (insertionSort_func less l 0 (length l)).
Proof.
  intros Hn. unfold SliceStable, stable_func. cbv zeta.
  destruct (decide (length l = 20)) as [E|E].
  - rewrite E. rewrite stable_blocks_eq.
    replace (20 <=? 20) with true by done.
    rewrite stable_blocks_eq. replace (20 + 20 <=? 20) with false by done.
    cbn [mbind option_bind]. rewrite stable_merges_eq.
    replace (20 <? 20) with false by done.
    reflexivity.
  - rewrite stable_blocks_eq.
    replace (20 <=? length l) with false by (symmetry; apply Nat.leb_gt; lia).
    cbn [mbind option_bind]. rewrite stable_merges_eq.
    by replace (20 <? length l) with false by (symmetry; apply Nat.ltb_ge; lia).
Qed.

End small_slices.

Lemma less_malformed x y :
  ~ (is_Some (leading_value x) /\ is_Some (leading_value y)) -> less x y = true.
Proof.
  intros H. rewrite less_leading_value.
  destruct (leading_value x) as [o|]; [|done].
  destruct (leading_value y) as [k|]; [|done].
  exfalso. apply H. split; eauto.
Qed.

(** X13: when the loop of [readCities] has exited with at most twenty
    records received, whatever they are, the function returns; among the
    records returned, those with a leading value are in non-decreasing
    order of value, records of the same value in their order of
    reception, and those without leading value are in the reverse of
    their order of reception. *)
Theorem few_records_valid_ordered evs st :
  readCities_loop Collector_init evs = Some st -> looping st = false ->
  (length (received_communes evs) <= 20)%nat ->
  exists out,
    readCities evs = Some out /\
    stable_sorted (fun c => default 0 (leading_value c))
      (filter (fun c => is_Some (leading_value c)) (received_communes evs))
      (filter (fun c => is_Some (leading_value c)) out) /\
    filter (fun c => ~ is_Some (leading_value c)) out
    = reverse (filter (fun c => ~ is_Some (leading_value c)) (received_communes evs)).
Proof.
  intros Hloop Hexit Hn.
  pose proof (readCities_loop_Some _ _ _ Hloop) as (_ & _ & Hcs & _). simpl in Hcs.
  exists (GoSort.insertionSort_func less (received_communes evs) 0
            (length (received_communes evs))).
  split.
  - unfold readCities. rewrite Hloop. cbn [mbind option_bind]. rewrite Hexit, Hcs.
    by apply SliceStable_small.
  - apply (insertionSort_func_any less _ _ less_valid less_malformed).
Qed.

Lemma few_records_valid_ordered_witness :
  let A := commune "Paris" ["75001"] in
  let M := commune "sans" [] in
  let B := commune "Marseille" ["13001"] in
  let N := commune "zero" ["00000"] in
  let evs := [RecvCommune A; RecvCommune M; RecvCommune B; RecvCommune N;
              ClosedCommune; ClosedError] in
  readCities evs = Some [N; B; M; A] /\
  exists out,
    readCities evs = Some out /\
    stable_sorted (fun c => default 0 (leading_value c))
      (filter (fun c => is_Some (leading_value c)) (received_communes evs))
      (filter (fun c => is_Some (leading_value c)) out) /\
    filter (fun c => ~ is_Some (leading_value c)) out
    = reverse (filter (fun c => ~ is_Some (leading_value c)) (received_communes evs)).
Proof.
  intros A M B N evs. split; [reflexivity|].
  apply (few_records_valid_ordered evs (mkCollector false false [A; M; B; N] 4 [] []));
    [reflexivity|reflexivity|simpl; lia].
Defined.

(** ** The counter and the progress lines of [readCities] *)

Lemma readCities_loop_progress evs : forall st st',
  readCities_loop st evs = Some st' ->
  communeCounter st' = communeCounter st + Z.of_nat (length (received_communes evs)) /\
  progress st' = progress st ++ records_before_ticks (communeCounter st) evs.
Proof.
  induction evs as [|ev evs IH]; intros st st'; simpl.
  - intros [= <-]. rewrite app_nil_r. split; [lia|done].
  - destruct (readCities_step st ev) as [st1|] eqn:Hstep; simpl; [|done].
    intros Hloop. apply IH in Hloop as [Hn Hp].
    unfold readCities_step in Hstep.
    destruct (negb (looping st)); [done|].
    destruct ev; simpl.
    + destruct (communeCh_live st); [|done]. injection Hstep as <-. simpl in *.
      split; [lia|done].
    + destruct (communeCh_live st); [|done]. injection Hstep as <-. simpl in *. done.
    + destruct (errorCh_live st); [|done]. injection Hstep as <-. simpl in *. done.
    + destruct (errorCh_live st); [|done]. injection Hstep as <-. simpl in *. done.
    + injection Hstep as <-. simpl in *. split; [done|]. by rewrite Hp, <- app_assoc.
Qed.

Lemma records_before_ticks_bounds evs : forall n x,
  x ∈ records_before_ticks n evs ->
  n <= x <= n + Z.of_nat (length (received_communes evs)).
Proof.
  induction evs as [|ev evs IH]; intros n x; simpl; [by intros ?%elem_of_nil|].
  destruct ev; simpl; intros Hx.
  - apply IH in Hx. lia.
  - by apply IH.
  - by apply IH.
  - by apply IH.
  - apply elem_of_cons in Hx as [->|Hx]; [lia|by apply IH].
Qed.

Lemma records_before_ticks_mono evs : forall n (i j : nat) a b,
  (i <= j)%nat ->
  records_before_ticks n evs !! i = Some a -> records_before_ticks n evs !! j = Some b ->
  a <= b.
Proof.
  induction evs as [|ev evs IH]; intros n i j a b Hij; simpl; [done|].
  destruct ev; simpl; try apply IH; try done.
  destruct i as [|i], j as [|j]; simpl; try lia.
  - intros [= <-] [= <-]. lia.
  - intros [= <-] Hb. apply list_elem_of_lookup_2, records_before_ticks_bounds in Hb. lia.
  - apply IH. lia.
Qed.

(** X14: along any sequence of select cases the loop of [readCities]
    goes through, the counter is the number of records accumulated; the
    line printed at each tick carries the number of records received
    before that tick; these numbers never decrease from one line to the
    next and never exceed the number of records held at the end. *)
Theorem progress_counts_received evs st :
  readCities_loop Collector_init evs = Some st ->
  communeCounter st = Z.of_nat (length (communes st)) /\
  progress st = records_before_ticks 0 evs /\
  (forall (i j : nat) a b, (i <= j)%nat ->
     progress st !! i = Some a -> progress st !! j = Some b ->
     0 <= a /\ a <= b /\ b <= Z.of_nat (length (communes st))).
Proof.
  intros Hloop.
  pose proof (readCities_loop_Some _ _ _ Hloop) as (_ & _ & Hcs & _).
  pose proof (readCities_loop_progress _ _ _ Hloop) as [Hn Hp].
  simpl in Hcs, Hn, Hp. rewrite Hcs, Hn, Hp.
  split; [done|]. split; [done|].
  intros i j a b Hij Ha Hb.
  pose proof (records_before_ticks_mono _ _ _ _ _ _ Hij Ha Hb).
  apply list_elem_of_lookup_2, records_before_ticks_bounds in Ha, Hb. lia.
Qed.

Lemma progress_counts_received_witness :
  let evs := [Tick; RecvCommune c_Paris; RecvError "01001"; Tick; RecvCommune c_Paris;
              ClosedCommune; Tick; ClosedError] in
  let st := mkCollector false false [c_Paris; c_Paris] 2 ["01001"] [0; 1; 2] in
  readCities_loop Collector_init evs = Some st /\
  communeCounter st = Z.of_nat (length (communes st)) /\
  progress st = records_before_ticks 0 evs /\
  (forall (i j : nat) a b, (i <= j)%nat ->
     progress st !! i = Some a -> progress st !! j = Some b ->
     0 <= a /\ a <= b /\ b <= Z.of_nat (length (communes st))).
Proof.
  intros evs st. split; [reflexivity|].
  apply (progress_counts_received evs st). reflexivity.
Defined.

(** X15: once both channels have been seen closed, [readCities]
    returns, whatever the records received, with or without postal
    codes; the sequence returned holds each record received exactly as
    many times as it was received, and nothing else. *)
Theorem readCities_returns_received evs st :
  readCities_loop Collector_init evs = Some st ->
  ClosedCommune ∈ evs -> ClosedError ∈ evs ->
  exists out, readCities evs = Some out /\ out ≡ₚ received_communes evs.
Proof.
  intros Hloop Hc He. apply (readCities_total evs st Hloop).
  pose proof (readCities_loop_Some _ _ _ Hloop) as (Hcl & Hel & _).
  apply existsb_is_ClosedCommune in Hc. apply existsb_is_ClosedError in He.
  unfold looping. rewrite Hcl, Hel, Hc, He. done.
Qed.

Lemma readCities_returns_received_witness :
  let M := commune "sans" [] in
  let evs := [RecvCommune M; RecvCommune c_Paris; RecvCommune M;
              ClosedError; ClosedCommune] in
  ClosedCommune ∈ evs /\ ClosedError ∈ evs /\
  exists out, readCities evs = Some out /\ out ≡ₚ received_communes evs.
Proof.
  intros M evs.
  assert (Hc : ClosedCommune ∈ evs) by (unfold evs; repeat constructor).
  assert (He : ClosedError ∈ evs) by (unfold evs; repeat constructor).
  split; [exact Hc|]. split; [exact He|].
  apply (readCities_returns_received evs (mkCollector false false [M; c_Paris; M] 3 [] []));
    [reflexivity|exact Hc|exact He].
Defined.

(** ** The document of [writeIntoJSON] *)

Lemma map_inj {X Y : Type} (f : X -> Y) :
  (forall x y, f x = f y -> x = y) -> forall l1 l2, map f l1 = map f l2 -> l1 = l2.
Proof.
  intros Hf. induction l1 as [|x l1 IH]; intros [|y l2]; simpl; try done.
  intros [= Hxy Hl]. f_equal; [by apply Hf|by apply IH].
Qed.

Lemma marshal_slice_inj {X : Type} (f : X -> JSON) :
  (forall x y, f x = f y -> x = y) ->
  forall l1 l2, marshal_slice f l1 = marshal_slice f l2 -> l1 = l2.
Proof.
  intros Hf [|x l1] [|y l2]; simpl; try done.
  intros [= Hxy Hl]. f_equal; [by apply Hf|by apply (map_inj f Hf)].
Qed.

Lemma marshal_Commune_inj c1 c2 : marshal_Commune c1 = marshal_Commune c2 -> c1 = c2.
Proof.
  destruct c1 as [n1 d1 r1 p1 l1], c2 as [n2 d2 r2 p2 l2].
  unfold marshal_Commune, omitempty. simpl.
  destruct (String.eqb_spec d1 ""), (String.eqb_spec d2 ""),
           (String.eqb_spec r1 ""), (String.eqb_spec r2 "");
    simpl; intros H; simplify_eq;
    match goal with
    | Hp : marshal_slice JString _ = marshal_slice JString _,
      Ht : loc_Type _ = loc_Type _,
      Hc : marshal_slice JNumber _ = marshal_slice JNumber _ |- _ =>
        apply (marshal_slice_inj JString) in Hp; [|by intros x y [= ->]];
        apply (marshal_slice_inj JNumber) in Hc; [|by intros x y [= ->]];
        destruct l1, l2; simpl in *; by subst
    end.
Qed.

(** X16: the document handed to the file writer determines the
    sequence of records: two different sequences never give the same
    document.  Leaving out an empty departement or region, and writing
    [null] for a record without postal codes or without coordinates,
    loses nothing. *)
Theorem writeIntoJSON_inj cs1 cs2 :
  writeIntoJSON cs1 = writeIntoJSON cs2 -> cs1 = cs2.
Proof. apply (marshal_slice_inj marshal_Commune), marshal_Commune_inj. Qed.

Lemma writeIntoJSON_inj_witness :
  writeIntoJSON [commune "sans" []; c_Paris] = writeIntoJSON [commune "sans" []; c_Paris] /\
  [commune "sans" []; c_Paris] = [commune "sans" []; c_Paris].
Proof.
  split; [reflexivity|].
  apply (writeIntoJSON_inj [commune "sans" []; c_Paris] [commune "sans" []; c_Paris]).
  reflexivity.
Defined.

(** ** The start of [communesWorker] *)

(** X17: [communesWorker] gets past its three fetches exactly when
    the body of each of the three listings was read and decoded without
    error, whatever the status codes of the three responses; the tables
    it then works with are the three decoded lists. *)
Theorem communesWorker_start_started ri rd rr insees departements regions :
  snd (communesWorker_start ri rd rr) = Started insees departements regions <->
  exists si sd sr,
    ri = ListUnmarshal si insees None /\
    rd = ListUnmarshal sd departements None /\
    rr = ListUnmarshal sr regions None.
Proof.
  unfold communesWorker_start, fetchCodeInsee, fetchDepartements, fetchRegions, fetch.
  split.
  - destruct ri as [?|? ?|si i [?|]]; simpl; try done.
    destruct rd as [?|? ?|sd d [?|]]; simpl; try done.
    destruct rr as [?|? ?|sr r [?|]]; simpl; try done.
    intros [= -> -> ->]. by exists si, sd, sr.
  - intros (si & sd & sr & -> & -> & ->). reflexivity.
Qed.

(** X18: when one of the three fetches returns an error, the process
    ends with the error of the first listing that failed, in the order
    identifiers, departements, regions, and the listings after that one
    are never requested. *)
Theorem communesWorker_start_fatal ri rd rr err :
  snd (communesWorker_start ri rd rr) = Fatal err ->
  exists k : nat,
    [list_error ri; list_error rd; list_error rr] !! k = Some (Some err) /\
    (forall j : nat, (j < k)%nat ->
       [list_error ri; list_error rd; list_error rr] !! j = Some None) /\
    fst (communesWorker_start ri rd rr)
    = take (S k) [url_communes; url_departements; url_regions].
Proof.
  unfold communesWorker_start, fetchCodeInsee, fetchDepartements, fetchRegions, list_error.
  destruct (fetch ri) as [i [ei|]] eqn:Ei; simpl.
  { intros [= ->]. exists 0%nat. repeat split. intros j Hj. lia. }
  destruct (fetch rd) as [d [ed|]] eqn:Ed; simpl.
  { intros [= ->]. exists 1%nat. repeat split. intros [|j] Hj; [done|lia]. }
  destruct (fetch rr) as [r [er|]] eqn:Er; simpl; [|done].
  intros [= ->]. exists 2%nat. repeat split. intros [|[|j]] Hj; [done|done|lia].
Qed.

Lemma communesWorker_start_fatal_witness :
  let ri := ListUnmarshal 200 [mkInsee "75056"] None in
  let rd : ListResult Departement := ListReadErr 200 "unexpected EOF" in
  let rr : ListResult Region := ListGetErr "never requested" in
  communesWorker_start ri rd rr = ([url_communes; url_departements], Fatal "unexpected EOF") /\
  exists k : nat,
    [list_error ri; list_error rd; list_error rr] !! k = Some (Some "unexpected EOF") /\
    (forall j : nat, (j < k)%nat ->
       [list_error ri; list_error rd; list_error rr] !! j = Some None) /\
    fst (communesWorker_start ri rd rr)
    = take (S k) [url_communes; url_departements; url_regions].
Proof.
  intros ri rd rr. split; [reflexivity|].
  apply (communesWorker_start_fatal ri rd rr "unexpected EOF"). reflexivity.
Defined.

(** ** The delays of the dispatcher *)

Lemma dispatch_delay_from draws : forall total,
  Forall (fun draw => 0 <= draw < 40) draws ->
  total + 35 * Z.of_nat (length draws)
  <= foldl (fun total draw => total + sleeping draw) total draws
  <= total + 74 * Z.of_nat (length draws).
Proof.
  induction draws as [|d draws IH]; intros total Hd; simpl; [lia|].
  apply Forall_cons in Hd as [Hd Hds].
  specialize (IH (total + sleeping d) Hds). unfold sleeping in *. lia.
Qed.

(** X19: each delay requested before a launch is at least 35 and at
    most 74 milliseconds, so the delays requested before the launches of
    [n] workers add up to between [35 * n] and [74 * n] milliseconds. *)
Theorem dispatch_delay_bounds draws :
  Forall (fun draw => 0 <= draw < 40) draws ->
  Forall (fun draw => 35 <= sleeping draw <= 74) draws /\
  35 * Z.of_nat (length draws) <= dispatch_delay draws <= 74 * Z.of_nat (length draws).
Proof.
  intros Hd. split.
  - eapply Forall_impl; [exact Hd|]. intros d Hr. simpl in Hr. unfold sleeping. lia.
  - pose proof (dispatch_delay_from draws 0 Hd). unfold dispatch_delay. lia.
Qed.

Lemma dispatch_delay_bounds_witness :
  Forall (fun draw => 0 <= draw < 40) [0; 39; 17] /\
  Forall (fun draw => 35 <= sleeping draw <= 74) [0; 39; 17] /\
  35 * Z.of_nat (length [0; 39; 17]) <= dispatch_delay [0; 39; 17]
  <= 74 * Z.of_nat (length [0; 39; 17]).
Proof.
  assert (H : Forall (fun draw => 0 <= draw < 40) [0; 39; 17])
    by (repeat constructor; lia).
  split; [exact H|]. exact (dispatch_delay_bounds [0; 39; 17] H).
Defined.

(** ** The order of the messages, and the fields of a record *)

Section fifo.
Variables (departements : list Departement) (regions : list Region).
Variables (insees : list Insee) (detail : string -> GetResult).

Local Abbreviation worker := (Pipeline.worker departements regions detail).
Local Abbreviation step := (Pipeline.step departements regions insees detail).
Local Abbreviation reachable := (Pipeline.reachable departements regions insees detail).
Local Abbreviation run := (PipelineRuns.run departements regions insees detail).

Lemma step_fifo s lbl s' :
  step s lbl s' ->
  communes (collector s') ++ buf (communeCh s')
  = (communes (collector s) ++ buf (communeCh s)) ++ sent_records [lbl] /\
  log_errors (collector s') ++ buf (errorCh s')
  = (log_errors (collector s) ++ buf (errorCh s)) ++ sent_failures [lbl].
Proof.
  intros Hstep.
  destruct Hstep; cbn [collector communeCh errorCh buf sent_records sent_failures omap
                       list_omap];
    rewrite ?app_nil_r, ?app_assoc; try done;
    match goal with
    | H : readCities_step _ _ = Some _ |- _ =>
        apply readCities_step_Some in H as (_ & _ & _ & _ & _ & -> & ->)
    end;
    cbn [received_communes received_errors omap list_omap];
    rewrite ?app_nil_r, <- ?app_assoc; done.
Qed.

Lemma run_fifo s lbls s' :
  run s lbls s' ->
  communes (collector s') ++ buf (communeCh s')
  = (communes (collector s) ++ buf (communeCh s)) ++ sent_records lbls /\
  log_errors (collector s') ++ buf (errorCh s')
  = (log_errors (collector s) ++ buf (errorCh s)) ++ sent_failures lbls.
Proof.
  induction 1 as [s|s lbl s1 lbls s2 Hstep _ [IHc IHe]].
  - by rewrite !app_nil_r.
  - destruct (step_fifo _ _ _ Hstep) as [Hc He].
    rewrite IHc, IHe, Hc, He, <- !app_assoc.
    change (lbl :: lbls) with ([lbl] ++ lbls).
    unfold sent_records, sent_failures. by rewrite !omap_app.
Qed.

(** X20: the two channels are queues and the collector appends what it
    receives: at any moment of a run, the records accumulated followed
    by the records waiting in the result channel are the records the
    workers have sent, in the order of the sends; likewise the lines
    logged followed by the failures waiting in the error channel.  When
    the loop of the collector has exited nothing is waiting. *)
Theorem messages_kept_in_order lbls s :
  run init lbls s ->
  communes (collector s) ++ buf (communeCh s) = sent_records lbls /\
  log_errors (collector s) ++ buf (errorCh s) = sent_failures lbls /\
  (reachable s -> finished s ->
   communes (collector s) = sent_records lbls /\
   log_errors (collector s) = sent_failures lbls).
Proof.
  intros Hrun. destruct (run_fifo _ _ _ Hrun) as [Hc He]. simpl in Hc, He.
  split; [done|]. split; [done|].
  intros Hr Hfin. apply reachable_Inv in Hr as [_ _ _ _ _ _ _ _ Hcn Hen].
  unfold finished, looping in Hfin. apply orb_false_iff in Hfin as [Hcl Hel].
  destruct (Hcn Hcl) as [_ Hcb]. destruct (Hen Hel) as [_ Heb].
  rewrite Hcb, Heb, !app_nil_r in *. done.
Qed.

(** X21: the workers are launched in the order of the listing, one per
    identifier: in every reachable state there are as many workers as
    launches, at most as many as identifiers, and what is left to do of
    the worker at position [i] is the end of the work for the identifier
    at position [i] of the listing. *)
Theorem workers_follow_listing s :
  reachable s ->
  length (workers s) = launched s /\
  (launched s <= length insees)%nat /\
  forall (i : nat) t, workers s !! i = Some t ->
    exists insee past, insees !! i = Some insee /\ worker insee = past ++ t.
Proof.
  intros Hr. apply reachable_Inv in Hr as [Hw Hl _ _ _ _ _ _ _ _].
  split; [|split; [done|]].
  - apply Forall2_length in Hw. rewrite length_take in Hw. lia.
  - intros i t Hi.
    destruct (Forall2_lookup_r _ _ _ _ _ Hw Hi) as (insee & Hin & past & Hpast & _).
    apply lookup_take_Some in Hin as [Hin _]. by exists insee, past.
Qed.

End fifo.

(** X22: a lookup that decodes, with a status other than 404, to a
    geometry that does not hold exactly one coordinate makes the worker
    send one record: it carries the name and the postal codes of the
    response unchanged; without coordinates its location is empty, and
    otherwise it is the point made of the second and the first
    coordinate, any further coordinate being dropped. *)
Theorem worker_record_fields codeInsee departements regions StatusCode cs :
  StatusCode <> 404 ->
  length (g_Coordinates (cs_Geometry cs)) <> 1%nat ->
  exists c,
    sent_communes (geoAPIGouvFr codeInsee departements regions (decoded StatusCode cs)) = [c] /\
    sent_errors (geoAPIGouvFr codeInsee departements regions (decoded StatusCode cs)) = [] /\
    c_Nom c = p_Nom (cs_Properties cs) /\
    c_CodesPostaux c = p_CodesPostaux (cs_Properties cs) /\
    c_Location c =
      match g_Coordinates (cs_Geometry cs) with
      | x0 :: x1 :: _ => mkLocation "Point" [x1; x0]
      | _ => Location_zero
      end.
Proof.
  intros Hs Hlen. rewrite geoAPIGouvFr_decoded by done.
  destruct (build_Commune_shape departements regions cs) as (D & R & _ & _ & ->).
  destruct (g_Coordinates (cs_Geometry cs)) as [|x0 [|x1 l]]; [|done|];
    eexists; repeat split.
Qed.

Lemma worker_record_fields_witness :
  let cs := response "Paris" "75" "11" ["75001"; "75002"]
              [2.35%float; 48.85%float; 35%float] in
  200 <> 404 /\ length (g_Coordinates (cs_Geometry cs)) <> 1%nat /\
  exists c,
    sent_communes (geoAPIGouvFr "75056" [] [] (decoded 200 cs)) = [c] /\
    sent_errors (geoAPIGouvFr "75056" [] [] (decoded 200 cs)) = [] /\
    c_Nom c = p_Nom (cs_Properties cs) /\
    c_CodesPostaux c = p_CodesPostaux (cs_Properties cs) /\
    c_Location c =
      match g_Coordinates (cs_Geometry cs) with
      | x0 :: x1 :: _ => mkLocation "Point" [x1; x0]
      | _ => Location_zero
      end.
Proof.
  intros cs.
  assert (H1 : 200 <> 404) by lia.
  assert (H2 : length (g_Coordinates (cs_Geometry cs)) <> 1%nat) by (simpl; lia).
  split; [exact H1|]. split; [exact H2|].
  exact (worker_record_fields "75056" [] [] 200 cs H1 H2).
Defined.

(** A whole run on one identifier. *)
Lemma run_whole :
  PipelineRuns.run [] [] [mkInsee "75056"] (constant_detail cs_Paris) init
    [LLaunch 0; LWork 0 (EvGet (detail_url "75056")); LWork 0 (EvSendCommune c_Paris);
     LWork 0 EvDone; LSelect (RecvCommune c_Paris); LWait; LCloseError; LCloseCommune;
     LSelect ClosedError; LSelect ClosedCommune]
    state_complete.
Proof.
  repeat (eapply run_cons;
          [econstructor; try reflexivity; try (unfold communeCh_cap; simpl; lia)|]).
  apply run_nil.
Qed.

Lemma messages_kept_in_order_witness :
  let lbls := [LLaunch 0; LWork 0 (EvGet (detail_url "75056"));
               LWork 0 (EvSendCommune c_Paris); LWork 0 EvDone;
               LSelect (RecvCommune c_Paris); LWait; LCloseError; LCloseCommune;
               LSelect ClosedError; LSelect ClosedCommune] in
  PipelineRuns.run [] [] [mkInsee "75056"] (constant_detail cs_Paris) init lbls
    state_complete /\
  communes (collector state_complete) ++ buf (communeCh state_complete)
  = sent_records lbls /\
  log_errors (collector state_complete) ++ buf (errorCh state_complete)
  = sent_failures lbls /\
  (Pipeline.reachable [] [] [mkInsee "75056"] (constant_detail cs_Paris) state_complete ->
   finished state_complete ->
   communes (collector state_complete) = sent_records lbls /\
   log_errors (collector state_complete) = sent_failures lbls).
Proof.
  intros lbls. split; [exact run_whole|].
  exact (messages_kept_in_order [] [] [mkInsee "75056"] (constant_detail cs_Paris)
           lbls state_complete run_whole).
Defined.

Lemma workers_follow_listing_witness :
  Pipeline.reachable [] [] [mkInsee "75056"] (constant_detail cs_Paris) state_sent /\
  length (workers state_sent) = launched state_sent /\
  (launched state_sent <= length [mkInsee "75056"])%nat /\
  forall (i : nat) t, workers state_sent !! i = Some t ->
    exists insee past,
      [mkInsee "75056"] !! i = Some insee /\
      Pipeline.worker [] [] (constant_detail cs_Paris) insee = past ++ t.
Proof.
  split; [exact reachable_state_sent|].
  exact (workers_follow_listing [] [] [mkInsee "75056"] (constant_detail cs_Paris)
           state_sent reachable_state_sent).
Defined.
